(** * pyro/infer/util.py: MultiFrameTensor and the Dice operator

    A shallow embedding of [src/pyro/infer/util.py].

    - Python objects whose identity or in-place mutation the code observes
      (tensors handed to [MultiFrameTensor], the log-factors of [Dice]) live
      in a heap and are referred to by location.
    - Python exceptions are an explicit [outcome]; a raising call keeps the
      state changes made before the exception.
    - Floating point numbers are idealised by an abstract scalar type
      ([Scalar]); a tensor entry is a dual number (value and derivative
      along one parameter direction), which is what [detach] acts on. *)

From Stdlib Require Import ZArith Lia List Bool.
From stdpp Require Import base option list gmap sets strings.

Set Default Proof Using "Type".

(** ** Python exceptions and results *)

Inductive exn :=
  | AssertionError | KeyError | IndexError | RuntimeError
  | AttributeError | ValueError | TypeError | SystemError.

Inductive outcome (A : Type) :=
  | Ok (a : A)
  | Raise (e : exn).
Arguments Ok {A} a.
Arguments Raise {A} e.

#[export] Instance outcome_ret : MRet outcome := @Ok.
#[export] Instance outcome_bind : MBind outcome := λ A B k m,
  match m with Ok a => k a | Raise e => Raise e end.
#[export] Instance outcome_fmap : FMap outcome := λ A B f m,
  match m with Ok a => Ok (f a) | Raise e => Raise e end.

Definition of_option {A} (e : exn) (o : option A) : outcome A :=
  match o with Some a => Ok a | None => Raise e end.

(** A method call: it reads and writes a state [S] (the heap and [self]) and
    either returns or raises; what was written before a raise stays. *)
Definition py (S A : Type) : Type := S → outcome A * S.

#[export] Instance py_ret {S} : MRet (py S) := λ A a s, (Ok a, s).
#[export] Instance py_bind {S} : MBind (py S) := λ A B k m s,
  match m s with
  | (Ok a, s') => k a s'
  | (Raise e, s') => (Raise e, s')
  end.

Definition raise {S A} (e : exn) : py S A := λ s, (Raise e, s).
Definition lift {S A} (o : outcome A) : py S A := λ s, (o, s).
Definition get {S} : py S S := λ s, (Ok s, s).
Definition put {S} (s : S) : py S unit := λ _, (Ok tt, s).

(** [for x in xs: body x] *)
Fixpoint for_each {S A} (xs : list A) (body : A → py S unit) : py S unit :=
  match xs with
  | [] => mret tt
  | x :: xs' => body x ≫= λ _, for_each xs' body
  end.

(** [for x in xs: acc = body acc x], for a loop that rebinds a local. *)
Fixpoint fold_py {S A B} (body : B → A → py S B) (xs : list A) (acc : B)
  : py S B :=
  match xs with
  | [] => mret acc
  | x :: xs' => body acc x ≫= fold_py body xs'
  end.

Fixpoint fold_outcome {A B} (body : B → A → outcome B) (xs : list A) (acc : B)
  : outcome B :=
  match xs with
  | [] => Ok acc
  | x :: xs' => body acc x ≫= fold_outcome body xs'
  end.

(** [s[i]] on a Python sequence: negative indices count from the end, an
    index outside [-len, len) raises [IndexError] (here [None]). *)
Definition py_index {A} (s : list A) (i : Z) : option A :=
  if (0 <=? i)%Z then s !! Z.to_nat i
  else if (- Z.of_nat (length s) <=? i)%Z
       then s !! Z.to_nat (Z.of_nat (length s) + i)
       else None.

(** ** Scalars

    The operations of Python floats the file uses, over an abstract carrier. *)

Class Scalar (F : Type) := {
  zero : F;
  one : F;
  add : F → F → F;
  sub : F → F → F;
  mul : F → F → F;
  neg : F → F;
  exp : F → F;              (* math.exp, torch.exp *)
  log_int : positive → F;   (* math.log of a positive int *)
  is_zero : F → bool;       (* x == 0 *)
  is_pos : F → bool;        (* x > 0 *)
}.

(** The laws of exact arithmetic that some statements rely on. *)
Class ScalarLaws (F : Type) `{Scalar F} := {
  sub_diag : ∀ x : F, sub x x = zero;
  sub_zero_r : ∀ x : F, sub x zero = x;
  is_zero_zero : is_zero (zero : F) = true;
}.

(** Zero is neutral on the left, as when [sum] starts from the int 0. *)
Class ScalarAddLaws (F : Type) `{Scalar F} := {
  add_zero_l : ∀ x : F, add zero x = x;
}.

(** Integers, with [2^x] for [exp] and [log2] for [log]: an instance on which
    every definition below evaluates. *)
#[export] Instance Z_scalar : Scalar Z := {|
  zero := 0%Z; one := 1%Z;
  add := Z.add; sub := Z.sub; mul := Z.mul; neg := Z.opp;
  exp := λ x, (2 ^ x)%Z;
  log_int := λ p, Z.log2 (Z.pos p);
  is_zero := λ x, (x =? 0)%Z;
  is_pos := λ x, (0 <? x)%Z;
|}.

#[export] Instance Z_scalar_laws : ScalarLaws Z.
Proof. split; try done; intros x; cbn; lia. Qed.

#[export] Instance Z_scalar_add_laws : ScalarAddLaws Z.
Proof. split. intros x. cbn. lia. Qed.

(** Integers with the two infinities and NaN, combined as IEEE 754 combines
    floats that leave the finite range: an instance on which the
    log-probability of an impossible value can be written. *)
Inductive xfloat :=
  | Fin (z : Z)
  | PInf
  | NInf
  | NaN.

#[export] Instance xfloat_eq_dec : EqDecision xfloat.
Proof. solve_decision. Defined.

Definition xneg (x : xfloat) : xfloat :=
  match x with
  | Fin z => Fin (- z)
  | PInf => NInf
  | NInf => PInf
  | NaN => NaN
  end.

Definition xadd (x y : xfloat) : xfloat :=
  match x, y with
  | NaN, _ | _, NaN => NaN
  | PInf, NInf | NInf, PInf => NaN
  | PInf, _ | _, PInf => PInf
  | NInf, _ | _, NInf => NInf
  | Fin a, Fin b => Fin (a + b)
  end.

Definition xsign (x : xfloat) : Z :=
  match x with
  | Fin z => Z.sgn z
  | PInf => 1
  | NInf => -1
  | NaN => 0
  end.

Definition xmul (x y : xfloat) : xfloat :=
  match x, y with
  | NaN, _ | _, NaN => NaN
  | Fin a, Fin b => Fin (a * b)
  | _, _ =>
      match (xsign x * xsign y)%Z with
      | Z0 => NaN
      | Zpos _ => PInf
      | Zneg _ => NInf
      end
  end.

Definition xexp (x : xfloat) : xfloat :=
  match x with
  | Fin z => Fin (2 ^ z)
  | PInf => PInf
  | NInf => Fin 0
  | NaN => NaN
  end.

#[export] Instance xfloat_scalar : Scalar xfloat := {|
  zero := Fin 0; one := Fin 1;
  add := xadd; sub := λ x y, xadd x (xneg y); mul := xmul; neg := xneg;
  exp := xexp;
  log_int := λ p, Fin (Z.log2 (Z.pos p));
  is_zero := λ x, match x with Fin z => (z =? 0)%Z | _ => false end;
  is_pos := λ x, match x with Fin z => (0 <? z)%Z | PInf => true | _ => false end;
|}.

(** ** Frames

    Modelled from the spec: [CondIndepStackFrame] is declared outside
    [src/]; the spec's data model gives a frame an identifier, an integer
    axis index, a size and the boolean [vectorized]. *)
Record Frame := mkFrame {
  fname : string;
  dim : Z;
  fsize : nat;
  vectorized : bool;
}.

#[export] Instance Frame_eq_dec : EqDecision Frame.
Proof. solve_decision. Defined.

#[export] Instance Frame_countable : Countable Frame.
Proof.
  refine (inj_countable'
    (λ f, (fname f, dim f, fsize f, vectorized f))
    (λ '(n, d, s, v), mkFrame n d s v) _).
  by intros [].
Defined.

(** An ordinal is a frozenset of frames, ordered by inclusion. *)
Abbreviation ordinal := (gset Frame).

(** ** Tensors

    The part of torch the file calls, as reference semantics on row-major
    data.  An entry is a dual number: [val] is what the tensor holds, [tan]
    its derivative along one parameter direction, which autograd would
    return. *)

Section tensors.
Context {F : Type} `{Scalar F}.

Record dual := Dual { val : F; tan : F }.

Definition dzero : dual := Dual zero zero.
Definition of_num (x : F) : dual := Dual x zero.
Definition dadd (a b : dual) := Dual (add (val a) (val b)) (add (tan a) (tan b)).
Definition dsub (a b : dual) := Dual (sub (val a) (val b)) (sub (tan a) (tan b)).
Definition dmul (a b : dual) :=
  Dual (mul (val a) (val b)) (add (mul (tan a) (val b)) (mul (val a) (tan b))).
Definition dneg (a : dual) := Dual (neg (val a)) (neg (tan a)).
Definition dexp (a : dual) := Dual (exp (val a)) (mul (exp (val a)) (tan a)).
Definition ddetach (a : dual) := Dual (val a) zero.

Record tensor := Tensor { shape : list nat; data : list dual }.

Definition numel (s : list nat) : nat := foldr Nat.mul 1 s.

(** torch keeps [len(data) = numel(shape)]. *)
Definition tensor_wf (t : tensor) : Prop := length (data t) = numel (shape t).

(** Row-major position of a flat index, and back; along an axis of extent one
    the source index is always 0 (broadcasting). *)
Fixpoint unravel (s : list nat) (i : nat) : list nat :=
  match s with
  | [] => []
  | _ :: s' => i / numel s' :: unravel s' (i `mod` numel s')
  end.

Fixpoint ravel (s idx : list nat) : nat :=
  match s, idx with
  | n :: s', k :: idx' => (if n =? 1 then 0 else k) * numel s' + ravel s' idx'
  | _, _ => 0
  end.

Definition pad_shape (r : nat) (s : list nat) : list nat :=
  replicate (r - length s) 1 ++ s.

(** The common shape of two operands, aligned at the trailing axis. *)
Fixpoint broadcast_rev (r1 r2 : list nat) : option (list nat) :=
  match r1, r2 with
  | [], r | r, [] => Some r
  | a :: r1', b :: r2' =>
      r ← broadcast_rev r1' r2';
      if a =? b then Some (a :: r)
      else if a =? 1 then Some (b :: r)
      else if b =? 1 then Some (a :: r)
      else None
  end.

Definition broadcast_shapes (s1 s2 : list nat) : option (list nat) :=
  reverse <$> broadcast_rev (reverse s1) (reverse s2).

(** The entries of [t] as seen at shape [s], for [shape t] broadcastable to
    [s]. *)
Definition expand (t : tensor) (s : list nat) : list dual :=
  let src := pad_shape (length s) (shape t) in
  (λ i, default dzero (data t !! ravel src (unravel s i))) <$> seq 0 (numel s).

(** An elementwise binary operator; incompatible shapes raise
    [RuntimeError]. *)
Definition tmap2 (f : dual → dual → dual) (a b : tensor) : outcome tensor :=
  s ← of_option RuntimeError (broadcast_shapes (shape a) (shape b));
  Ok (Tensor s (zip_with f (expand a s) (expand b s))).

Definition tmap (f : dual → dual) (a : tensor) : tensor :=
  Tensor (shape a) (f <$> data a).

Definition tadd := tmap2 dadd.
Definition tsub := tmap2 dsub.
Definition tmul := tmap2 dmul.
Definition texp := tmap dexp.
Definition tdetach := tmap ddetach.

(** [t.sum()] *)
Definition tsum (t : tensor) : tensor :=
  Tensor [] [foldl dadd dzero (data t)].

(** The axis a [dim] argument names: torch accepts [-rank <= dim < rank]. *)
Definition axis_of (rank : nat) (d : Z) : option nat :=
  if (0 <=? d)%Z then
    (if (d <? Z.of_nat rank)%Z then Some (Z.to_nat d) else None)
  else if (- Z.of_nat rank <=? d)%Z then Some (Z.to_nat (Z.of_nat rank + d))
  else None.

(** [t.sum(d, True)]: sum along one axis, keeping it with extent one. *)
Definition tsum_dim (t : tensor) (d : Z) : outcome tensor :=
  k ← of_option IndexError (axis_of (length (shape t)) d);
  let n := default 1 (shape t !! k) in
  let s' := <[k := 1]> (shape t) in
  Ok (Tensor s'
        ((λ i, foldl dadd dzero
                 ((λ j, default dzero
                          (data t !! ravel (shape t) (<[k := j]> (unravel s' i))))
                    <$> seq 0 n))
           <$> seq 0 (numel s'))).

(** [while value.shape and value.shape[0] == 1: value.squeeze_(0)], on the
    shape; the data is untouched. *)
Fixpoint strip_leading_ones (s : list nat) : list nat :=
  match s with
  | 1 :: s' => strip_leading_ones s'
  | _ => s
  end.

Definition squeeze_leading (t : tensor) : tensor :=
  Tensor (strip_leading_ones (shape t)) (data t).

End tensors.

Arguments dual F : clear implicits.
Arguments tensor F : clear implicits.

(** ** Insertion-ordered dictionaries

    A Python [dict] iterated with [items()]: assigning to a present key keeps
    its position, a new key goes last. *)

Section dict.
Context {K V : Type} `{EqDecision K}.

Fixpoint dict_get (d : list (K * V)) (k : K) : option V :=
  match d with
  | [] => None
  | (k', v) :: d' => if decide (k' = k) then Some v else dict_get d' k
  end.

Fixpoint dict_set (d : list (K * V)) (k : K) (v : V) : list (K * V) :=
  match d with
  | [] => [(k, v)]
  | (k', v') :: d' =>
      if decide (k' = k) then (k, v) :: d' else (k', v') :: dict_set d' k v
  end.

End dict.

(** ** class MultiFrameTensor(dict) *)

Module MultiFrameTensor.
Section with_scalar.
Context {F : Type} `{Scalar F}.

(** The tensors are objects: [add] stores the caller's tensor itself, and
    [sum_to] squeezes in place.  [mft] is the dict, from a frozenset of
    frames to the location of its tensor. *)
Definition loc := nat.

Record state := State {
  heap : list (tensor F);
  mft : list (gset Frame * loc);
}.

(** Reading a location outside the heap has no counterpart in Python, where
    every reference is live; the model reports it as [SystemError]. *)
Definition deref (l : loc) : py state (tensor F) :=
  λ s, (of_option SystemError (heap s !! l), s).

Definition alloc (t : tensor F) : py state loc :=
  λ s, (Ok (length (heap s)), State (heap s ++ [t]) (mft s)).

Definition store (l : loc) (t : tensor F) : py state unit :=
  λ s, (Ok tt, State (<[l := t]> (heap s)) (mft s)).

Definition get_self : py state (list (gset Frame * loc)) :=
  λ s, (Ok (mft s), s).

Definition set_self (d : list (gset Frame * loc)) : py state unit :=
  λ s, (Ok tt, State (heap s) d).

(** [frozenset(f for f in cond_indep_stack if f.vectorized)] *)
Definition frames_of (cond_indep_stack : list Frame) : gset Frame :=
  list_to_set (filter (λ f, vectorized f = true) cond_indep_stack).

(** [f.dim < 0 and -len(value.shape) <= f.dim] *)
Definition addresses_axis (value : tensor F) (f : Frame) : bool :=
  (dim f <? 0)%Z && (- Z.of_nat (length (shape value)) <=? dim f)%Z.

Definition add_item (item : list Frame * loc) : py state unit :=
  let '(cond_indep_stack, value) := item in
  let frames := frames_of cond_indep_stack in
  v ← deref value;
  if forallb (addresses_axis v) (elements frames) then
    self ← get_self;
    match dict_get self frames with
    | Some old =>
        o ← deref old;
        r ← lift (tadd o v);
        l ← alloc r;
        set_self (dict_set self frames l)
    | None => set_self (dict_set self frames value)
    end
  else raise AssertionError.

Definition add (items : list (list Frame * loc)) : py state unit :=
  for_each items add_item.

(** The constructor, [MultiFrameTensor] applied to items, over a heap that holds the callers' tensors. *)
Definition __init__ (items : list (list Frame * loc)) (h : list (tensor F))
  : outcome unit * state :=
  add items (State h []).

(** One turn of [for f in frames]: the local [value] is rebound to a new
    tensor when the axis is summed.  Python iterates a frozenset in an order
    it does not specify; [elements] fixes one. *)
Definition reduce_frame (target_frames : gset Frame) (value : loc) (f : Frame)
  : py state loc :=
  if decide (f ∈ target_frames) then mret value
  else
    v ← deref value;
    n ← lift (of_option IndexError (py_index (shape v) (dim f)));
    if n =? 1 then mret value
    else r ← lift (tsum_dim v (dim f)); alloc r.

Fixpoint reduce_frames (target_frames : gset Frame) (value : loc)
    (frames : list Frame) : py state loc :=
  match frames with
  | [] => mret value
  | f :: frames' =>
      value' ← reduce_frame target_frames value f;
      reduce_frames target_frames value' frames'
  end.

(** [while value.shape and value.shape[0] == 1: value.squeeze_(0)]: the
    tensor [value] refers to is changed in place. *)
Definition squeeze_ (value : loc) : py state unit :=
  v ← deref value;
  store value (squeeze_leading v).

Definition sum_to_item (target_frames : gset Frame) (total : option loc)
    (item : gset Frame * loc) : py state (option loc) :=
  let '(frames, value) := item in
  value ← reduce_frames target_frames value (elements frames);
  _ ← squeeze_ value;
  match total with
  | None => mret (Some value)
  | Some tot =>
      a ← deref tot;
      b ← deref value;
      r ← lift (tadd a b);
      l ← alloc r;
      mret (Some l)
  end.

Fixpoint sum_to_items (target_frames : gset Frame) (total : option loc)
    (items : list (gset Frame * loc)) : py state (option loc) :=
  match items with
  | [] => mret total
  | item :: items' =>
      total' ← sum_to_item target_frames total item;
      sum_to_items target_frames total' items'
  end.

Definition sum_to (target_frames : gset Frame) : py state (option loc) :=
  self ← get_self;
  sum_to_items target_frames None self.

(** *** The vocabulary of the statements about the accumulator *)

(** Every vectorized frame of the entry has [dim < 0] and
    [-dim <= rank(tensor)]. *)
Definition item_ok (h : list (tensor F)) (item : list Frame * loc) : Prop :=
  ∃ v, h !! item.2 = Some v ∧
    Forall (λ f, vectorized f = true →
              (dim f < 0)%Z ∧ (- dim f ≤ Z.of_nat (length (shape v)))%Z)
           item.1.

(** Every reference held by the dict, or passed in, is live. *)
Definition dict_live (st : state) : Prop :=
  ∀ frames l, dict_get (mft st) frames = Some l → is_Some (heap st !! l).

Definition items_live (h : list (tensor F)) (items : list (list Frame * loc))
  : Prop :=
  Forall (λ item, is_Some (h !! item.2)) items.

(** The tensors of the items, summed from left to right. *)
Definition add_tensor (h : list (tensor F)) (total : option (tensor F))
    (item : list Frame * loc) : outcome (option (tensor F)) :=
  v ← of_option SystemError (h !! item.2);
  match total with
  | None => Ok (Some v)
  | Some o => Some <$> tadd o v
  end.

Definition added_sum (h : list (tensor F)) (items : list (list Frame * loc))
  : outcome (option (tensor F)) :=
  fold_outcome (add_tensor h) items None.

(** [sum_to] on tensor values, for a given way of reducing a tensor along the
    axis of one frame: every stored tensor is reduced for each frame of its
    key, leading axes of extent one are stripped, the results are summed. *)
Definition entry_spec (reduce : tensor F → Frame → outcome (tensor F))
    (entry : gset Frame * tensor F) : outcome (tensor F) :=
  squeeze_leading <$> fold_outcome reduce (elements entry.1) entry.2.

Definition add_entry (reduce : tensor F → Frame → outcome (tensor F))
    (total : option (tensor F)) (entry : gset Frame * tensor F)
  : outcome (option (tensor F)) :=
  v ← entry_spec reduce entry;
  match total with
  | None => Ok (Some v)
  | Some t => Some <$> tadd t v
  end.

Definition sum_with (reduce : tensor F → Frame → outcome (tensor F))
    (entries : list (gset Frame * tensor F)) : outcome (option (tensor F)) :=
  fold_outcome (add_entry reduce) entries None.

(** The reduction as the code decides it: the axis of a frame that is not in
    the target is summed when its extent is not one. *)
Definition reduce_spec (target_frames : gset Frame) (t : tensor F) (f : Frame)
  : outcome (tensor F) :=
  if decide (f ∈ target_frames) then Ok t
  else
    n ← of_option IndexError (py_index (shape t) (dim f));
    if n =? 1 then Ok t else tsum_dim t (dim f).

Definition sum_to_spec (target_frames : gset Frame)
  : list (gset Frame * tensor F) → outcome (option (tensor F)) :=
  sum_with (reduce_spec target_frames).

(** The reduction in the spec's words: the axis is summed "only if that axis
    currently has extent greater than one". *)
Definition reduce_claimed (target_frames : gset Frame) (t : tensor F)
    (f : Frame) : outcome (tensor F) :=
  if decide (f ∈ target_frames) then Ok t
  else
    n ← of_option IndexError (py_index (shape t) (dim f));
    if 1 <? n then tsum_dim t (dim f) else Ok t.

Definition sum_to_claimed (target_frames : gset Frame)
  : list (gset Frame * tensor F) → outcome (option (tensor F)) :=
  sum_with (reduce_claimed target_frames).

(** The accumulator as the claims see it: each key with the tensor its
    reference leads to. *)
Definition holds (st : state) (entries : list (gset Frame * tensor F)) : Prop :=
  Forall2 (λ item entry, item.1 = entry.1 ∧ heap st !! item.2 = Some entry.2)
          (mft st) entries.

(** What [sum_to] may do to a tensor that was in the heap before the call:
    nothing, or strip its leading axes of extent one; the entries stay. *)
Definition squeezed (t t' : tensor F) : Prop :=
  data t' = data t ∧
  (shape t' = shape t ∨ shape t' = strip_leading_ones (shape t)).

Definition no_leading_one (s : list nat) : Prop := head s ≠ Some 1.

(** The heaps a call of [sum_to] can lead to. *)
Definition evolves (h h' : list (tensor F)) : Prop :=
  ∀ l t, h !! l = Some t → ∃ t', h' !! l = Some t' ∧ squeezed t t'.

End with_scalar.

Arguments state F : clear implicits.

End MultiFrameTensor.

(** ** class Dice(object) *)

Module Dice.
Section with_scalar.
Context {F : Type} `{Scalar F}.

(** A score-function term, a log-factor or a weight is a Python number or a
    tensor. *)
Inductive pyobj :=
  | Num (x : F)
  | Tens (t : tensor F).

(** The values found in a site's [infer] dict. *)
Inductive pyval :=
  | PyNone
  | PyBool (b : bool)
  | PyInt (z : Z)
  | PyStr (s : string).

#[export] Instance pyval_eq_dec : EqDecision pyval.
Proof. solve_decision. Defined.

(** [if v:] *)
Definition truthy (v : pyval) : bool :=
  match v with
  | PyNone => false
  | PyBool b => b
  | PyInt z => negb (z =? 0)%Z
  | PyStr s => negb (String.eqb s "")
  end.

(** [math.log(v)] *)
Definition math_log (v : pyval) : outcome F :=
  match v with
  | PyInt (Zpos p) => Ok (log_int p)
  | PyBool true => Ok (log_int 1)
  | PyInt _ | PyBool false => Raise ValueError
  | PyNone | PyStr _ => Raise TypeError
  end.

(** What [__init__] reads of a node of the trace. *)
Definition loc := nat.

Record site := Site {
  type : string;                (* site["type"] *)
  score_function : loc;         (* site['score_parts'].score_function *)
  infer : gmap string pyval;    (* site["infer"] *)
}.

(** [self]: the two defaultdicts in insertion order, and the two caches. *)
Record dice := MkDice {
  log_denom : list (ordinal * F);
  log_probs : list (ordinal * list loc);
  _log_factors_cache : gmap ordinal (list loc);
  _prob_cache : gmap (list nat * ordinal) pyobj;
}.

(** The heap holds the objects whose identity [compute_expectation] looks
    at: the score-function terms of the trace and the log-factors made from
    them. *)
Record state := State {
  heap : list pyobj;
  self : dice;
}.

Definition deref (l : loc) : py state pyobj :=
  λ s, (of_option SystemError (heap s !! l), s).

Definition alloc (o : pyobj) : py state loc :=
  λ s, (Ok (length (heap s)), State (heap s ++ [o]) (self s)).

Definition get_self : py state dice := λ s, (Ok (self s), s).

Definition set_self (d : dice) : py state unit := λ s, (Ok tt, State (heap s) d).

(** Modelled from the spec: [pyro.distributions.util.is_identically_zero] is
    not under [src/]; the score-function term is a tensor or the exact-zero
    marker, the number zero. *)
Definition is_identically_zero (x : pyobj) : bool :=
  match x with
  | Num x => is_zero x
  | Tens _ => false
  end.

(** [log_prob - log_prob.detach()]; a number has no [detach]. *)
Definition minus_detached (log_prob : pyobj) : outcome pyobj :=
  match log_prob with
  | Num _ => Raise AttributeError
  | Tens t => Tens <$> tsub t (tdetach t)
  end.

(** [log_denom[ordinal] += x] on a [defaultdict(float)] and
    [log_probs[ordinal].append(term)] on a [defaultdict(list)]. *)
Definition denom_add (d : dice) (ordinal : ordinal) (x : F) : dice :=
  MkDice
    (dict_set (log_denom d) ordinal
       (add (default zero (dict_get (log_denom d) ordinal)) x))
    (log_probs d) (_log_factors_cache d) (_prob_cache d).

Definition probs_append (d : dice) (ordinal : ordinal) (term : loc) : dice :=
  MkDice (log_denom d)
    (dict_set (log_probs d) ordinal
       (default [] (dict_get (log_probs d) ordinal) ++ [term]))
    (_log_factors_cache d) (_prob_cache d).

(** The body of [for name, site in guide_trace.nodes.items()]. *)
Definition init_site (ordering : gmap string ordinal) (node : string * site)
  : py state unit :=
  let '(name, site) := node in
  if negb (String.eqb (type site) "sample") then mret tt
  else
    log_prob ← deref (score_function site);
    if is_identically_zero log_prob then mret tt
    else
      ordinal ← lift (of_option KeyError (ordering !! name));
      term ←
        (if default false (truthy <$> infer site !! "enumerate") then
           if decide (infer site !! "enumerate" = Some (PyStr "sequential")) then
             total ← lift (of_option KeyError (infer site !! "_enum_total"));
             x ← lift (math_log total);
             d ← get_self;
             _ ← set_self (denom_add d ordinal x);
             mret (score_function site)
           else mret (score_function site)
         else
           r ← lift (minus_detached log_prob);
           alloc r);
      d ← get_self;
      set_self (probs_append d ordinal term).

(** [Dice(guide_trace, ordering)], over a heap that holds the trace's
    score-function terms: the new object, or the exception. *)
Definition __init__ (guide_trace : list (string * site))
    (ordering : gmap string ordinal) (h : list pyobj) : outcome unit * state :=
  for_each guide_trace (init_site ordering) (State h (MkDice [] [] ∅ ∅)).

(** [not ordinal <= target_ordinal] sums the denominators; the sum starts at
    the int 0. *)
Definition denominator (d : dice) (target_ordinal : ordinal) : F :=
  foldl (λ log_denom '(ordinal, term),
           if decide (ordinal ⊆ target_ordinal) then log_denom
           else add log_denom term)
        zero (log_denom d).

(** [log_factors += term] for every upstream ordinal. *)
Definition upstream (d : dice) (target_ordinal : ordinal)
    (log_factors : list loc) : list loc :=
  foldl (λ log_factors '(ordinal, term),
           if decide (ordinal ⊆ target_ordinal) then log_factors ++ term
           else log_factors)
        log_factors (log_probs d).

(** [self._log_factors_cache[target_ordinal] = log_factors] and
    [self._prob_cache[shape, ordinal] = dice_prob]. *)
Definition cache_log_factors (d : dice) (target_ordinal : ordinal)
    (log_factors : list loc) : dice :=
  MkDice (log_denom d) (log_probs d)
    (<[target_ordinal := log_factors]> (_log_factors_cache d)) (_prob_cache d).

Definition cache_prob (d : dice) (shape : list nat) (ordinal : ordinal)
    (dice_prob : pyobj) : dice :=
  MkDice (log_denom d) (log_probs d) (_log_factors_cache d)
    (<[(shape, ordinal) := dice_prob]> (_prob_cache d)).

Definition _get_log_factors (target_ordinal : ordinal) : py state (list loc) :=
  d ← get_self;
  match _log_factors_cache d !! target_ordinal with
  | Some log_factors => mret log_factors
  | None =>
      let denom := denominator d target_ordinal in
      log_factors ←
        (if is_identically_zero (Num denom) then mret []
         else l ← alloc (Num (neg denom)); mret [l]);
      let log_factors := upstream d target_ordinal log_factors in
      _ ← set_self (cache_log_factors d target_ordinal log_factors);
      mret log_factors
  end.

(** [torch_exp] *)
Definition torch_exp (x : pyobj) : pyobj :=
  match x with
  | Num x => Num (exp x)
  | Tens t => Tens (texp t)
  end.

(** [a + b] and [a * b] on numbers and tensors; a number acts on every
    entry. *)
Definition py_add (a b : pyobj) : outcome pyobj :=
  match a, b with
  | Num x, Num y => Ok (Num (add x y))
  | Num x, Tens t => Ok (Tens (tmap (dadd (of_num x)) t))
  | Tens t, Num y => Ok (Tens (tmap (λ e, dadd e (of_num y)) t))
  | Tens t, Tens u => Tens <$> tadd t u
  end.

Definition py_mul (a b : pyobj) : outcome pyobj :=
  match a, b with
  | Num x, Num y => Ok (Num (mul x y))
  | Num x, Tens t => Ok (Tens (tmap (dmul (of_num x)) t))
  | Tens t, Num y => Ok (Tens (tmap (λ e, dmul e (of_num y)) t))
  | Tens t, Tens u => Tens <$> tmul t u
  end.

(** Modelled from the spec: [pyro.ops.sumproduct.sumproduct] is not under
    [src/].  The factors are multiplied and the product is summed down to
    the target shape; the product of no factors is the number one, and a
    product of numbers stays a number. *)
Fixpoint sum_leading (n : nat) (t : tensor F) : outcome (tensor F) :=
  match n with
  | 0 => Ok t
  | S n' =>
      t' ← tsum_dim t 0;
      sum_leading n' (Tensor (tail (shape t')) (data t'))
  end.

Fixpoint sum_larger (k : nat) (target_shape : list nat) (t : tensor F)
  : outcome (tensor F) :=
  match target_shape with
  | [] => Ok t
  | n :: target_shape' =>
      t' ← (if n <? default 1 (shape t !! k) then tsum_dim t (Z.of_nat k)
            else Ok t);
      sum_larger (S k) target_shape' t'
  end.

Definition sum_down (t : tensor F) (target_shape : list nat)
  : outcome (tensor F) :=
  t' ← sum_leading (length (shape t) - length target_shape) t;
  let r := length target_shape - length (shape t') in
  sum_larger 0 (drop r target_shape) t'.

Fixpoint product (acc : pyobj) (factors : list pyobj) : outcome pyobj :=
  match factors with
  | [] => Ok acc
  | f :: factors' => acc' ← py_mul acc f; product acc' factors'
  end.

Definition sumproduct (factors : list pyobj) (target_shape : list nat)
  : outcome pyobj :=
  p ← product (Num one) factors;
  match p with
  | Num x => Ok (Num x)
  | Tens t => Tens <$> sum_down t target_shape
  end.

(** [for f in log_factors: ... torch_exp(f)] reads the objects. *)
Fixpoint exp_all (log_factors : list loc) : py state (list pyobj) :=
  match log_factors with
  | [] => mret []
  | l :: log_factors' =>
      f ← deref l;
      fs ← exp_all log_factors';
      mret (torch_exp f :: fs)
  end.

Definition in_context (shape : list nat) (ordinal : ordinal) : py state pyobj :=
  let shape := strip_leading_ones shape in
  d ← get_self;
  match _prob_cache d !! (shape, ordinal) with
  | Some dice_prob => mret dice_prob
  | None =>
      log_factors ← _get_log_factors ordinal;
      factors ← exp_all log_factors;
      dice_prob ← lift (sumproduct factors shape);
      d ← get_self;
      _ ← set_self (cache_prob d shape ordinal dice_prob);
      mret dice_prob
  end.

(** [mask = prob > 0] on a tensor, [broadcast_all], [x[mask]]. *)
Definition positive_mask (prob : tensor F) : list bool :=
  (λ e, is_pos (val e)) <$> data prob.

Definition mask_all (mask : list bool) : bool := forallb id mask.

Definition masked {A} (mask : list bool) (xs : list A) : list A :=
  snd <$> filter (λ p, p.1 = true) (zip mask xs).

(** The five lines both branches of [compute_expectation] share, from
    [mask = prob > 0] to [(prob * cost).sum()].  For a number [prob > 0] is a
    Python bool and nothing is masked. *)
Definition masked_sum (prob : pyobj) (cost : tensor F) : outcome (tensor F) :=
  match prob with
  | Num x => Ok (tsum (tmap (dmul (of_num x)) cost))
  | Tens p =>
      if mask_all (positive_mask p) then tsum <$> tmul p cost
      else
        s ← of_option RuntimeError (broadcast_shapes (shape cost) (shape p));
        let cost' := expand cost s in
        let prob' := expand p s in
        let mask' := (λ e, is_pos (val e)) <$> prob' in
        let prob'' := masked mask' prob' in
        let cost'' := masked mask' cost' in
        tsum <$> tmul (Tensor [length prob''] prob'')
                      (Tensor [length cost''] cost'')
  end.

Definition accumulate (expected_cost : pyobj) (prob : pyobj) (cost : tensor F)
  : outcome pyobj :=
  term ← masked_sum prob cost;
  py_add expected_cost (Tens term).

(** The first loop of the [use_einsum] branch: [exp_table] is keyed by
    [id(log_factor)], [factors_table] by ordinal. *)
Definition exp_factor (ordinal : ordinal)
    (tables : gmap loc pyobj * gmap (gset Frame) (list pyobj))
    (log_factor : loc)
  : py state (gmap loc pyobj * gmap (gset Frame) (list pyobj)) :=
  let '(exp_table, factors_table) := tables in
  match exp_table !! log_factor with
  | Some _ => mret (exp_table, factors_table)
  | None =>
      f ← deref log_factor;
      let factor := torch_exp f in
      mret (<[log_factor := factor]> exp_table,
            <[ordinal := default [] (factors_table !! ordinal) ++ [factor]]>
              factors_table)
  end.

Definition exp_ordinal
    (tables : gmap loc pyobj * gmap (gset Frame) (list pyobj))
    (ordinal : ordinal)
  : py state (gmap loc pyobj * gmap (gset Frame) (list pyobj)) :=
  log_factors ← _get_log_factors ordinal;
  fold_py (exp_factor ordinal) log_factors tables.

(** The second loop of the [use_einsum] branch. *)
Definition einsum_cost (factors : list pyobj) (expected_cost : pyobj)
    (cost : tensor F) : outcome pyobj :=
  prob ← sumproduct factors (shape cost);
  accumulate expected_cost prob cost.

Definition einsum_ordinal (factors_table : gmap (gset Frame) (list pyobj))
    (expected_cost : pyobj) (item : ordinal * list (tensor F))
  : outcome pyobj :=
  let '(ordinal, cost_terms) := item in
  let factors := default [] (factors_table !! ordinal) in
  fold_outcome (einsum_cost factors) cost_terms expected_cost.

(** [sum(cost_terms)], which starts at the int 0. *)
Definition py_sum (cost_terms : list (tensor F)) : outcome pyobj :=
  fold_outcome (λ acc t, py_add acc (Tens t)) cost_terms (Num zero).

(** The loop of the [else] branch; the int 0 has no [shape]. *)
Definition direct_ordinal (expected_cost : pyobj)
    (item : ordinal * list (tensor F)) : py state pyobj :=
  let '(ordinal, cost_terms) := item in
  cost ← lift (py_sum cost_terms);
  match cost with
  | Num _ => raise AttributeError
  | Tens cost =>
      prob ← in_context (shape cost) ordinal;
      lift (accumulate expected_cost prob cost)
  end.

Definition compute_expectation (costs : list (ordinal * list (tensor F)))
    (use_einsum : bool) : py state pyobj :=
  if use_einsum then
    tables ← fold_py exp_ordinal (costs.*1) (∅, ∅);
    lift (fold_outcome (einsum_ordinal tables.2) costs (Num zero))
  else
    fold_py direct_ordinal costs (Num zero).

(** *** What the log-factor cache may hold

    The description of [_get_log_factors] in the spec's words: the stored
    log-denominators of the ordinals that are not upstream-of-or-equal-to the
    target, summed from left to right; the log-weight terms of the ordinals
    that are, concatenated. *)
Definition sum_list (xs : list F) : F := foldl add zero xs.

Definition not_upstream_denominators (d : dice) (target_ordinal : ordinal)
  : list F :=
  (filter (λ p, ¬ p.1 ⊆ target_ordinal) (log_denom d)).*2.

Definition upstream_terms (d : dice) (target_ordinal : ordinal) : list loc :=
  mjoin ((filter (λ p, p.1 ⊆ target_ordinal) (log_probs d)).*2).

Definition log_factors_spec (h : list pyobj) (d : dice)
    (target_ordinal : ordinal) (log_factors : list loc) : Prop :=
  let s := sum_list (not_upstream_denominators d target_ordinal) in
  ∃ leading,
    log_factors = leading ++ upstream_terms d target_ordinal ∧
    if is_zero s then leading = []
    else ∃ l, leading = [l] ∧ h !! l = Some (Num (neg s)).

(** The invariant of the memo table: an entry is what a call computed. *)
Definition cache_ok (st : state) : Prop :=
  ∀ target_ordinal log_factors,
    _log_factors_cache (self st) !! target_ordinal = Some log_factors →
    log_factors_spec (heap st) (self st) target_ordinal log_factors.

(** The states a Dice object goes through: made by the constructor, then
    changed by its methods. *)
Inductive reachable : state → Prop :=
  | reachable_init guide_trace ordering h st :
      __init__ guide_trace ordering h = (Ok tt, st) → reachable st
  | reachable_get_log_factors target_ordinal st r st' :
      reachable st → _get_log_factors target_ordinal st = (r, st') →
      reachable st'
  | reachable_in_context shape ordinal st r st' :
      reachable st → in_context shape ordinal st = (r, st') → reachable st'
  | reachable_compute_expectation costs use_einsum st r st' :
      reachable st → compute_expectation costs use_einsum st = (r, st') →
      reachable st'.

(** The sites the constructor's loop does not skip, for a trace whose
    score-function terms are in [h]. *)
Definition contributes (h : list pyobj) (node : string * site) : bool :=
  String.eqb (type node.2) "sample" &&
  negb (default false (is_identically_zero <$> h !! score_function node.2)).

(** The sites at which no line of the loop body raises. *)
Definition site_ok (h : list pyobj) (ordering : gmap string ordinal)
    (node : string * site) : bool :=
  if negb (String.eqb (type node.2) "sample") then true
  else
    match h !! score_function node.2 with
    | None => false
    | Some log_prob =>
        if is_identically_zero log_prob then true
        else
          bool_decide (is_Some (ordering !! node.1)) &&
          (if default false (truthy <$> infer node.2 !! "enumerate") then
             if decide (infer node.2 !! "enumerate" = Some (PyStr "sequential"))
             then
               match infer node.2 !! "_enum_total" with
               | Some total =>
                   match math_log total with Ok _ => true | Raise _ => false end
               | None => false
               end
             else true
           else
             match log_prob with Tens _ => true | Num _ => false end)
    end.

(** *** What the constructor builds, in the spec's words

    The contributing sites of an ordinal in trace order.  Of these, the
    sequentially enumerated ones make the log-denominator bucket, the sum of
    the logarithms of their totals; and each makes one log-weight term: the
    score-function term itself for an enumerated site, and for a Monte-Carlo
    sampled site a new tensor, the term minus its detached value, whose
    entries have the value [x - x] and the derivative of the term. *)
Definition sites_at (h : list pyobj) (ordering : gmap string ordinal)
    (guide_trace : list (string * site)) (ordinal : ordinal)
  : list (string * site) :=
  filter (λ node, contributes h node = true ∧ ordering !! node.1 = Some ordinal)
    guide_trace.

Definition enumerated (s : site) : bool :=
  default false (truthy <$> infer s !! "enumerate").

Definition sequential (s : site) : bool :=
  bool_decide (infer s !! "enumerate" = Some (PyStr "sequential")).

Definition enum_total_log (s : site) : option F :=
  total ← infer s !! "_enum_total";
  match math_log total with Ok x => Some x | Raise _ => None end.

Definition denominator_logs (sites : list (string * site)) : list F :=
  omap (λ node, if sequential node.2 then enum_total_log node.2 else None) sites.

Definition bucket (logs : list F) : option F :=
  match logs with
  | [] => None
  | _ => Some (sum_list logs)
  end.

Definition surrogate (t : tensor F) : tensor F :=
  Tensor (shape t) ((λ e, Dual (sub (val e) (val e)) (tan e)) <$> data t).

Definition term_of (h heap' : list pyobj) (node : string * site) (l : loc)
  : Prop :=
  if enumerated node.2 then l = score_function node.2
  else ∃ t, h !! score_function node.2 = Some (Tens t) ∧
            length h ≤ l ∧ heap' !! l = Some (Tens (surrogate t)).

Definition listed (terms : list loc) : option (list loc) :=
  match terms with
  | [] => None
  | _ => Some terms
  end.

Definition built (h : list pyobj) (ordering : gmap string ordinal)
    (guide_trace : list (string * site)) (st : state) : Prop :=
  (∃ k, heap st = h ++ k) ∧
  ∀ ordinal,
    dict_get (log_denom (self st)) ordinal =
      bucket (denominator_logs (sites_at h ordering guide_trace ordinal)) ∧
    ∃ terms,
      Forall2 (term_of h (heap st)) (sites_at h ordering guide_trace ordinal)
        terms ∧
      dict_get (log_probs (self st)) ordinal = listed terms.

(** One call of a method, and any number of them. *)
Inductive call : state → state → Prop :=
  | call_get_log_factors target_ordinal st r st' :
      _get_log_factors target_ordinal st = (r, st') → call st st'
  | call_in_context shape ordinal st r st' :
      in_context shape ordinal st = (r, st') → call st st'
  | call_compute_expectation costs use_einsum st r st' :
      compute_expectation costs use_einsum st = (r, st') → call st st'.

(** [torch_item]: a number is returned as it is, a tensor through [x.item()],
    which wants exactly one entry. *)
Definition torch_item (x : pyobj) : outcome F :=
  match x with
  | Num x => Ok x
  | Tens t =>
      match data t with
      | [e] => Ok (val e)
      | _ => Raise ValueError
      end
  end.

(** A scalar: a number, or a tensor of shape () with its one entry. *)
Definition is_scalar (x : pyobj) : Prop :=
  match x with
  | Num _ => True
  | Tens t => shape t = [] ∧ length (data t) = 1
  end.

(** *** What [in_context] computes

    The log-factors of an ordinal as values, read from the heap, and the
    weight made of them; no cache is consulted. *)
Definition log_factor_values (h : list pyobj) (d : dice)
    (target_ordinal : ordinal) : option (list pyobj) :=
  vals ← mapM (λ l, h !! l) (upstream_terms d target_ordinal);
  let s := sum_list (not_upstream_denominators d target_ordinal) in
  Some ((if is_zero s then [] else [Num (neg s)]) ++ vals).

Definition weight (h : list pyobj) (d : dice) (shape : list nat)
    (ordinal : ordinal) : outcome pyobj :=
  log_factors ← of_option SystemError (log_factor_values h d ordinal);
  sumproduct (torch_exp <$> log_factors) (strip_leading_ones shape).

(** The [else] branch of [compute_expectation] with the weights computed
    afresh. *)
Definition direct_cost (h : list pyobj) (d : dice) (expected_cost : pyobj)
    (item : ordinal * list (tensor F)) : outcome pyobj :=
  cost ← py_sum item.2;
  match cost with
  | Num _ => Raise AttributeError
  | Tens cost =>
      prob ← weight h d (shape cost) item.1;
      accumulate expected_cost prob cost
  end.

Definition direct_expectation (h : list pyobj) (d : dice)
    (costs : list (ordinal * list (tensor F))) : outcome pyobj :=
  fold_outcome (direct_cost h d) costs (Num zero).

(** The invariants of a Dice object besides [cache_ok]: every log-weight term
    is a live reference, and an entry of the weight cache is the weight. *)
Definition terms_live (st : state) : Prop :=
  ∀ o terms l, (o, terms) ∈ log_probs (self st) → l ∈ terms →
    is_Some (heap st !! l).

Definition prob_cache_ok (st : state) : Prop :=
  ∀ shape ordinal dice_prob,
    _prob_cache (self st) !! (shape, ordinal) = Some dice_prob →
    weight (heap st) (self st) shape ordinal = Ok dice_prob.

Definition dice_inv (st : state) : Prop :=
  cache_ok st ∧ terms_live st ∧ prob_cache_ok st.

(** What a method may do to the state: allocate, and add cache entries. *)
Definition extends (st st' : state) : Prop :=
  (∃ k, heap st' = heap st ++ k) ∧
  log_denom (self st') = log_denom (self st) ∧
  log_probs (self st') = log_probs (self st) ∧
  _log_factors_cache (self st) ⊆ _log_factors_cache (self st') ∧
  _prob_cache (self st) ⊆ _prob_cache (self st').

(** *** The masked term, in the spec's words

    When the weight is a tensor with an entry that is not positive, weight
    and cost are broadcast to their common shape, the positions with a
    positive weight are kept, and the products at those positions are summed;
    otherwise all the products are summed. *)
Definition has_nonpositive (p : tensor F) : bool :=
  existsb (λ e, negb (is_pos (val e))) (data p).

Definition positive_entries (p cost : tensor F) (s : list nat)
  : list (dual F * dual F) :=
  filter (λ pc, is_pos (val pc.1) = true) (zip (expand p s) (expand cost s)).

Definition masked_term (prob : pyobj) (cost : tensor F) : outcome (tensor F) :=
  match prob with
  | Num x => Ok (tsum (tmap (dmul (of_num x)) cost))
  | Tens p =>
      if has_nonpositive p then
        s ← of_option RuntimeError (broadcast_shapes (shape cost) (shape p));
        let keep := positive_entries p cost s in
        Ok (tsum (Tensor [length keep] ((λ pc, dmul pc.1 pc.2) <$> keep)))
      else tsum <$> tmul p cost
  end.

(** The two branches of [compute_expectation] with the masked term at every
    ordinal and cost term: the [else] branch weighs the sum of an ordinal's
    cost terms by the weight of the ordinal, the [use_einsum] branch weighs
    each cost term by the sum-product of the ordinal's row of
    [factors_table]. *)
Definition claimed_direct (h : list pyobj) (d : dice) (expected_cost : pyobj)
    (item : ordinal * list (tensor F)) : outcome pyobj :=
  cost ← py_sum item.2;
  match cost with
  | Num _ => Raise AttributeError
  | Tens cost =>
      prob ← weight h d (shape cost) item.1;
      term ← masked_term prob cost;
      py_add expected_cost (Tens term)
  end.

Definition claimed_einsum (factors_table : gmap (gset Frame) (list pyobj))
    (expected_cost : pyobj) (item : ordinal * list (tensor F))
  : outcome pyobj :=
  fold_outcome
    (λ expected_cost cost,
       prob ← sumproduct (default [] (factors_table !! item.1)) (shape cost);
       term ← masked_term prob cost;
       py_add expected_cost (Tens term))
    item.2 expected_cost.

End with_scalar.

Arguments pyobj F : clear implicits.
Arguments dice F : clear implicits.
Arguments state F : clear implicits.

End Dice.

(** ** The module-level helpers *)

Module Util.
Section with_scalar.
Context {F : Type} `{Scalar F}.

(** [detach_iterable]: the argument is a tensor or an iterable of tensors;
    for an iterable the result is a list. *)
Inductive iterable :=
  | One (t : tensor F)
  | Many (ts : list (tensor F)).

Definition detach_iterable (it : iterable) : iterable :=
  match it with
  | One t => One (tdetach t)
  | Many ts => Many (tdetach <$> ts)
  end.

Definition tensors_of (it : iterable) : list (tensor F) :=
  match it with
  | One t => [t]
  | Many ts => ts
  end.

(** [zero_grads].  A parameter is an object with a shape and an attribute
    [grad] that is None or refers to a tensor; [new_zeros] makes a new
    tensor, and the assignment rebinds [p.grad]. *)
Definition loc := nat.

Record param := Param {
  pshape : list nat;
  grad : option loc;
}.

Record state := State {
  heap : list (tensor F);
  params : list param;
}.

Definition zeros (s : list nat) : tensor F :=
  Tensor s (replicate (numel s) dzero).

Definition zero_grad (p : loc) : py state unit :=
  λ s,
    match params s !! p with
    | None => (Raise SystemError, s)
    | Some x =>
        match grad x with
        | None => (Ok tt, s)
        | Some _ =>
            (Ok tt,
             State (heap s ++ [zeros (pshape x)])
               (<[p := Param (pshape x) (Some (length (heap s)))]> (params s)))
        end
    end.

Definition zero_grads (tensors : list loc) : py state unit :=
  for_each tensors zero_grad.

End with_scalar.

Arguments iterable F : clear implicits.
Arguments state F : clear implicits.

(** [get_iarange_stacks].  Modelled from the spec: [site_is_subsample] is not
    under [src/]; a site carries the boolean it returns.  [trace.nodes.items()]
    is the list of the sites in order, and the dict comprehension assigns key
    by key. *)
Record node := Node {
  type : string;
  cond_indep_stack : list Frame;
  is_subsample : bool;
}.

Definition get_iarange_stacks (trace : list (string * node))
  : list (string * list Frame) :=
  foldl (λ stacks '(name, node),
           if String.eqb (type node) "sample" && negb (is_subsample node)
           then dict_set stacks name
                  (filter (λ f, vectorized f = true) (cond_indep_stack node))
           else stacks)
        [] trace.

End Util.

(** * Concrete inputs

    Accumulators, traces and cost tables on the integer instance and on the
    instance with infinities, on which the statements below are evaluated. *)

Module Examples.

Definition const_tensor (s : list nat) (l : list Z) : tensor Z :=
  Tensor s (of_num <$> l).

Definition frame_a : Frame := mkFrame "a" (-1) 3 true.
Definition frame_b : Frame := mkFrame "b" (-2) 1 true.
Definition frame_c : Frame := mkFrame "c" 0 3 true.
Definition frame_n : Frame := mkFrame "n" 0 5 false.

(** ** Accumulators *)

(** One tensor of shape (1, 3), added under the keys {a} and {b}. *)
Definition row : tensor Z := const_tensor [1; 3] [1; 2; 3]%Z.
Definition shared_items : list (list Frame * nat) :=
  [([frame_a], 0); ([frame_b], 0)].
Definition shared_state : MultiFrameTensor.state Z :=
  (MultiFrameTensor.__init__ shared_items [row]).2.
Definition shared_entries : list (gset Frame * tensor Z) :=
  [({[frame_a]}, row); ({[frame_b]}, row)].

(** The same two entries holding two tensors. *)
Definition distinct_items : list (list Frame * nat) :=
  [([frame_a], 0); ([frame_b], 1)].
Definition distinct_state : MultiFrameTensor.state Z :=
  (MultiFrameTensor.__init__ distinct_items [row; row]).2.

(** A tensor of shape (0, 3) under the key {e}, whose axis has extent zero. *)
Definition frame_e : Frame := mkFrame "e" (-2) 0 true.
Definition empty_rows : tensor Z := const_tensor [0; 3] [].
Definition empty_axis_items : list (list Frame * nat) := [([frame_e], 0)].
Definition empty_axis_state : MultiFrameTensor.state Z :=
  (MultiFrameTensor.__init__ empty_axis_items [empty_rows]).2.
Definition empty_axis_entries : list (gset Frame * tensor Z) :=
  [({[frame_e]}, empty_rows)].

(** Two tensors of shapes (2,) and (3,) added under the key {a}; a third item
    whose frame has a non-negative [dim]. *)
Definition clash_heap : list (tensor Z) :=
  [const_tensor [2] [1; 2]%Z; const_tensor [3] [1; 2; 3]%Z].
Definition clash_items : list (list Frame * nat) :=
  [([frame_a], 0); ([frame_a], 1)].
Definition late_items : list (list Frame * nat) :=
  clash_items ++ [([frame_c], 0)].

(** One tensor of shape (1, 3) under the key {b}. *)
Definition leading_items : list (list Frame * nat) := [([frame_b], 0)].
Definition leading_state : MultiFrameTensor.state Z :=
  (MultiFrameTensor.__init__ leading_items [row]).2.

(** One tensor of shape (1, 3) under the key {a}; two of them. *)
Definition single_items : list (list Frame * nat) := [([frame_a], 0)].
Definition single_state : MultiFrameTensor.state Z :=
  (MultiFrameTensor.__init__ single_items [row]).2.
Definition double_items : list (list Frame * nat) :=
  [([frame_a], 0); ([frame_a], 1)].

(** ** Traces *)

Definition ordinal_A : ordinal := ∅.
Definition ordinal_B : ordinal := {[frame_a]}.
Definition ordering_z : gmap string ordinal := {[ "z" := ordinal_A ]}.

(** A scalar score-function term of value 1 and derivative 1, one of value 0,
    and the number zero. *)
Definition trace_heap : list (Dice.pyobj Z) :=
  [Dice.Tens (Tensor [] [Dual 1 1]%Z);
   Dice.Tens (Tensor [] [Dual 0 1]%Z);
   Dice.Num 0%Z].

Definition site_parallel : Dice.site :=
  Dice.Site "sample" 0 {[ "enumerate" := Dice.PyStr "parallel" ]}.
Definition site_certain : Dice.site :=
  Dice.Site "sample" 1 {[ "enumerate" := Dice.PyStr "parallel" ]}.
Definition site_disabled : Dice.site :=
  Dice.Site "sample" 0 {[ "enumerate" := Dice.PyBool false ]}.
Definition site_sampled : Dice.site := Dice.Site "sample" 0 ∅.
Definition site_sequential : Dice.site :=
  Dice.Site "sample" 0
    {[ "enumerate" := Dice.PyStr "sequential"; "_enum_total" := Dice.PyInt 4 ]}.
Definition site_no_total : Dice.site :=
  Dice.Site "sample" 0 {[ "enumerate" := Dice.PyStr "sequential" ]}.
Definition site_param : Dice.site := Dice.Site "param" 0 ∅.
Definition site_zero : Dice.site := Dice.Site "sample" 2 ∅.

Definition empty_state : Dice.state Z :=
  Dice.State trace_heap (Dice.MkDice [] [] ∅ ∅).

Definition parallel_state : Dice.state Z :=
  (Dice.__init__ [("z", site_parallel)] ordering_z trace_heap).2.

Definition sequential_state : Dice.state Z :=
  (Dice.__init__ [("z", site_sequential)] {[ "z" := ordinal_B ]} trace_heap).2.

(** A trace with a site that is not a sample site. *)
Definition mixed_trace : list (string * Dice.site) :=
  [("z", site_sequential); ("p", site_param)].

(** Costs at the ordinals A and B, where A is upstream of B. *)
Definition costs_AB : list (ordinal * list (tensor Z)) :=
  [(ordinal_A, [const_tensor [] [3]%Z]); (ordinal_B, [const_tensor [] [5]%Z])].

(** A cost dict with an empty list, and a cost of shape (2,). *)
Definition costs_empty_B : list (ordinal * list (tensor Z)) :=
  [(ordinal_A, [const_tensor [] [3]%Z]); (ordinal_B, [])].
Definition cost_34 : tensor Z := const_tensor [2] [3; 4]%Z.

(** A trace of three sites for [get_iarange_stacks], and two parameters, one
    of them with a gradient. *)
Definition nodes_xyz : list (string * Util.node) :=
  [("x", Util.Node "sample" [frame_n; frame_a] false);
   ("y", Util.Node "sample" [frame_b] true);
   ("w", Util.Node "param" [] false)].

Definition params_state : Util.state Z :=
  Util.State [const_tensor [2] [5; 7]%Z]
    [Util.Param [2] (Some 0); Util.Param [3] None].

(** The values an expectation holds. *)
Definition values (r : outcome (Dice.pyobj Z)) : option (list Z) :=
  match r with
  | Ok (Dice.Tens t) => Some (val <$> data t)
  | Ok (Dice.Num x) => Some [x]
  | Raise _ => None
  end.

(** A weight with one entry equal to zero, and a cost. *)
Definition weight_20 : tensor Z := const_tensor [2] [2; 0]%Z.
Definition cost_10_20 : tensor Z := const_tensor [2] [10; 20]%Z.

(** A trace with a sequentially enumerated site, a Monte-Carlo sampled site
    and a site that is not a sample site, all at the ordinal A. *)
Definition ordering_zy : gmap string ordinal :=
  {[ "z" := ordinal_A; "y" := ordinal_A ]}.

Definition sampled_trace : list (string * Dice.site) :=
  [("z", site_sequential); ("y", site_sampled); ("p", site_param)].

(** On the instance with infinities: a scalar score-function term of value
    minus infinity, the log-probability of an impossible value; and a term
    with two branches, the second one impossible, with costs 10 and 20. *)
Definition impossible_heap : list (Dice.pyobj xfloat) :=
  [Dice.Tens (Tensor [] [Dual NInf (Fin 1)])].

Definition branches_heap : list (Dice.pyobj xfloat) :=
  [Dice.Tens (Tensor [2] [Dual (Fin 1) (Fin 1); Dual NInf NaN])].

Definition branches_state : Dice.state xfloat :=
  (Dice.__init__ [("z", site_parallel)] ordering_z branches_heap).2.

Definition branches_costs (c : Z) : list (ordinal * list (tensor xfloat)) :=
  [(ordinal_A, [Tensor [2] [Dual (Fin 10) (Fin 0); Dual (Fin c) (Fin 0)]])].

End Examples.

(** * Facts about the tensor operations *)

Section tensor_facts.
Context {F : Type} `{Scalar F}.

Lemma broadcast_rev_diag (r : list nat) : broadcast_rev r r = Some r.
Proof.
  induction r as [|a r IH]; [done|].
  cbn. rewrite IH. cbn. by rewrite Nat.eqb_refl.
Qed.

Lemma broadcast_shapes_diag (s : list nat) : broadcast_shapes s s = Some s.
Proof.
  unfold broadcast_shapes. rewrite broadcast_rev_diag. cbn.
  by rewrite reverse_involutive.
Qed.

Lemma ravel_unravel (s : list nat) (i : nat) :
  i < numel s → ravel s (unravel s i) = i.
Proof.
  revert i. induction s as [|n s IH]; intros i Hi.
  - cbn in *. lia.
  - change (numel (n :: s)) with (n * numel s) in Hi. cbn [unravel ravel].
    assert (numel s ≠ 0) as Hm by (intros E; rewrite E in Hi; lia).
    rewrite IH by (by apply Nat.mod_upper_bound).
    destruct (n =? 1) eqn:En.
    + apply Nat.eqb_eq in En. subst n.
      rewrite Nat.mod_small by lia. lia.
    + pose proof (Nat.div_mod_eq i (numel s)). lia.
Qed.

Lemma pad_shape_id (s : list nat) : pad_shape (length s) s = s.
Proof. unfold pad_shape. by rewrite Nat.sub_diag. Qed.

Lemma lookup_seq_tabulate (l : list (dual F)) :
  (λ i, default dzero (l !! i)) <$> seq 0 (length l) = l.
Proof.
  apply list_eq. intros i. rewrite list_lookup_fmap.
  destruct (decide (i < length l)) as [Hi|Hi].
  - rewrite lookup_seq_lt by done. cbn.
    destruct (lookup_lt_is_Some_2 l i Hi) as [x Hx]. by rewrite Hx.
  - rewrite lookup_seq_ge by lia. cbn. symmetry. apply lookup_ge_None. lia.
Qed.

Lemma expand_id (t : tensor F) : tensor_wf t → expand t (shape t) = data t.
Proof.
  intros Hwf. unfold expand. rewrite pad_shape_id.
  rewrite <- Hwf. etrans; [|apply lookup_seq_tabulate].
  apply list_fmap_ext. intros i x Hx.
  apply lookup_seq in Hx as [-> Hlt]. rewrite ravel_unravel; [done|].
  by rewrite <- Hwf.
Qed.

Lemma tmap2_same_shape (f : dual F → dual F → dual F) (a b : tensor F) :
  tensor_wf a → tensor_wf b → shape a = shape b →
  tmap2 f a b = Ok (Tensor (shape a) (zip_with f (data a) (data b))).
Proof.
  intros Ha Hb Hs. unfold tmap2. rewrite <- Hs, broadcast_shapes_diag. cbn.
  rewrite expand_id by done. rewrite Hs at 2. rewrite expand_id by done. done.
Qed.

End tensor_facts.
(** * Facts about dictionaries *)

Section dict_facts.
Context {K V : Type} `{EqDecision K}.
Implicit Types (d : list (K * V)).

Lemma dict_get_set d k v k' :
  dict_get (dict_set d k v) k' = if decide (k = k') then Some v else dict_get d k'.
Proof.
  induction d as [|[k0 v0] d IH]; cbn.
  - by destruct (decide (k = k')).
  - destruct (decide (k0 = k)) as [->|Hne]; cbn.
    + by destruct (decide (k = k')).
    + destruct (decide (k0 = k')) as [->|Hne']; [|done].
      by rewrite decide_False by done.
Qed.

Lemma dict_set_fresh d k v : dict_get d k = None → dict_set d k v = d ++ [(k, v)].
Proof.
  induction d as [|[k0 v0] d IH]; cbn; [done|].
  destruct (decide (k0 = k)); [done|]. intros Hd. by rewrite IH.
Qed.
End dict_facts.

(** * Facts about MultiFrameTensor *)

Module MultiFrameTensorFacts.
Import MultiFrameTensor.
Section with_scalar.
Context {F : Type} `{Scalar F}.
Implicit Types (st : state F) (h : list (tensor F)).

Lemma tadd_raises (a b : tensor F) e : tadd a b = Raise e → e = RuntimeError.
Proof.
  unfold tadd, tmap2. destruct (broadcast_shapes _ _); cbn; [done|].
  by intros [= <-].
Qed.

Lemma addresses_axis_all (v : tensor F) (stack : list Frame) :
  forallb (addresses_axis v) (elements (frames_of stack)) = true ↔
  Forall (λ f, vectorized f = true →
            (dim f < 0)%Z ∧ (- dim f ≤ Z.of_nat (length (shape v)))%Z) stack.
Proof.
  assert (∀ f, addresses_axis v f = true ↔
            (dim f < 0)%Z ∧ (- dim f ≤ Z.of_nat (length (shape v)))%Z) as Haddr.
  { intros f. unfold addresses_axis. rewrite andb_true_iff, Z.ltb_lt, Z.leb_le. lia. }
  assert (∀ f, In f (elements (frames_of stack)) ↔ vectorized f = true ∧ f ∈ stack)
    as Hmem.
  { intros f. unfold frames_of.
    by rewrite <- list_elem_of_In, elem_of_elements, elem_of_list_to_set,
      list_elem_of_filter. }
  rewrite forallb_forall, Forall_forall.
  split; intros Hall f.
  - intros Hin Hvec. apply Haddr, Hall, Hmem. done.
  - intros [Hvec Hin]%Hmem. apply Haddr. by apply Hall.
Qed.

(** One turn of the loop of [add], for a live reference. *)
Lemma add_item_eq stack value st v :
  heap st !! value = Some v →
  add_item (stack, value) st =
    if forallb (addresses_axis v) (elements (frames_of stack)) then
      match dict_get (mft st) (frames_of stack) with
      | Some old =>
          match heap st !! old with
          | Some o =>
              match tadd o v with
              | Ok r => (Ok tt, State (heap st ++ [r])
                           (dict_set (mft st) (frames_of stack) (length (heap st))))
              | Raise e => (Raise e, st)
              end
          | None => (Raise SystemError, st)
          end
      | None => (Ok tt, State (heap st) (dict_set (mft st) (frames_of stack) value))
      end
    else (Raise AssertionError, st).
Proof.
  intros Hv. unfold add_item.
  unfold mbind, py_bind, mret, py_ret, lift, raise, deref, alloc, get_self, set_self.
  cbn. rewrite Hv. cbn.
  destruct (forallb _ _); [|done].
  destruct (dict_get _ _) as [old|]; [|done].
  destruct (heap st !! old) as [o|]; [|done]. cbn.
  by destruct (tadd o v).
Qed.


Lemma item_ok_grow h k item :
  is_Some (h !! item.2) → item_ok (h ++ k) item ↔ item_ok h item.
Proof.
  intros [v Hv]. unfold item_ok.
  rewrite (lookup_app_l_Some _ _ _ _ Hv), Hv. done.
Qed.

Lemma items_live_grow h k items : items_live h items → items_live (h ++ k) items.
Proof.
  unfold items_live. intros Hall. eapply Forall_impl; [exact Hall|].
  intros item [v Hv]. exists v. by apply lookup_app_l_Some.
Qed.

Lemma add_item_run stack value st :
  dict_live st → is_Some (heap st !! value) →
  ∃ r st', add_item (stack, value) st = (r, st') ∧
    (∃ k, heap st' = heap st ++ k) ∧ dict_live st' ∧
    match r with
    | Ok _ | Raise RuntimeError => item_ok (heap st) (stack, value)
    | Raise AssertionError => ¬ item_ok (heap st) (stack, value)
    | Raise _ => False
    end.
Proof.
  intros Hlive [v Hv]. rewrite (add_item_eq _ _ _ v Hv).
  assert (∃ k, heap st = heap st ++ k) as Hnil by (exists []; by rewrite app_nil_r).
  destruct (forallb _ _) eqn:Hall.
  - apply addresses_axis_all in Hall.
    assert (item_ok (heap st) (stack, value)) as Hok by (by exists v).
    destruct (dict_get _ _) as [old|] eqn:Hget.
    + destruct (Hlive _ _ Hget) as [o Ho]. rewrite Ho.
      destruct (tadd o v) as [r|e] eqn:Hadd.
      * eexists _, _. split; [done|]. cbn. split; [eauto|]. split; [|done].
        intros frames l. cbn. rewrite dict_get_set. case_decide.
        -- intros [= <-]. rewrite lookup_app_r, Nat.sub_diag by lia. by eexists.
        -- intros Hl. destruct (Hlive _ _ Hl) as [x Hx]. exists x.
           by apply lookup_app_l_Some.
      * apply tadd_raises in Hadd as ->. eexists _, _. split; [done|]. eauto.
    + eexists _, _. split; [done|]. cbn. split; [done|]. split; [|done].
      intros frames l. cbn. rewrite dict_get_set. case_decide.
      * intros [= <-]. by exists v.
      * apply Hlive.
  - eexists _, _. split; [done|]. split; [done|]. split; [done|].
    intros (v' & Hv' & Hall'). cbn in Hv'. rewrite Hv in Hv'. injection Hv' as <-.
    apply (proj2 (addresses_axis_all v stack)) in Hall'. congruence.
Qed.

Lemma add_run items st :
  dict_live st → items_live (heap st) items →
  ∃ r st', add items st = (r, st') ∧
    (∃ k, heap st' = heap st ++ k) ∧ dict_live st' ∧
    match r with
    | Ok _ => Forall (item_ok (heap st)) items
    | Raise AssertionError => Exists (λ item, ¬ item_ok (heap st) item) items
    | Raise RuntimeError => True
    | Raise _ => False
    end.
Proof.
  revert st. induction items as [|[stack value] items IH]; intros st Hlive Hitems.
  - exists (Ok tt), st. repeat split; [|done|done]. exists []. by rewrite app_nil_r.
  - apply Forall_cons in Hitems as [Hval Hitems]. cbn in Hval.
    destruct (add_item_run stack value st Hlive Hval)
      as (r1 & st1 & Hrun1 & [k1 Hk1] & Hlive1 & Hr1).
    unfold add. cbn [for_each]. unfold mbind, py_bind. rewrite Hrun1.
    destruct r1 as [[]|e].
    + destruct (IH st1 Hlive1) as (r & st' & Hrun & [k Hk] & Hlive' & Hr).
      { rewrite Hk1. by apply items_live_grow. }
      fold (add items). rewrite Hrun. exists r, st'. split; [done|].
      split; [exists (k1 ++ k); by rewrite Hk, Hk1, app_assoc|]. split; [done|].
      assert (∀ item, item ∈ items →
                item_ok (heap st1) item ↔ item_ok (heap st) item) as Hiff.
      { intros item Hin. rewrite Hk1. apply item_ok_grow.
        by apply (proj1 (Forall_forall _ _) Hitems). }
      destruct r as [[]|[]]; try done.
      * constructor; [done|]. apply Forall_forall. intros item Hin.
        apply Hiff; [done|]. by apply (proj1 (Forall_forall _ _) Hr).
      * apply Exists_cons_tl. apply Exists_exists in Hr as (item & Hin & Hbad).
        apply Exists_exists. exists item. split; [done|]. by rewrite <- Hiff.
    + exists (Raise e), st1. split; [done|]. split; [eauto|]. split; [done|].
      destruct e; try done. by apply Exists_cons_hd.
Qed.


(** Claim C5, as amended.  [add] raises the precondition violation
    (AssertionError) only if some item has a vectorized frame whose [dim] does
    not address an axis of the item's tensor; when there is such an item [add]
    does fail, with the precondition violation or, before reaching the item,
    with the broadcasting error of adding onto a present key.  When every item
    meets the precondition, [add] returns or fails with that broadcasting
    error, and one turn of its loop stores the tensor under the frozenset of
    its vectorized frames when the key is new, and otherwise replaces the
    entry by the elementwise sum of the stored tensor and the new one. *)
Theorem add_spec items st :
  dict_live st → items_live (heap st) items →
  (∀ st', add items st = (Raise AssertionError, st') →
     Exists (λ item, ¬ item_ok (heap st) item) items) ∧
  (Exists (λ item, ¬ item_ok (heap st) item) items →
     ∃ e st', add items st = (Raise e, st') ∧
       (e = AssertionError ∨ e = RuntimeError)) ∧
  (Forall (item_ok (heap st)) items →
     ∃ r st', add items st = (r, st') ∧ (r = Ok tt ∨ r = Raise RuntimeError)) ∧
  (∀ stack value, item_ok (heap st) (stack, value) →
     match dict_get (mft st) (frames_of stack) with
     | None =>
         add_item (stack, value) st =
           (Ok tt, State (heap st) (mft st ++ [(frames_of stack, value)]))
     | Some old =>
         ∃ o v, heap st !! old = Some o ∧ heap st !! value = Some v ∧
           add_item (stack, value) st =
             match tadd o v with
             | Ok r =>
                 (Ok tt, State (heap st ++ [r])
                    (dict_set (mft st) (frames_of stack) (length (heap st))))
             | Raise _ => (Raise RuntimeError, st)
             end
     end).
Proof.
  intros Hlive Hitems.
  destruct (add_run items st Hlive Hitems) as (r & st1 & Hrun & _ & _ & Hr).
  assert (¬ (Forall (item_ok (heap st)) items ∧
             Exists (λ item, ¬ item_ok (heap st) item) items)) as Hexcl.
  { intros [Hall (item & Hin & Hbad)%Exists_exists].
    apply Hbad. by apply (proj1 (Forall_forall _ _) Hall). }
  repeat split.
  - intros st'. rewrite Hrun. by intros [= -> ->].
  - intros Hbad. destruct r as [[]|e]; [by destruct Hexcl|].
    exists e, st1. split; [done|]. destruct e; tauto.
  - intros Hall. exists r, st1. split; [done|].
    destruct r as [[]|[]]; tauto.
  - intros stack value (v & Hv & Hall). cbn in Hv, Hall.
    rewrite (add_item_eq _ _ _ v Hv).
    rewrite (proj2 (addresses_axis_all v stack) Hall).
    destruct (dict_get _ _) as [old|] eqn:Hget.
    + destruct (Hlive _ _ Hget) as [o Ho]. exists o, v. rewrite Ho.
      split; [done|]. split; [done|].
      destruct (tadd o v) eqn:Hadd; [done|]. by apply tadd_raises in Hadd as ->.
    + by rewrite dict_set_fresh.
Qed.

Lemma reduce_frames_in_target (target : gset Frame) value fs st :
  Forall (λ f, f ∈ target) fs → reduce_frames target value fs st = (Ok value, st).
Proof.
  induction 1 as [|f fs Hf _ IH]; [done|].
  cbn [reduce_frames]. unfold mbind, py_bind, reduce_frame.
  rewrite decide_True by done. cbn. apply IH.
Qed.

(** What [add] leaves when every item has the key [K]: one entry, whose
    tensor is the sum of the items' tensors. *)
Lemma add_tensor_eq h total stack value v :
  h !! value = Some v →
  add_tensor h total (stack, value) =
    match total with
    | None => Ok (Some v)
    | Some o => Some <$> tadd o v
    end.
Proof. intros Hv. unfold add_tensor. cbn [snd]. by rewrite Hv. Qed.

Lemma add_same_key h K items st total :
  Forall (λ item, frames_of item.1 = K) items →
  items_live h items →
  (∃ k, heap st = h ++ k) →
  match total with
  | None => mft st = []
  | Some t => ∃ l, mft st = [(K, l)] ∧ heap st !! l = Some t
  end →
  ∀ st', add items st = (Ok tt, st') →
  ∃ total',
    fold_outcome (add_tensor h) items total = Ok total' ∧
    match total' with
    | None => items = []
    | Some t => ∃ l, mft st' = [(K, l)] ∧ heap st' !! l = Some t
    end.
Proof.
  intros Hkey Hitems. revert st total.
  induction Hkey as [|[stack value] items Hk _ IH]; intros st total [k Hheap] Hst st'.
  - intros [= <-]. exists total. split; [done|]. by destruct total.
  - apply Forall_cons in Hitems as [[v Hv] Hitems]. cbn [fst snd] in Hk, Hv.
    unfold add. cbn [for_each fold_outcome]. unfold mbind at 1, py_bind at 1.
    assert (heap st !! value = Some v) as Hv'
      by (rewrite Hheap; by apply lookup_app_l_Some).
    rewrite (add_item_eq _ _ _ v Hv'). rewrite Hk.
    rewrite (add_tensor_eq _ _ _ _ v Hv).
    destruct (forallb _ _); [|done].
    destruct total as [t|].
    + destruct Hst as (l & Hmft & Hl). rewrite Hmft. cbn [dict_get].
      rewrite decide_True by done. rewrite Hl.
      destruct (tadd t v) as [r|e]; [|done]. cbn [fmap outcome_fmap].
      unfold mbind, outcome_bind at 1.
      intros Hrest. apply (IH Hitems _ (Some r)) in Hrest.
      * destruct Hrest as ([t'|] & Hfold & Ht'); [|by destruct items].
        exists (Some t'). done.
      * cbn. rewrite Hheap, <- app_assoc. eauto.
      * cbn. rewrite decide_True by done. eexists. split; [done|].
        by rewrite lookup_app_r, Nat.sub_diag by lia.
    + rewrite Hst. cbn [dict_get dict_set].
      unfold mbind, outcome_bind at 1.
      intros Hrest. apply (IH Hitems _ (Some v)) in Hrest.
      * destruct Hrest as ([t'|] & Hfold & Ht'); [|by destruct items].
        exists (Some t'). done.
      * cbn. eauto.
      * cbn. eauto.
Qed.

(** Claim C7, as amended.  For an accumulator built from a non-empty list of
    items that all have the key [K], [sum_to K] returns the sum of the added
    tensors with its leading axes of extent one stripped: no axis is summed,
    the entries are those of the sum. *)
Theorem sum_to_same_key h items K st :
  items ≠ [] →
  Forall (λ item, frames_of item.1 = K) items →
  items_live h items →
  __init__ items h = (Ok tt, st) →
  ∃ total l st',
    added_sum h items = Ok (Some total) ∧
    sum_to K st = (Ok (Some l), st') ∧
    heap st' !! l = Some (squeeze_leading total).
Proof.
  intros Hne Hkey Hlive Hinit. unfold __init__ in Hinit.
  destruct (add_same_key h K items (State h []) None Hkey Hlive) with (st' := st)
    as (total' & Hsum & Hst); [by exists []; rewrite app_nil_r|done|done|].
  destruct total' as [total|]; [|done].
  destruct Hst as (l & Hmft & Hl).
  exists total, l. eexists. split; [done|].
  unfold sum_to. unfold mbind at 1, py_bind at 1, get_self at 1. rewrite Hmft.
  cbn [sum_to_items sum_to_item]. unfold mbind at 1, py_bind at 1.
  unfold mbind at 1, py_bind at 1.
  rewrite reduce_frames_in_target; cycle 1.
  { apply Forall_forall. intros f. by rewrite elem_of_elements. }
  unfold squeeze_, deref, store, mbind, py_bind, mret, py_ret. rewrite Hl. cbn.
  split; [done|]. apply list_lookup_insert_eq. by eapply lookup_lt_Some.
Qed.

(** *** [sum_to] *)

Lemma state_eta st : State (heap st) (mft st) = st.
Proof. by destruct st. Qed.

Lemma reduce_frame_run (target : gset Frame) value f st t :
  heap st !! value = Some t →
  match reduce_spec target t f with
  | Ok t' =>
      ∃ value' k,
        reduce_frame target value f st =
          (Ok value', State (heap st ++ k) (mft st)) ∧
        (heap st ++ k) !! value' = Some t' ∧
        (value' = value ∨ length (heap st) ≤ value')
  | Raise e =>
      ∃ k, reduce_frame target value f st =
             (Raise e, State (heap st ++ k) (mft st))
  end.
Proof.
  intros Hv. unfold reduce_spec, reduce_frame.
  destruct (decide (f ∈ target)) as [Hin|Hnin].
  { exists value, []. rewrite app_nil_r, state_eta. eauto. }
  unfold mbind, py_bind, outcome_bind, deref, lift, alloc, mret, py_ret.
  rewrite Hv. cbn [of_option].
  destruct (py_index (shape t) (dim f)) as [n|]; cbn [of_option];
    [|exists []; by rewrite app_nil_r, state_eta].
  destruct (n =? 1).
  { exists value, []. rewrite app_nil_r, state_eta. eauto. }
  destruct (tsum_dim t (dim f)) as [r|e];
    [|exists []; by rewrite app_nil_r, state_eta].
  exists (length (heap st)), [r]. cbn. split; [done|].
  rewrite lookup_app_r, Nat.sub_diag by lia. split; [done|]. right. lia.
Qed.

Lemma reduce_frames_cons (target : gset Frame) value f fs st :
  reduce_frames target value (f :: fs) st =
    match reduce_frame target value f st with
    | (Ok value', st') => reduce_frames target value' fs st'
    | (Raise e, st') => (Raise e, st')
    end.
Proof. done. Qed.

Lemma fold_outcome_cons {A B} (body : B → A → outcome B) x xs acc :
  fold_outcome body (x :: xs) acc =
    match body acc x with
    | Ok acc' => fold_outcome body xs acc'
    | Raise e => Raise e
    end.
Proof. done. Qed.

Lemma reduce_frames_run (target : gset Frame) fs value st t :
  heap st !! value = Some t →
  match fold_outcome (reduce_spec target) fs t with
  | Ok t' =>
      ∃ value' k,
        reduce_frames target value fs st =
          (Ok value', State (heap st ++ k) (mft st)) ∧
        (heap st ++ k) !! value' = Some t' ∧
        (value' = value ∨ length (heap st) ≤ value')
  | Raise e =>
      ∃ k, reduce_frames target value fs st =
             (Raise e, State (heap st ++ k) (mft st))
  end.
Proof.
  revert value st t. induction fs as [|f fs IH]; intros value st t Hv.
  { cbn. exists value, []. rewrite app_nil_r, state_eta. eauto. }
  rewrite fold_outcome_cons, reduce_frames_cons.
  pose proof (reduce_frame_run target value f st t Hv) as Hstep.
  destruct (reduce_spec target t f) as [t1|e].
  - destruct Hstep as (v1 & k1 & -> & Hv1 & Hfresh1).
    specialize (IH v1 (State (heap st ++ k1) (mft st)) t1 Hv1). cbn [heap mft] in IH.
    destruct (fold_outcome _ fs t1) as [t'|e].
    + destruct IH as (v' & k & -> & Hv' & Hfresh).
      exists v', (k1 ++ k). rewrite app_assoc. split; [done|]. split; [done|].
      rewrite length_app in Hfresh. destruct Hfresh as [->|?]; [done|right; lia].
    + destruct IH as (k & ->). exists (k1 ++ k). by rewrite app_assoc.
  - destruct Hstep as (k1 & ->). eauto.
Qed.


Lemma sum_to_items_cons (target : gset Frame) total item items st :
  sum_to_items target total (item :: items) st =
    match sum_to_item target total item st with
    | (Ok total', st') => sum_to_items target total' items st'
    | (Raise e, st') => (Raise e, st')
    end.
Proof. done. Qed.

Lemma sum_to_item_eq (target : gset Frame) total frames value st :
  sum_to_item target total (frames, value) st =
    match reduce_frames target value (elements frames) st with
    | (Ok value', st1) =>
        match heap st1 !! value' with
        | Some v =>
            let st2 := State (<[value' := squeeze_leading v]> (heap st1)) (mft st1) in
            match total with
            | None => (Ok (Some value'), st2)
            | Some tot =>
                match heap st2 !! tot with
                | Some a =>
                    match heap st2 !! value' with
                    | Some b =>
                        match tadd a b with
                        | Ok r =>
                            (Ok (Some (length (heap st2))),
                             State (heap st2 ++ [r]) (mft st2))
                        | Raise e => (Raise e, st2)
                        end
                    | None => (Raise SystemError, st2)
                    end
                | None => (Raise SystemError, st2)
                end
            end
        | None => (Raise SystemError, st1)
        end
    | (Raise e, st1) => (Raise e, st1)
    end.
Proof.
  unfold sum_to_item. unfold mbind at 1, py_bind at 1.
  destruct (reduce_frames _ _ _ _) as [[value'|e] st1]; [|done].
  unfold squeeze_, mbind, py_bind, deref, store, mret, py_ret, lift, alloc.
  destruct (heap st1 !! value') as [v|]; cbn; [|done].
  destruct total as [tot|]; cbn; [|done].
  destruct (<[value':=squeeze_leading v]> (heap st1) !! tot) as [a|]; cbn; [|done].
  destruct (<[value':=squeeze_leading v]> (heap st1) !! value') as [b|]; cbn; [|done].
  by destruct (tadd a b).
Qed.

Lemma add_entry_eq reduce total frames (t0 : tensor F) :
  add_entry reduce total (frames, t0) =
    match fold_outcome reduce (elements frames) t0 with
    | Ok t1 =>
        match total with
        | None => Ok (Some (squeeze_leading t1))
        | Some t => Some <$> tadd t (squeeze_leading t1)
        end
    | Raise e => Raise e
    end.
Proof.
  unfold add_entry, entry_spec. cbn [fst snd].
  by destruct (fold_outcome _ _ _).
Qed.

(** The loop of [sum_to], when the remaining items refer to pairwise distinct
    tensors and the running total to yet another one. *)
Lemma sum_to_items_run (target : gset Frame) items entries st total_loc total :
  Forall2 (λ item entry, item.1 = entry.1 ∧ heap st !! item.2 = Some entry.2)
          items entries →
  NoDup items.*2 →
  match total_loc, total with
  | None, None => True
  | Some l, Some t => heap st !! l = Some t ∧ l ∉ items.*2
  | _, _ => False
  end →
  ∃ st',
    match fold_outcome (add_entry (reduce_spec target)) entries total with
    | Ok None => sum_to_items target total_loc items st = (Ok None, st')
    | Ok (Some t) =>
        ∃ l, sum_to_items target total_loc items st = (Ok (Some l), st') ∧
             heap st' !! l = Some t
    | Raise e => sum_to_items target total_loc items st = (Raise e, st')
    end.
Proof.
  revert entries st total_loc total.
  induction items as [|[frames value] items IH];
    intros entries st total_loc total Hall Hnodup Htotal.
  { apply Forall2_nil_inv_l in Hall as ->.
    exists st. cbn. destruct total_loc as [l|], total as [t|]; try done.
    exists l. by destruct Htotal. }
  apply Forall2_cons_inv_l in Hall as ([frames' t0] & entries' & [Hkey Hval] & Hrest & ->).
  cbn [fst snd] in Hkey, Hval. subst frames'.
  rewrite fmap_cons in Hnodup, Htotal. cbn [snd] in Hnodup, Htotal.
  apply NoDup_cons in Hnodup as [Hfresh Hnodup].
  rewrite fold_outcome_cons, sum_to_items_cons, sum_to_item_eq, add_entry_eq.
  pose proof (reduce_frames_run target (elements frames) value st t0 Hval) as Hred.
  destruct (fold_outcome (reduce_spec target) (elements frames) t0) as [t1|e];
    [|destruct Hred as (k & ->); eauto].
  destruct Hred as (v1 & k & -> & Hv1 & Hv1fresh). cbn [heap mft]. rewrite Hv1.
  (* the tensors the rest of the loop will read are untouched *)
  assert (∀ l x, heap st !! l = Some x → l ≠ value →
            <[v1 := squeeze_leading t1]> (heap st ++ k) !! l = Some x) as Hkeep.
  { intros l x Hl Hne. rewrite list_lookup_insert_ne.
    - by apply lookup_app_l_Some.
    - apply lookup_lt_Some in Hl. destruct Hv1fresh as [->|?]; [done|lia]. }
  assert (∀ l, l ∈ items.*2 → l < length (heap st)) as Hbound.
  { intros l ((frames1 & l1) & -> & Hin)%list_elem_of_fmap.
    apply list_elem_of_lookup in Hin as [i Hi].
    destruct (Forall2_lookup_l _ _ _ _ _ Hrest Hi) as (entry & _ & _ & Hl).
    by apply lookup_lt_Some in Hl. }
  assert (v1 ∉ items.*2) as Hv1rest.
  { destruct Hv1fresh as [->|Hge]; [done|]. intros Hin%Hbound. lia. }
  assert (<[v1 := squeeze_leading t1]> (heap st ++ k) !! v1 = Some (squeeze_leading t1))
    as Hv1'.
  { apply list_lookup_insert_eq. by eapply lookup_lt_Some. }
  assert (Forall2 (λ item entry, item.1 = entry.1 ∧
            <[v1 := squeeze_leading t1]> (heap st ++ k) !! item.2 = Some entry.2)
            items entries') as Hrest'.
  { apply Forall2_same_length_lookup. split; [by eapply Forall2_length|].
    intros i [frames1 l1] entry Hi Hentry.
    destruct (Forall2_lookup_lr _ _ _ _ _ _ Hrest Hi Hentry) as [Hk1 Hl1].
    split; [done|]. apply Hkeep; [done|]. cbn. intros ->. apply Hfresh.
    apply list_elem_of_fmap. exists (frames1, value). split; [done|].
    by eapply list_elem_of_lookup_2. }
  destruct total_loc as [tot|], total as [t|]; try done.
  - destruct Htotal as [Htot Htotfresh].
    apply not_elem_of_cons in Htotfresh as [Hne Htotfresh].
    cbn [heap mft]. rewrite (Hkeep tot t Htot Hne), Hv1'.
    destruct (tadd t (squeeze_leading t1)) as [r|e]; cbn [fmap outcome_fmap];
      [|eauto].
    apply (IH entries' _ (Some _) (Some r)); [|done|].
    + cbn [heap]. eapply Forall2_impl; [exact Hrest'|].
      intros item entry [? ?]. split; [done|]. by apply lookup_app_l_Some.
    + cbn [heap]. rewrite lookup_app_r, Nat.sub_diag by lia. split; [done|].
      intros Hin%Hbound. rewrite length_insert, length_app in Hin. lia.
  - apply (IH entries' _ (Some v1) (Some (squeeze_leading t1))); [done|done|].
    cbn [heap]. done.
Qed.

(** Claim C4, as amended.  For an accumulator whose entries refer to pairwise
    distinct tensors and for every target, [sum_to] sums each stored tensor
    along the axis of each frame of its key that is not in the target when
    that axis has an extent other than one (an extent of zero included),
    strips the leading axes of extent one, and returns the sum of the results;
    it raises where an axis is missing or the results do not broadcast.  For
    an accumulator with no entries it returns None. *)
Theorem sum_to_correct (target : gset Frame) st entries :
  holds st entries → NoDup (mft st).*2 →
  (mft st = [] → sum_to target st = (Ok None, st)) ∧
  ∃ st',
    match sum_to_spec target entries with
    | Ok None => sum_to target st = (Ok None, st')
    | Ok (Some t) =>
        ∃ l, sum_to target st = (Ok (Some l), st') ∧ heap st' !! l = Some t
    | Raise e => sum_to target st = (Raise e, st')
    end.
Proof.
  intros Hholds Hnodup. unfold sum_to, sum_to_spec, sum_with.
  unfold mbind, py_bind, get_self. split.
  - by intros ->.
  - by apply sum_to_items_run.
Qed.

End with_scalar.

Import Examples.

(** Claim C4 fails as stated.  A tensor of shape (0, 3) is stored under the
    key {e}, with [e.dim = -2], and the target is empty.  The axis of [e] has
    extent zero, which is not greater than one, so by the claim the tensor is
    left as it is; the code tests [value.shape[f.dim] != 1], sums along the
    axis and returns a tensor of shape (3,). *)
Lemma sum_to_sums_empty_axis :
  holds empty_axis_state empty_axis_entries ∧
  NoDup (mft empty_axis_state).*2 ∧
  sum_to_claimed ∅ empty_axis_entries = Ok (Some empty_rows) ∧
  ∃ l st',
    sum_to ∅ empty_axis_state = (Ok (Some l), st') ∧
    heap st' !! l = Some (const_tensor [3] [0; 0; 0]%Z) ∧
    const_tensor [3] [0; 0; 0]%Z ≠ empty_rows.
Proof.
  split; [by repeat constructor|]. split; [apply NoDup_singleton|].
  split; [vm_compute; reflexivity|].
  eexists _, _. split; [vm_compute; reflexivity|]. split; [reflexivity|].
  discriminate.
Qed.

Lemma sum_to_correct_witness :
  holds distinct_state shared_entries ∧ NoDup (mft distinct_state).*2 ∧
  ∃ st' l,
    sum_to {[frame_a]} distinct_state = (Ok (Some l), st') ∧
    heap st' !! l = Some (const_tensor [3] [2; 4; 6]%Z).
Proof.
  assert (holds distinct_state shared_entries) as Hholds
    by (by repeat constructor).
  assert (NoDup (mft distinct_state).*2) as Hnodup.
  { apply (NoDup_cons_2 0 [1]); [|apply NoDup_singleton].
    by intros ?%list_elem_of_singleton. }
  split; [exact Hholds|]. split; [exact Hnodup|].
  destruct (sum_to_correct {[frame_a]} distinct_state shared_entries
              Hholds Hnodup) as [_ [st' Hrun]].
  change (sum_to_spec {[frame_a]} shared_entries)
    with (Ok (Some (const_tensor [3] [2; 4; 6]%Z)) : outcome _) in Hrun.
  destruct Hrun as (l & Hrun & Hl). exists st', l.
  split; [exact Hrun|exact Hl].
Defined.

(** The in-place [squeeze_] shows when two keys hold one tensor: a tensor of
    shape (1, 3) is stored under the keys {a} and {b}, with [a.dim = -1] and
    [b.dim = -2], and the target is {a}.  On tensor values neither entry is
    reduced (for {b} the axis has extent one), both lose their leading axis
    and the sum is twice the tensor.  The code squeezes the tensor while
    handling {a}, and [value.shape[-2]] raises IndexError when it comes to
    {b}. *)
Example sum_to_shared_tensor_raises :
  __init__ shared_items [row] = (Ok tt, shared_state) ∧
  holds shared_state shared_entries ∧
  sum_to_spec {[frame_a]} shared_entries =
    Ok (Some (const_tensor [3] [2; 4; 6]%Z)) ∧
  (sum_to {[frame_a]} shared_state).1 = Raise IndexError.
Proof.
  split; [vm_compute; reflexivity|]. split; [by repeat constructor|].
  split; vm_compute; reflexivity.
Qed.

(** It shows again when [sum_to] is called twice: a tensor of shape (1, 3) is
    stored under the key {b}, which [add] accepts; [sum_to] with the target
    {b} leaves it with the shape (3,), where [b.dim = -2] addresses no axis,
    and a second [sum_to] with the empty target raises IndexError. *)
Example sum_to_twice_raises :
  __init__ leading_items [row] = (Ok tt, leading_state) ∧
  item_ok (heap leading_state) ([frame_b], 0) ∧
  ∃ st',
    sum_to {[frame_b]} leading_state = (Ok (Some 0), st') ∧
    ¬ item_ok (heap st') ([frame_b], 0) ∧
    (sum_to ∅ st').1 = Raise IndexError.
Proof.
  split; [vm_compute; reflexivity|]. split.
  { eexists. split; [reflexivity|]. repeat constructor; cbn; lia. }
  eexists. split; [vm_compute; reflexivity|]. split; [|vm_compute; reflexivity].
  intros (v & Hv & Hall). cbn in Hv. injection Hv as <-.
  apply Forall_cons in Hall as [Hdim _]. destruct (Hdim eq_refl) as [_ Hrank].
  cbn in Hrank. lia.
Qed.

(** Claim C5 fails as stated.  Two tensors of shapes (2,) and (3,) added under
    one key meet the precondition on frames, and [add] raises the
    broadcasting error; with a further item that violates the precondition
    [add] still raises the broadcasting error, not the precondition
    violation. *)
Lemma add_fails_on_shapes :
  Forall (item_ok clash_heap) clash_items ∧
  (add clash_items (State clash_heap [])).1 = Raise RuntimeError ∧
  Exists (λ item, ¬ item_ok clash_heap item) late_items ∧
  (add late_items (State clash_heap [])).1 = Raise RuntimeError.
Proof.
  split; [|split; [done|split; [|done]]].
  - repeat constructor; eexists; (split; [done|]); repeat constructor; cbn; lia.
  - unfold late_items. apply Exists_app. right. apply Exists_cons_hd.
    intros (v & _ & Hall). apply Forall_cons in Hall as [Hdim _].
    destruct (Hdim eq_refl) as [Hneg _]. done.
Qed.

Lemma add_spec_witness :
  dict_live (State [row] []) ∧ items_live [row] single_items ∧
  Forall (item_ok [row]) single_items ∧
  ∃ r st', add single_items (State [row] []) = (r, st') ∧
    (r = Ok tt ∨ r = Raise RuntimeError).
Proof.
  assert (dict_live (State [row] [])) as Hdict by (intros frames l; done).
  assert (items_live [row] single_items) as Hlive
    by (repeat constructor; by eexists).
  assert (Forall (item_ok [row]) single_items) as Hok.
  { repeat constructor; eexists; (split; [done|]); repeat constructor; cbn; lia. }
  split; [done|]. split; [done|]. split; [done|].
  exact (proj1 (proj2 (proj2 (add_spec single_items (State [row] []) Hdict Hlive)))
           Hok).
Defined.

(** Claim C7 fails as stated.  A tensor of shape (1, 3) is added under the key
    {a}; [sum_to] of that key returns a tensor of shape (3,), which is not the
    sum of the added tensors. *)
Lemma sum_to_strips_unit_axis :
  Forall (λ item, frames_of item.1 = {[frame_a]}) single_items ∧
  __init__ single_items [row] = (Ok tt, single_state) ∧
  added_sum [row] single_items = Ok (Some row) ∧
  ∃ l st',
    sum_to {[frame_a]} single_state = (Ok (Some l), st') ∧
    heap st' !! l = Some (const_tensor [3] [1; 2; 3]%Z) ∧
    const_tensor [3] [1; 2; 3]%Z ≠ row.
Proof.
  split; [by repeat constructor|]. split; [done|]. split; [done|].
  eexists _, _. split; [vm_compute; reflexivity|]. split; [done|]. done.
Qed.

Lemma sum_to_same_key_witness :
  ∃ total l st',
    added_sum [row; row] double_items = Ok (Some total) ∧
    sum_to {[frame_a]} (__init__ double_items [row; row]).2 =
      (Ok (Some l), st') ∧
    heap st' !! l = Some (squeeze_leading total).
Proof.
  apply (sum_to_same_key [row; row] double_items {[frame_a]}).
  - done.
  - by repeat constructor.
  - repeat constructor; by eexists.
  - vm_compute. reflexivity.
Defined.

End MultiFrameTensorFacts.
(** * Facts about Dice *)

Module DiceFacts.
Import Dice.
Section with_scalar.
Context {F : Type} `{Scalar F}.
Implicit Types (st : state F) (d : dice F).

Ltac py_unfold :=
  unfold mbind, py_bind, mret, py_ret, lift, raise, deref, alloc, get_self,
    set_self; cbn.

Lemma denominator_filter d T :
  denominator d T = sum_list (not_upstream_denominators d T).
Proof.
  unfold denominator, sum_list, not_upstream_denominators.
  generalize (zero : F). induction (log_denom d) as [|[o x] l IH]; intros z; [done|].
  cbn [foldl]. rewrite filter_cons. cbn. destruct (decide (o ⊆ T)) as [Ho|Ho].
  - rewrite decide_False by (intros Hn; by apply Hn). apply IH.
  - rewrite decide_True by done. cbn. apply IH.
Qed.

Lemma upstream_filter d T pre :
  upstream d T pre = pre ++ upstream_terms d T.
Proof.
  unfold upstream, upstream_terms.
  revert pre. induction (log_probs d) as [|[o x] l IH]; intros pre.
  - cbn. by rewrite app_nil_r.
  - cbn [foldl]. rewrite filter_cons. cbn. destruct (decide (o ⊆ T)) as [Ho|Ho].
    + rewrite IH. cbn. by rewrite app_assoc.
    + apply IH.
Qed.

Lemma log_factors_spec_grow h k d T l :
  log_factors_spec h d T l → log_factors_spec (h ++ k) d T l.
Proof.
  unfold log_factors_spec. intros (pre & -> & Hpre). exists pre. split; [done|].
  destruct (is_zero _); [done|]. destruct Hpre as (ℓ & -> & Hℓ).
  exists ℓ. split; [done|]. by apply lookup_app_l_Some.
Qed.

Lemma log_factors_spec_zero h d T :
  is_zero (sum_list (not_upstream_denominators d T)) = true →
  log_factors_spec h d T (upstream_terms d T).
Proof. intros Hz. exists []. unfold sum_list in *. by rewrite Hz. Qed.

Lemma log_factors_spec_nonzero h d T l :
  is_zero (sum_list (not_upstream_denominators d T)) = false →
  h !! l = Some (Num (neg (sum_list (not_upstream_denominators d T)))) →
  log_factors_spec h d T (l :: upstream_terms d T).
Proof.
  intros Hz Hl. exists [l]. unfold sum_list in *. rewrite Hz. eauto.
Qed.

Lemma cache_ok_insert h h' d T l :
  cache_ok (State h d) →
  (∀ T' l', log_factors_spec h d T' l' → log_factors_spec h' d T' l') →
  log_factors_spec h' d T l →
  cache_ok (State h' (cache_log_factors d T l)).
Proof.
  intros Hok Hmono Hnew T' l'. cbn. rewrite lookup_insert. case_decide as HT.
  - intros [= <-]. by subst T'.
  - intros HT'. apply Hmono. by apply (Hok T' l').
Qed.

Lemma get_log_factors_run st T :
  cache_ok st →
  ∃ l st', _get_log_factors T st = (Ok l, st') ∧
    log_factors_spec (heap st') (self st) T l ∧
    log_denom (self st') = log_denom (self st) ∧
    log_probs (self st') = log_probs (self st) ∧
    _prob_cache (self st') = _prob_cache (self st) ∧
    (∃ k, heap st' = heap st ++ k) ∧
    cache_ok st'.
Proof.
  intros Hok. unfold _get_log_factors.
  unfold mbind, py_bind, mret, py_ret, get_self, set_self, alloc.
  cbn -[denominator upstream].
  destruct (_log_factors_cache (self st) !! T) as [l|] eqn:Hc.
  - exists l, st. repeat split; eauto. exists []. by rewrite app_nil_r.
  - rewrite denominator_filter. destruct st as [h d]. cbn in *.
    destruct (is_zero (sum_list _)) eqn:Hz; cbn -[upstream];
      rewrite upstream_filter; eexists _, _; (split; [done|]); cbn.
    + repeat split; [by apply log_factors_spec_zero| |].
      * exists []. by rewrite app_nil_r.
      * eapply cache_ok_insert; [exact Hok|done|]. by apply log_factors_spec_zero.
    + assert (log_factors_spec (h ++ [Num (neg (sum_list (not_upstream_denominators d T)))]) d T
                (length h :: upstream_terms d T)) as Hnew.
      { apply log_factors_spec_nonzero; [done|].
        by rewrite lookup_app_r, Nat.sub_diag by lia. }
      repeat split; eauto.
      eapply cache_ok_insert; [exact Hok| |done].
      intros. by apply log_factors_spec_grow.
Qed.


(** *** The constructor *)

Lemma init_site_not_sample ordering name s st :
  type s ≠ "sample" → init_site ordering (name, s) st = (Ok tt, st).
Proof.
  intros Hty. unfold init_site.
  destruct (String.eqb_spec (type s) "sample"); [done|]. done.
Qed.

Lemma init_site_sample ordering name s st lp :
  type s = "sample" → heap st !! score_function s = Some lp →
  init_site ordering (name, s) st =
    if is_identically_zero lp then (Ok tt, st)
    else match ordering !! name with
    | None => (Raise KeyError, st)
    | Some o =>
        if default false (truthy <$> infer s !! "enumerate") then
          if decide (infer s !! "enumerate" = Some (PyStr "sequential")) then
            match infer s !! "_enum_total" with
            | None => (Raise KeyError, st)
            | Some total =>
                match math_log total with
                | Raise e => (Raise e, st)
                | Ok x =>
                    (Ok tt, State (heap st)
                       (probs_append (denom_add (self st) o x) o
                          (score_function s)))
                end
            end
          else (Ok tt, State (heap st)
                  (probs_append (self st) o (score_function s)))
        else
          match minus_detached lp with
          | Raise e => (Raise e, st)
          | Ok r => (Ok tt, State (heap st ++ [r])
                       (probs_append (self st) o (length (heap st))))
          end
    end.
Proof.
  intros Hty Hlp. unfold init_site. rewrite Hty. py_unfold. rewrite Hlp. cbn.
  destruct (is_identically_zero lp); [done|].
  destruct (ordering !! name) as [o|]; [|done]. cbn.
  destruct (default false _).
  - destruct (decide _); [|done].
    destruct (infer s !! "_enum_total") as [total|]; [|done]. cbn.
    by destruct (math_log total).
  - by destruct (minus_detached lp).
Qed.


Lemma init_site_dangling ordering name s st :
  type s = "sample" → heap st !! score_function s = None →
  init_site ordering (name, s) st = (Raise SystemError, st).
Proof.
  intros Hty Hlp. unfold init_site. rewrite Hty. py_unfold. by rewrite Hlp.
Qed.

(** The constructor only appends to the heap and never touches the caches. *)
Lemma init_site_frame ordering node st r st' :
  init_site ordering node st = (r, st') →
  (∃ k, heap st' = heap st ++ k) ∧
  _log_factors_cache (self st') = _log_factors_cache (self st) ∧
  _prob_cache (self st') = _prob_cache (self st).
Proof.
  destruct node as [name s].
  assert (∀ h : list (pyobj F), ∃ k, h = h ++ k) as Hnil
    by (intros h; exists []; by rewrite app_nil_r).
  destruct (decide (type s = "sample")) as [Hty|Hty];
    [|rewrite init_site_not_sample by done; intros [= <- <-]; eauto].
  destruct (heap st !! score_function s) as [lp|] eqn:Hlp;
    [|rewrite init_site_dangling by done; intros [= <- <-]; eauto].
  rewrite (init_site_sample _ _ _ _ lp) by done.
  repeat case_match; intros [= <- <-]; cbn; eauto.
Qed.

Lemma init_run_frame ordering trace st r st' :
  for_each trace (init_site ordering) st = (r, st') →
  (∃ k, heap st' = heap st ++ k) ∧
  _log_factors_cache (self st') = _log_factors_cache (self st) ∧
  _prob_cache (self st') = _prob_cache (self st).
Proof.
  revert st. induction trace as [|node trace IH]; intros st; cbn [for_each].
  - intros [= <- <-]. split; [|done]. exists []. by rewrite app_nil_r.
  - unfold mbind, py_bind.
    destruct (init_site ordering node st) as [[[]|e] st1] eqn:Hnode;
      apply init_site_frame in Hnode as ([k1 Hk1] & Hc1 & Hp1).
    + intros Hrest. apply IH in Hrest as ([k2 Hk2] & Hc2 & Hp2).
      split; [|by rewrite Hc2, Hp2]. exists (k1 ++ k2).
      by rewrite Hk2, Hk1, app_assoc.
    + intros [= <- <-]. eauto.
Qed.

Lemma init_cache_ok trace ordering h r st :
  __init__ trace ordering h = (r, st) → cache_ok st.
Proof.
  unfold __init__. intros Hrun. apply init_run_frame in Hrun as (_ & Hc & _).
  intros T l. rewrite Hc. cbn. by rewrite lookup_empty.
Qed.

Lemma init_run_missing_enum_total trace ordering st name s lp :
  (name, s) ∈ trace →
  type s = "sample" →
  heap st !! score_function s = Some lp →
  is_identically_zero lp = false →
  infer s !! "enumerate" = Some (PyStr "sequential") →
  infer s !! "_enum_total" = None →
  ∃ e st', for_each trace (init_site ordering) st = (Raise e, st').
Proof.
  intros Hin Hty Hlp Hnz Henum Htot. revert st Hlp.
  induction trace as [|node trace IH]; intros st Hlp;
    [by apply elem_of_nil in Hin|].
  cbn [for_each]. unfold mbind, py_bind.
  apply elem_of_cons in Hin as [<-|Hin].
  - rewrite (init_site_sample _ _ _ _ lp) by done. rewrite Hnz.
    destruct (ordering !! name); [|eauto].
    rewrite Henum. cbn. rewrite decide_True by done. rewrite Htot. eauto.
  - destruct (init_site ordering node st) as [[[]|e] st1] eqn:Hnode; [|eauto].
    apply init_site_frame in Hnode as ([k Hk] & _). apply IH; [done|].
    rewrite Hk. by apply lookup_app_l_Some.
Qed.

(** Claim C9.  If the trace has a sample site whose score-function term is
    not identically zero and whose [infer] dict has [enumerate] equal to
    "sequential" and no [_enum_total], the constructor raises instead of
    returning an object. *)
Theorem init_missing_enum_total trace ordering h name s lp :
  (name, s) ∈ trace →
  type s = "sample" →
  h !! score_function s = Some lp →
  is_identically_zero lp = false →
  infer s !! "enumerate" = Some (PyStr "sequential") →
  infer s !! "_enum_total" = None →
  ∃ e st, __init__ trace ordering h = (Raise e, st).
Proof.
  intros. unfold __init__. by eapply init_run_missing_enum_total.
Qed.

Lemma exp_all_run st ls os :
  Forall2 (λ l o, heap st !! l = Some o) ls os →
  exp_all ls st = (Ok (torch_exp <$> os), st).
Proof.
  induction 1 as [|l o ls os Hl _ IH]; [done|].
  cbn [exp_all]. unfold mbind, py_bind, deref. rewrite Hl. cbn.
  by rewrite IH.
Qed.

Lemma in_context_miss st sh o :
  _prob_cache (self st) !! (strip_leading_ones sh, o) = None →
  in_context sh o st =
    match _get_log_factors o st with
    | (Ok log_factors, st1) =>
        match exp_all log_factors st1 with
        | (Ok factors, st2) =>
            match sumproduct factors (strip_leading_ones sh) with
            | Ok dice_prob =>
                (Ok dice_prob,
                 State (heap st2)
                   (cache_prob (self st2) (strip_leading_ones sh) o dice_prob))
            | Raise e => (Raise e, st2)
            end
        | (Raise e, st2) => (Raise e, st2)
        end
    | (Raise e, st1) => (Raise e, st1)
    end.
Proof.
  intros Hmiss. unfold in_context.
  unfold mbind at 1, py_bind at 1, get_self at 1. rewrite Hmiss.
  unfold mbind at 1, py_bind at 1.
  destruct (_get_log_factors o st) as [[lfs|e] st1]; [|done].
  unfold mbind at 1, py_bind at 1.
  destruct (exp_all lfs st1) as [[fs|e] st2]; [|done].
  unfold mbind at 1, py_bind at 1, lift at 1.
  by destruct (sumproduct fs (strip_leading_ones sh)).
Qed.


(** *** The memo table on reachable states *)

Lemma fold_py_preserves {S A B} (P : S → Prop) (body : B → A → py S B) xs acc s r s' :
  (∀ b a s r s', P s → body b a s = (r, s') → P s') →
  P s → fold_py body xs acc s = (r, s') → P s'.
Proof.
  intros Hbody. revert acc s. induction xs as [|x xs IH]; intros acc s Hs.
  - by intros [= <- <-].
  - cbn [fold_py]. unfold mbind, py_bind.
    destruct (body acc x s) as [[b|e] s1] eqn:Hx.
    + apply IH. by eapply Hbody.
    + intros [= <- <-]. by eapply Hbody.
Qed.

Lemma exp_all_state ls st r st' : exp_all ls st = (r, st') → st' = st.
Proof.
  revert r. induction ls as [|l ls IH]; intros r; cbn [exp_all].
  - by intros [= <- <-].
  - unfold mbind, py_bind, deref, mret, py_ret.
    destruct (heap st !! l); cbn; [|by intros [= <- <-]].
    destruct (exp_all ls st) as [[fs|e] st1] eqn:Hls;
      intros [= <- <-]; by eapply IH.
Qed.

Lemma get_log_factors_cache_ok T st r st' :
  cache_ok st → _get_log_factors T st = (r, st') → cache_ok st'.
Proof.
  intros Hok Hrun.
  destruct (get_log_factors_run st T Hok) as (l & st1 & Hrun1 & _ & _ & _ & _ & _ & Hok1).
  rewrite Hrun in Hrun1. by injection Hrun1 as -> ->.
Qed.

Lemma in_context_cache_ok sh o st r st' :
  cache_ok st → in_context sh o st = (r, st') → cache_ok st'.
Proof.
  intros Hok. unfold in_context.
  unfold mbind at 1, py_bind at 1, get_self at 1.
  destruct (_prob_cache (self st) !! _); [by intros [= <- <-]|].
  unfold mbind at 1, py_bind at 1.
  destruct (_get_log_factors o st) as [[lfs|e] st1] eqn:Hget;
    apply get_log_factors_cache_ok in Hget; try done; [|by intros [= <- <-]].
  unfold mbind at 1, py_bind at 1.
  destruct (exp_all lfs st1) as [[fs|e] st2] eqn:Hexp;
    apply exp_all_state in Hexp as ->; [|by intros [= <- <-]].
  unfold mbind, py_bind, lift, get_self, set_self, mret, py_ret.
  destruct (sumproduct fs _); intros [= <- <-]; [|done].
  intros T l. cbn. apply Hget.
Qed.

Lemma exp_factor_state o tables l st r st' :
  exp_factor o tables l st = (r, st') → st' = st.
Proof.
  unfold exp_factor. destruct tables as [exp_table factors_table].
  destruct (exp_table !! l); [by intros [= <- <-]|].
  unfold mbind, py_bind, deref, mret, py_ret.
  destruct (heap st !! l); cbn; by intros [= <- <-].
Qed.

Lemma compute_expectation_cache_ok costs use_einsum st r st' :
  cache_ok st → compute_expectation costs use_einsum st = (r, st') → cache_ok st'.
Proof.
  intros Hok. unfold compute_expectation. destruct use_einsum.
  - unfold mbind, py_bind.
    destruct (fold_py exp_ordinal _ _ st) as [[tables|e] st1] eqn:Hfold.
    + unfold lift. intros [= <- <-]. revert Hfold. apply fold_py_preserves; [|done].
      intros tables' o s r' s' Hs. unfold exp_ordinal, mbind, py_bind.
      destruct (_get_log_factors o s) as [[lfs|e] s1] eqn:Hget;
        apply get_log_factors_cache_ok in Hget; try done; [|by intros [= <- <-]].
      apply fold_py_preserves; [|done].
      intros ????? Hs1 ->%exp_factor_state. done.
    + intros [= <- <-]. revert Hfold. apply fold_py_preserves; [|done].
      intros tables' o s r' s' Hs. unfold exp_ordinal, mbind, py_bind.
      destruct (_get_log_factors o s) as [[lfs|e'] s1] eqn:Hget;
        apply get_log_factors_cache_ok in Hget; try done; [|by intros [= <- <-]].
      apply fold_py_preserves; [|done].
      intros ????? Hs1 ->%exp_factor_state. done.
  - apply fold_py_preserves; [|done].
    intros acc [o cost_terms] s r' s' Hs. unfold direct_ordinal.
    unfold mbind at 1, py_bind at 1, lift at 1.
    destruct (py_sum cost_terms) as [[x|cost]|e]; try by intros [= <- <-].
    unfold mbind, py_bind.
    destruct (in_context (shape cost) o s) as [[prob|e] s1] eqn:Hin;
      apply in_context_cache_ok in Hin; try done; [|by intros [= <- <-]].
    unfold lift. by intros [= <- <-].
Qed.

Lemma reachable_cache_ok st : reachable st → cache_ok st.
Proof.
  induction 1 as [trace ordering h st Hinit| | |].
  - by eapply init_cache_ok.
  - by eapply get_log_factors_cache_ok.
  - by eapply in_context_cache_ok.
  - by eapply compute_expectation_cache_ok.
Qed.

(** Claim C2.  On every state a Dice object can reach, [_get_log_factors T]
    returns: one leading factor, the
    negation of the sum of the log-denominators stored for the ordinals that
    are not included in [T], present only when that sum is not zero; then the
    log-weight terms stored for the ordinals included in [T], concatenated. *)
Theorem get_log_factors_correct st T :
  reachable st →
  ∃ log_factors st',
    _get_log_factors T st = (Ok log_factors, st') ∧
    let s := sum_list (not_upstream_denominators (self st) T) in
    ∃ leading,
      log_factors = leading ++ upstream_terms (self st) T ∧
      if is_zero s then leading = []
      else ∃ l, leading = [l] ∧ heap st' !! l = Some (Num (neg s)).
Proof.
  intros Hok%reachable_cache_ok.
  destruct (get_log_factors_run st T Hok) as (l & st' & Hrun & Hspec & _).
  by exists l, st'.
Qed.

Lemma elem_of_upstream_terms d T o terms l :
  (o, terms) ∈ log_probs d → o ⊆ T → l ∈ terms → l ∈ upstream_terms d T.
Proof.
  intros Hin Ho Hl. unfold upstream_terms. apply list_elem_of_join.
  exists terms. split; [done|]. apply list_elem_of_fmap.
  exists (o, terms). split; [done|]. by apply list_elem_of_filter.
Qed.

(** Claim C6.  On every state a Dice object can reach and for [A ⊆ B], every
    log-weight term stored for an ordinal
    included in [A] is among the factors returned for [A] and among those
    returned for [B]. *)
Theorem log_factors_monotone st A B :
  reachable st → A ⊆ B →
  ∃ lA stA lB stB,
    _get_log_factors A st = (Ok lA, stA) ∧
    _get_log_factors B stA = (Ok lB, stB) ∧
    ∀ o terms l, (o, terms) ∈ log_probs (self st) → o ⊆ A → l ∈ terms →
      l ∈ lA ∧ l ∈ lB.
Proof.
  intros Hok%reachable_cache_ok HAB.
  destruct (get_log_factors_run st A Hok)
    as (lA & stA & HA & (pA & -> & _) & _ & HpA & _ & _ & HokA).
  destruct (get_log_factors_run stA B HokA)
    as (lB & stB & HB & (pB & -> & _) & _).
  eexists _, stA, _, stB. split; [done|]. split; [done|].
  intros o terms l Hin Ho Hl. split; apply elem_of_app; right.
  - by eapply elem_of_upstream_terms.
  - eapply elem_of_upstream_terms; [by rewrite HpA| |done]. set_solver.
Qed.

(** *** The [use_einsum] branch *)

Lemma get_log_factors_miss st T :
  _log_factors_cache (self st) !! T = None →
  _get_log_factors T st =
    let s := sum_list (not_upstream_denominators (self st) T) in
    if is_zero s then
      (Ok (upstream_terms (self st) T),
       State (heap st) (cache_log_factors (self st) T (upstream_terms (self st) T)))
    else
      (Ok (length (heap st) :: upstream_terms (self st) T),
       State (heap st ++ [Num (neg s)])
         (cache_log_factors (self st) T (length (heap st) :: upstream_terms (self st) T))).
Proof.
  intros Hmiss. unfold _get_log_factors.
  unfold mbind, py_bind, mret, py_ret, get_self, set_self, alloc.
  cbn -[denominator upstream]. rewrite Hmiss, denominator_filter.
  destruct (is_zero _); cbn -[upstream]; by rewrite upstream_filter.
Qed.

(** The first loop of the [use_einsum] branch skips a log-factor whose [id]
    is in [exp_table]: nothing is appended for the ordinal at hand. *)
Lemma exp_factor_seen o exp_table factors_table l f st :
  exp_table !! l = Some f →
  exp_factor o (exp_table, factors_table) l st = (Ok (exp_table, factors_table), st).
Proof. intros Hseen. unfold exp_factor. by rewrite Hseen. Qed.

Lemma exp_factor_new o (exp_table : gmap loc (pyobj F)) factors_table l lp st :
  exp_table !! l = None → heap st !! l = Some lp →
  exp_factor o (exp_table, factors_table) l st =
    (Ok (<[l := torch_exp lp]> exp_table,
         <[o := default [] (factors_table !! o) ++ [torch_exp lp]]> factors_table),
     st).
Proof.
  intros Hnew Hl. unfold exp_factor. rewrite Hnew.
  unfold mbind, py_bind, deref, mret, py_ret. by rewrite Hl.
Qed.

Lemma fold_py_cons {S A B} (body : B → A → py S B) x xs acc s :
  fold_py body (x :: xs) acc s =
    match body acc x s with
    | (Ok acc', s') => fold_py body xs acc' s'
    | (Raise e, s') => (Raise e, s')
    end.
Proof. done. Qed.

Lemma fold_py_nil {S A B} (body : B → A → py S B) acc s :
  fold_py body [] acc s = (Ok acc, s).
Proof. done. Qed.

Lemma exp_ordinal_eq tables o st :
  exp_ordinal tables o st =
    match _get_log_factors o st with
    | (Ok log_factors, st') => fold_py (exp_factor o) log_factors tables st'
    | (Raise e, st') => (Raise e, st')
    end.
Proof. done. Qed.

Lemma compute_expectation_einsum costs st :
  compute_expectation costs true st =
    match fold_py exp_ordinal (costs.*1) (∅, ∅) st with
    | (Ok tables, st') =>
        (fold_outcome (einsum_ordinal tables.2) costs (Num zero), st')
    | (Raise e, st') => (Raise e, st')
    end.
Proof.
  unfold compute_expectation, mbind, py_bind, lift.
  by destruct (fold_py _ _ _ _) as [[?|?] ?].
Qed.

(** With one log-weight term [l], stored for the ordinal [A], and costs at [A]
    and at a larger ordinal [B], the [use_einsum] branch weights the costs at
    [B] by the product of no factors, although the factor list of [B] is
    [l]. *)
Lemma einsum_drops_shared_factor `{!ScalarLaws F} h (A B : ordinal) l lp csA csB :
  A ⊆ B → A ≠ B → h !! l = Some lp →
  let st := State h (MkDice [] [(A, [l])] ∅ ∅) in
  ∃ st1 st2 st3,
    _get_log_factors B st = (Ok [l], st1) ∧
    compute_expectation [(A, csA); (B, csB)] true st =
      (fold_outcome (einsum_ordinal {[A := [torch_exp lp]]})
         [(A, csA); (B, csB)] (Num zero), st2) ∧
    ({[A := [torch_exp lp]]} : gmap ordinal (list (pyobj F))) !! B = None ∧
    in_context [] B st = (sumproduct [torch_exp lp] [], st3).
Proof.
  intros HAB Hne Hl st.
  assert (∀ T c pc, upstream_terms (MkDice [] [(A, [l])] c pc : dice F) T =
                 if decide (A ⊆ T) then [l] else []) as Hup.
  { intros T c pc. unfold upstream_terms. cbn [log_probs].
    destruct (decide (A ⊆ T)).
    - by rewrite filter_cons_True.
    - by rewrite filter_cons_False. }
  assert (∀ T c, _log_factors_cache c !! T = None → log_denom c = [] →
            log_probs c = [(A, [l])] → A ⊆ T →
            _get_log_factors T (State h c) = (Ok [l], State h (cache_log_factors c T [l])))
    as Hget.
  { intros T [ld lps c pc] Hmiss Hld Hlp HAT. cbn in Hmiss, Hld, Hlp. subst ld lps.
    rewrite get_log_factors_miss by done. cbn [self heap].
    unfold not_upstream_denominators. cbn [log_denom]. rewrite filter_nil.
    cbn [fmap list_fmap sum_list foldl]. unfold sum_list. cbn [foldl].
    rewrite is_zero_zero. rewrite Hup, decide_True by done. done. }
  subst st. eexists _, _.
  assert (∃ st3, in_context [] B (State h (MkDice [] [(A, [l])] ∅ ∅)) = (sumproduct [torch_exp lp] [], st3)) as [st3 Hctx].
  { rewrite in_context_miss by done. cbn [strip_leading_ones].
    rewrite Hget by done. rewrite (exp_all_run _ _ [lp]) by (by repeat constructor).
    cbn [fmap list_fmap]. destruct (sumproduct _ _); eauto. }
  exists st3. split; [by apply Hget|]. split; [|split; [|done]];
    [|by apply lookup_singleton_ne].
  rewrite compute_expectation_einsum. cbn [fmap list_fmap fst].
  rewrite fold_py_cons, exp_ordinal_eq, Hget by done.
  rewrite fold_py_cons, (exp_factor_new _ _ _ _ lp), fold_py_nil by done.
  rewrite fold_py_cons, exp_ordinal_eq.
  rewrite Hget; [|cbn; by rewrite lookup_insert_ne|done..].
  rewrite fold_py_cons.
  rewrite (exp_factor_seen _ _ _ _ (torch_exp lp)) by apply lookup_insert_eq.
  rewrite !fold_py_nil. cbn [snd]. rewrite lookup_empty. cbn [default app].
  done.
Qed.

(** *** Masking *)

Lemma length_expand (t : tensor F) (s : list nat) : length (expand t s) = numel s.
Proof. unfold expand. by rewrite length_fmap, length_seq. Qed.

Lemma masked_fmap {A B C} (f : A → B) (g : B → bool) (h : A → C) (l : list A) :
  masked (g <$> (f <$> l)) (h <$> l) = h <$> filter (λ x, g (f x) = true) l.
Proof.
  unfold masked. induction l as [|x l IH]; [done|].
  cbn [fmap list_fmap zip zip_with].
  destruct (decide (g (f x) = true)) as [Hg|Hg].
  - rewrite !filter_cons_True by done. cbn. f_equal. apply IH.
  - rewrite !filter_cons_False by done. apply IH.
Qed.

Lemma tmul_vectors (xs ys : list (dual F)) :
  length xs = length ys →
  tmul (Tensor [length xs] xs) (Tensor [length ys] ys) =
    Ok (Tensor [length xs] (zip_with dmul xs ys)).
Proof.
  intros Hlen. unfold tmul. rewrite tmap2_same_shape; [done| | |by rewrite Hlen].
  all: unfold tensor_wf; cbn; lia.
Qed.

(** When the weight is a tensor with an entry that is not positive, the
    five shared lines compute from the broadcast positions where the weight
    is positive and from no other. *)
Lemma masked_sum_nonpositive (p cost : tensor F) (s : list nat) :
  mask_all (positive_mask p) = false →
  broadcast_shapes (shape cost) (shape p) = Some s →
  let keep :=
    filter (λ pc, is_pos (val pc.1) = true) (zip (expand p s) (expand cost s)) in
  masked_sum (Tens p) cost =
    Ok (tsum (Tensor [length keep] ((λ pc, dmul pc.1 pc.2) <$> keep))).
Proof.
  intros Hmask Hs keep. unfold masked_sum. rewrite Hmask, Hs. cbn [of_option].
  unfold mbind, outcome_bind.
  set (l := zip (expand p s) (expand cost s)).
  assert (expand p s = l.*1) as Hp
    by (symmetry; apply fst_zip; rewrite !length_expand; lia).
  assert (expand cost s = l.*2) as Hc
    by (symmetry; apply snd_zip; rewrite !length_expand; lia).
  rewrite Hp, Hc.
  rewrite (masked_fmap fst (λ e, is_pos (val e)) fst l).
  rewrite (masked_fmap fst (λ e, is_pos (val e)) snd l).
  fold keep. rewrite tmul_vectors by (by rewrite !length_fmap).
  cbn [fmap outcome_fmap]. do 2 f_equal.
  rewrite length_fmap. f_equal.
  rewrite zip_with_fmap_l, zip_with_fmap_r, zip_with_diag. done.
Qed.

End with_scalar.

Import Examples.

(** Claim C1, at an input where the code departs from it.  The trace has one
    site, enumerated in parallel, at the ordinal A, with score-function term
    L; the cost table has a cost 3 at A and a cost 5 at B, with A ⊆ B.  The
    factor list of B is [L].  In the [use_einsum] branch L is exponentiated
    while A is handled, so at B [id(log_factor)] is found in [exp_table] and
    the factor is not appended to [factors_table[B]]: the cost at B is
    weighted by one.  On the integer instance, where [exp L] is 2, the branch
    returns 2 * 3 + 5 and the other branch 2 * 3 + 2 * 5. *)
Theorem compute_expectation_paths_differ :
  (_get_log_factors ordinal_B parallel_state).1 = Ok [0] ∧
  (tables ← (fold_py exp_ordinal (costs_AB.*1) (∅, ∅) parallel_state).1;
   Ok (tables.2 !! ordinal_B)) = Ok None ∧
  values (compute_expectation costs_AB true parallel_state).1 = Some [11%Z] ∧
  values (compute_expectation costs_AB false parallel_state).1 = Some [16%Z].
Proof. repeat split; vm_compute; reflexivity. Qed.

Lemma get_log_factors_correct_witness :
  reachable sequential_state ∧
  ∃ log_factors st',
    _get_log_factors ordinal_A sequential_state = (Ok log_factors, st') ∧
    ∃ leading,
      log_factors = leading ++ upstream_terms (self sequential_state) ordinal_A ∧
      ∃ l, leading = [l] ∧ heap st' !! l = Some (Num (-2)%Z).
Proof.
  assert (reachable sequential_state) as Hok.
  { apply (reachable_init [("z", site_sequential)] {[ "z" := ordinal_B ]}
             trace_heap). vm_compute. reflexivity. }
  split; [done|].
  exact (get_log_factors_correct sequential_state ordinal_A Hok).
Defined.

Lemma log_factors_monotone_witness :
  reachable parallel_state ∧ ordinal_A ⊆ ordinal_B ∧
  ∃ lA stA lB stB,
    _get_log_factors ordinal_A parallel_state = (Ok lA, stA) ∧
    _get_log_factors ordinal_B stA = (Ok lB, stB) ∧
    ∀ o terms l, (o, terms) ∈ log_probs (self parallel_state) →
      o ⊆ ordinal_A → l ∈ terms → l ∈ lA ∧ l ∈ lB.
Proof.
  assert (reachable parallel_state) as Hok.
  { apply (reachable_init [("z", site_parallel)] ordering_z trace_heap).
    vm_compute. reflexivity. }
  assert (ordinal_A ⊆ ordinal_B) as Hsub by apply empty_subseteq.
  split; [done|]. split; [done|].
  exact (log_factors_monotone parallel_state ordinal_A ordinal_B Hok Hsub).
Defined.

Lemma init_missing_enum_total_witness :
  ∃ e st, __init__ [("z", site_no_total)] ordering_z trace_heap = (Raise e, st).
Proof.
  apply (init_missing_enum_total [("z", site_no_total)] ordering_z trace_heap
           "z" site_no_total (Tens (Tensor [] [Dual 1 1]%Z))).
  - apply list_elem_of_singleton. reflexivity.
  - reflexivity.
  - reflexivity.
  - reflexivity.
  - reflexivity.
  - reflexivity.
Defined.



End DiceFacts.

(** * More about MultiFrameTensor *)

Module MultiFrameTensorMore.
Import MultiFrameTensor MultiFrameTensorFacts.
Section with_scalar.
Context {F : Type} `{Scalar F}.
Implicit Types (st : state F) (h : list (tensor F)).

(** ** [add] *)

Lemma for_each_app {S A} (body : A → py S unit) xs ys s :
  for_each (xs ++ ys) body s =
    match for_each xs body s with
    | (Ok _, s') => for_each ys body s'
    | (Raise e, s') => (Raise e, s')
    end.
Proof.
  revert s. induction xs as [|x xs IH]; intros s; [done|].
  cbn [app for_each]. unfold mbind, py_bind.
  destruct (body x s) as [[[]|e] s1]; [apply IH|done].
Qed.

(** Property X1.  Adding in bulk is adding one list after the other; when the first list
    raises, nothing of the second is looked at. *)
Theorem add_app items1 items2 st :
  add (items1 ++ items2) st =
    match add items1 st with
    | (Ok _, st') => add items2 st'
    | (Raise e, st') => (Raise e, st')
    end.
Proof. apply for_each_app. Qed.

Lemma frames_of_ext (stack1 stack2 : list Frame) :
  (∀ f, vectorized f = true → f ∈ stack1 ↔ f ∈ stack2) →
  frames_of stack1 = frames_of stack2.
Proof.
  intros Hext. unfold frames_of. apply set_eq. intros f.
  rewrite !elem_of_list_to_set, !list_elem_of_filter.
  split; intros [Hvec Hin]; (split; [done|]); by apply (Hext f Hvec).
Qed.

(** Property X2.  [add] looks at a stack only through its set of vectorized frames: frames
    that are not vectorized, the order of the frames and repetitions do not
    matter. *)
Theorem add_item_stack_ext stack1 stack2 value st :
  (∀ f, vectorized f = true → f ∈ stack1 ↔ f ∈ stack2) →
  add_item (stack1, value) st = add_item (stack2, value) st.
Proof.
  intros Hext. unfold add_item. by rewrite (frames_of_ext stack1 stack2 Hext).
Qed.

Lemma dict_set_keys {K V} `{EqDecision K} (d : list (K * V)) k v :
  (dict_set d k v).*1 =
    match dict_get d k with Some _ => d.*1 | None => d.*1 ++ [k] end.
Proof.
  induction d as [|[k' v'] d IH]; [done|]. cbn [dict_set dict_get].
  destruct (decide (k' = k)) as [->|Hne]; [done|].
  rewrite fmap_cons, IH. cbn [fst]. by destruct (dict_get d k).
Qed.

Lemma dict_get_None_keys {K V} `{EqDecision K} (d : list (K * V)) k :
  dict_get d k = None ↔ k ∉ d.*1.
Proof.
  induction d as [|[k' v'] d IH]; cbn [dict_get].
  - split; [intros _; apply not_elem_of_nil|done].
  - rewrite fmap_cons, not_elem_of_cons. cbn [fst].
    destruct (decide (k' = k)) as [->|Hne]; [by split; [|intros []]|].
    rewrite IH. split; [by intros ?; split|by intros []].
Qed.

Lemma dict_set_NoDup {K V} `{EqDecision K} (d : list (K * V)) k v :
  NoDup d.*1 → NoDup (dict_set d k v).*1.
Proof.
  intros Hnd. rewrite dict_set_keys. destruct (dict_get d k) eqn:Hget; [done|].
  apply NoDup_app. split; [done|]. split; [|apply NoDup_singleton].
  intros x Hx ->%list_elem_of_singleton. by apply dict_get_None_keys in Hget.
Qed.

(** Property X3.  After a turn of [add] that returns, the key of the item is in the dict:
    it refers to the caller's tensor itself when the key is new, and to a new
    tensor, the sum, when it was there.  The other keys keep their
    references, no key occurs twice, and the tensors that were in the heap
    are as they were. *)
Theorem add_item_lookup stack value st st' :
  add_item (stack, value) st = (Ok tt, st') →
  ∃ l v,
    heap st !! value = Some v ∧
    dict_get (mft st') (frames_of stack) = Some l ∧
    match dict_get (mft st) (frames_of stack) with
    | None => l = value ∧ heap st' = heap st
    | Some old =>
        ∃ o r, heap st !! old = Some o ∧ tadd o v = Ok r ∧
               l = length (heap st) ∧ heap st' = heap st ++ [r]
    end ∧
    (∀ frames, frames ≠ frames_of stack →
       dict_get (mft st') frames = dict_get (mft st) frames) ∧
    (NoDup (mft st).*1 → NoDup (mft st').*1).
Proof.
  unfold add_item, deref. unfold mbind at 1, py_bind at 1.
  destruct (heap st !! value) as [v|] eqn:Hv; [|done]. cbn [of_option].
  destruct (forallb _ _); [|done].
  unfold mbind at 1, py_bind at 1, get_self at 1.
  destruct (dict_get (mft st) (frames_of stack)) as [old|] eqn:Hget.
  - unfold deref. unfold mbind at 1, py_bind at 1.
    destruct (heap st !! old) as [o|] eqn:Ho; [|done]. cbn [of_option].
    unfold mbind, py_bind, lift, alloc, set_self.
    destruct (tadd o v) as [r|e] eqn:Hadd; [|done].
    intros [= <-]. cbn [mft heap]. exists (length (heap st)), v.
    split; [done|]. split; [by rewrite dict_get_set, decide_True|].
    split; [by exists o, r|]. split.
    + intros frames Hne. by rewrite dict_get_set, decide_False.
    + apply dict_set_NoDup.
  - unfold set_self. intros [= <-]. cbn [mft heap]. exists value, v.
    split; [done|]. split; [by rewrite dict_get_set, decide_True|].
    split; [done|]. split.
    + intros frames Hne. by rewrite dict_get_set, decide_False.
    + apply dict_set_NoDup.
Qed.

Lemma add_item_frame item st r st' :
  add_item item st = (r, st') →
  (∃ k, heap st' = heap st ++ k) ∧
  (∀ frames, is_Some (dict_get (mft st) frames) →
     is_Some (dict_get (mft st') frames)) ∧
  (NoDup (mft st).*1 → NoDup (mft st').*1).
Proof.
  destruct item as [stack value].
  assert (∃ k, heap st = heap st ++ k) as Hnil by (exists []; by rewrite app_nil_r).
  unfold add_item, deref. unfold mbind at 1, py_bind at 1.
  destruct (heap st !! value) as [v|] eqn:Hv; cbn [of_option];
    [|by intros [= <- <-]].
  destruct (forallb _ _); [|by intros [= <- <-]].
  unfold mbind at 1, py_bind at 1, get_self at 1.
  destruct (dict_get (mft st) (frames_of stack)) as [old|] eqn:Hget.
  - unfold deref. unfold mbind at 1, py_bind at 1.
    destruct (heap st !! old) as [o|] eqn:Ho; cbn [of_option];
      [|by intros [= <- <-]].
    unfold mbind, py_bind, lift, alloc, set_self.
    destruct (tadd o v) as [r'|e] eqn:Hadd; intros [= <- <-]; [|done].
    cbn [mft heap]. split; [eauto|]. split; [|apply dict_set_NoDup].
    intros frames Hin. rewrite dict_get_set. by case_decide.
  - unfold set_self. intros [= <- <-]. cbn [mft heap].
    split; [done|]. split; [|apply dict_set_NoDup].
    intros frames Hin. rewrite dict_get_set. by case_decide.
Qed.

(** Property X4.  Whether it returns or raises, [add] only appends to the heap (no tensor
    that was there is changed), removes no key, and keeps the keys pairwise
    distinct. *)
Theorem add_frame items st r st' :
  add items st = (r, st') →
  (∃ k, heap st' = heap st ++ k) ∧
  (∀ frames, is_Some (dict_get (mft st) frames) →
     is_Some (dict_get (mft st') frames)) ∧
  (NoDup (mft st).*1 → NoDup (mft st').*1).
Proof.
  unfold add. revert st. induction items as [|item items IH]; intros st.
  - intros [= <- <-]. split; [|done]. exists []. by rewrite app_nil_r.
  - cbn [for_each]. unfold mbind, py_bind.
    destruct (add_item item st) as [[[]|e] st1] eqn:Hitem;
      apply add_item_frame in Hitem as ([k1 Hk1] & Hkeys1 & Hnd1).
    + intros Hrest. apply IH in Hrest as ([k Hk] & Hkeys & Hnd).
      split; [|split].
      * exists (k1 ++ k). by rewrite Hk, Hk1, app_assoc.
      * intros frames Hin. by apply Hkeys, Hkeys1.
      * intros Hd. by apply Hnd, Hnd1.
    + intros [= <- <-]. eauto.
Qed.

(** ** [sum_to] *)

Lemma strip_leading_ones_idemp (s : list nat) :
  strip_leading_ones (strip_leading_ones s) = strip_leading_ones s.
Proof.
  induction s as [|n s IH]; [done|].
  destruct n as [|[|n]]; [done|exact IH|done].
Qed.

Lemma strip_no_leading_one (s : list nat) : no_leading_one (strip_leading_ones s).
Proof.
  unfold no_leading_one. induction s as [|n s IH]; [done|].
  destruct n as [|[|n]]; [done|exact IH|done].
Qed.

Lemma strip_leading_ones_id (s : list nat) :
  no_leading_one s → strip_leading_ones s = s.
Proof. unfold no_leading_one. by destruct s as [|[|[|n]] s]. Qed.

Lemma squeezed_refl (t : tensor F) : squeezed t t.
Proof. split; [done|by left]. Qed.

Lemma squeezed_trans (t1 t2 t3 : tensor F) :
  squeezed t1 t2 → squeezed t2 t3 → squeezed t1 t3.
Proof.
  intros [Hd1 Hs1] [Hd2 Hs2]. split; [congruence|].
  destruct Hs2 as [->| ->]; [done|]. right.
  destruct Hs1 as [->| ->]; [done|apply strip_leading_ones_idemp].
Qed.

Lemma evolves_refl h : evolves h h.
Proof. intros l t Hl. exists t. split; [done|apply squeezed_refl]. Qed.

Lemma evolves_trans h1 h2 h3 : evolves h1 h2 → evolves h2 h3 → evolves h1 h3.
Proof.
  intros H12 H23 l t1 Hl. destruct (H12 l t1 Hl) as (t2 & Hl2 & Hsq2).
  destruct (H23 l t2 Hl2) as (t3 & Hl3 & Hsq3). exists t3.
  split; [done|by eapply squeezed_trans].
Qed.

Lemma evolves_app h k : evolves h (h ++ k).
Proof.
  intros l t Hl. exists t. split; [by apply lookup_app_l_Some|apply squeezed_refl].
Qed.

Lemma evolves_squeeze h l t :
  h !! l = Some t → evolves h (<[l := squeeze_leading t]> h).
Proof.
  intros Hl l' t' Hl'. destruct (decide (l' = l)) as [->|Hne].
  - rewrite Hl in Hl'. injection Hl' as <-. exists (squeeze_leading t).
    split; [apply list_lookup_insert_eq; by eapply lookup_lt_Some|].
    split; [done|by right].
  - exists t'. rewrite list_lookup_insert_ne by done. split; [done|apply squeezed_refl].
Qed.

Lemma reduce_frame_frame (target : gset Frame) value f st r st' :
  reduce_frame target value f st = (r, st') →
  ∃ k, st' = State (heap st ++ k) (mft st).
Proof.
  assert (∃ k, st = State (heap st ++ k) (mft st)) as Hnil
    by (exists []; rewrite app_nil_r; by destruct st).
  unfold reduce_frame. case_decide; [by intros [= <- <-]|].
  unfold mbind, py_bind, deref, lift, alloc, mret, py_ret.
  destruct (heap st !! value) as [v|]; cbn [of_option]; [|by intros [= <- <-]].
  destruct (py_index _ _) as [n|]; cbn [of_option]; [|by intros [= <- <-]].
  destruct (n =? 1); [by intros [= <- <-]|].
  destruct (tsum_dim _ _); intros [= <- <-]; eauto.
Qed.

Lemma reduce_frames_frame (target : gset Frame) fs value st r st' :
  reduce_frames target value fs st = (r, st') →
  ∃ k, st' = State (heap st ++ k) (mft st).
Proof.
  revert value st. induction fs as [|f fs IH]; intros value st.
  - intros [= <- <-]. exists []. rewrite app_nil_r. by destruct st.
  - rewrite reduce_frames_cons.
    destruct (reduce_frame target value f st) as [[v1|e] st1] eqn:Hf;
      apply reduce_frame_frame in Hf; destruct Hf as [k1 ->].
    + intros Hrest. apply IH in Hrest as [k ->]. cbn. exists (k1 ++ k).
      by rewrite app_assoc.
    + intros [= <- <-]. eauto.
Qed.

Lemma sum_to_item_frame (target : gset Frame) total item st r st' :
  sum_to_item target total item st = (r, st') →
  mft st' = mft st ∧ evolves (heap st) (heap st').
Proof.
  destruct item as [frames value]. rewrite sum_to_item_eq.
  destruct (reduce_frames _ _ _ _) as [[v1|e] st1] eqn:Hred;
    apply reduce_frames_frame in Hred; destruct Hred as [k ->]; cbn [heap mft];
    [|intros [= <- <-]; split; [done|apply evolves_app]].
  destruct ((heap st ++ k) !! v1) as [t1|] eqn:Hv1;
    [|intros [= <- <-]; split; [done|apply evolves_app]].
  assert (evolves (heap st) (<[v1:=squeeze_leading t1]> (heap st ++ k))) as Hev.
  { eapply evolves_trans; [apply evolves_app|by apply evolves_squeeze]. }
  cbn zeta. cbn [heap mft].
  destruct total as [tot|]; [|by intros [= <- <-]].
  destruct (<[v1:=squeeze_leading t1]> (heap st ++ k) !! tot) as [a|];
    [|by intros [= <- <-]].
  destruct (<[v1:=squeeze_leading t1]> (heap st ++ k) !! v1) as [b|];
    [|by intros [= <- <-]].
  destruct (tadd a b); intros [= <- <-]; cbn [heap mft]; [|done].
  split; [done|]. eapply evolves_trans; [exact Hev|apply evolves_app].
Qed.

Lemma sum_to_items_frame (target : gset Frame) items total st r st' :
  sum_to_items target total items st = (r, st') →
  mft st' = mft st ∧ evolves (heap st) (heap st').
Proof.
  revert total st. induction items as [|item items IH]; intros total st.
  - intros [= <- <-]. split; [done|apply evolves_refl].
  - rewrite sum_to_items_cons.
    destruct (sum_to_item target total item st) as [[total1|e] st1] eqn:Hitem;
      apply sum_to_item_frame in Hitem; destruct Hitem as [Hm1 Hev1].
    + intros Hrest. apply IH in Hrest as [Hm Hev].
      split; [congruence|by eapply evolves_trans].
    + by intros [= <- <-].
Qed.

(** Property X5.  Whether it returns or raises, [sum_to] leaves the dict as it is, and of a
    tensor that was in the heap it keeps the entries and either keeps the
    shape or strips its leading axes of extent one. *)
Theorem sum_to_frame (target : gset Frame) st r st' :
  sum_to target st = (r, st') →
  mft st' = mft st ∧
  ∀ l t, heap st !! l = Some t →
    ∃ t', heap st' !! l = Some t' ∧ data t' = data t ∧
      (shape t' = shape t ∨ shape t' = strip_leading_ones (shape t)).
Proof.
  unfold sum_to, mbind, py_bind, get_self. apply sum_to_items_frame.
Qed.


Lemma broadcast_rev_nil (r1 r2 : list nat) :
  broadcast_rev r1 r2 = Some [] → r1 = [] ∧ r2 = [].
Proof.
  destruct r1 as [|a r1], r2 as [|b r2]; cbn; try done.
  destruct (broadcast_rev r1 r2); cbn; [|done]. by repeat case_match.
Qed.

Lemma broadcast_rev_last (r1 r2 r : list nat) :
  broadcast_rev r1 r2 = Some r →
  last r1 ≠ Some 1 → last r2 ≠ Some 1 → last r ≠ Some 1.
Proof.
  revert r2 r. induction r1 as [|a r1 IH]; intros r2 r.
  { destruct r2; by intros [= <-]. }
  destruct r2 as [|b r2]; [by intros [= <-]|].
  cbn [broadcast_rev].
  destruct (broadcast_rev r1 r2) as [r'|] eqn:Hr'; cbn; [|done].
  intros Hr H1 H2.
  assert (∃ x, r = x :: r' ∧ (x = a ∨ x = b) ∧ (x = 1 → a = 1 ∧ b = 1))
    as (x & -> & Hx & Hx1).
  { destruct (a =? b) eqn:Hab; [apply Nat.eqb_eq in Hab as ->|].
    - injection Hr as <-. exists b. split; [done|]. split; [by left|].
      by intros ->.
    - destruct (a =? 1) eqn:Ha1; [apply Nat.eqb_eq in Ha1 as ->|].
      + injection Hr as <-. exists b. split; [done|]. split; [by right|].
        intros ->. done.
      + destruct (b =? 1) eqn:Hb1; [|done]. apply Nat.eqb_eq in Hb1 as ->.
        injection Hr as <-. exists a. split; [done|]. split; [by left|].
        intros ->. done. }
  destruct r' as [|y r'].
  - apply broadcast_rev_nil in Hr' as [-> ->]. cbn in H1 |- *.
    intros [= ->]. destruct (Hx1 eq_refl) as [-> _]. by apply H1.
  - rewrite last_cons_cons. apply (IH r2); [done| |].
    + destruct r1; [done|]. by rewrite last_cons_cons in H1.
    + destruct r2; [done|]. by rewrite last_cons_cons in H2.
Qed.

Lemma broadcast_shapes_no_leading_one (s1 s2 s : list nat) :
  broadcast_shapes s1 s2 = Some s →
  no_leading_one s1 → no_leading_one s2 → no_leading_one s.
Proof.
  unfold broadcast_shapes, no_leading_one.
  destruct (broadcast_rev _ _) as [r|] eqn:Hr; [|done]. intros [= <-].
  rewrite <- !last_reverse, reverse_involutive.
  intros H1 H2. by eapply broadcast_rev_last.
Qed.

Lemma tadd_shape (a b r : tensor F) :
  tadd a b = Ok r → broadcast_shapes (shape a) (shape b) = Some (shape r).
Proof.
  unfold tadd, tmap2. destruct (broadcast_shapes _ _); cbn; [|done].
  by intros [= <-].
Qed.

Lemma sum_to_item_no_leading_one (target : gset Frame) total item st total' st' :
  match total with
  | None => True
  | Some l => ∃ t, heap st !! l = Some t ∧ no_leading_one (shape t)
  end →
  sum_to_item target total item st = (Ok total', st') →
  ∃ l t, total' = Some l ∧ heap st' !! l = Some t ∧ no_leading_one (shape t).
Proof.
  intros Htotal. destruct item as [frames value]. rewrite sum_to_item_eq.
  destruct (reduce_frames _ _ _ _) as [[v1|e] st1] eqn:Hred; [|done].
  apply reduce_frames_frame in Hred; destruct Hred as [k ->]. cbn [heap mft].
  destruct ((heap st ++ k) !! v1) as [t1|] eqn:Hv1; [|done].
  cbn zeta. cbn [heap mft].
  assert (<[v1:=squeeze_leading t1]> (heap st ++ k) !! v1 =
            Some (squeeze_leading t1)) as Hv1'
    by (apply list_lookup_insert_eq; by eapply lookup_lt_Some).
  destruct total as [tot|].
  - destruct Htotal as (t & Htot & Ht).
    destruct (evolves_trans _ _ _ (evolves_app (heap st) k)
                (evolves_squeeze _ _ _ Hv1) tot t Htot)
      as (a & Ha & _ & Hshape).
    unfold loc in *. rewrite Ha, Hv1'. destruct (tadd a (squeeze_leading t1)) as [r|e] eqn:Hadd; [|done].
    intros [= <- <-]. cbn [heap]. eexists _, r. split; [done|].
    split; [by rewrite lookup_app_r, Nat.sub_diag by lia|].
    apply tadd_shape in Hadd. eapply broadcast_shapes_no_leading_one; [exact Hadd| |].
    + destruct Hshape as [-> | ->]; [done|apply strip_no_leading_one].
    + apply strip_no_leading_one.
  - intros [= <- <-]. cbn [heap]. eexists _, _. split; [done|].
    split; [exact Hv1'|apply strip_no_leading_one].
Qed.

Lemma sum_to_items_no_leading_one (target : gset Frame) items total st l st' :
  match total with
  | None => True
  | Some l => ∃ t, heap st !! l = Some t ∧ no_leading_one (shape t)
  end →
  sum_to_items target total items st = (Ok (Some l), st') →
  ∃ t, heap st' !! l = Some t ∧ no_leading_one (shape t).
Proof.
  revert total st. induction items as [|item items IH]; intros total st Htotal.
  - intros [= -> <-]. done.
  - rewrite sum_to_items_cons.
    destruct (sum_to_item target total item st) as [[total1|e] st1] eqn:Hitem;
      [|done].
    apply sum_to_item_no_leading_one in Hitem as (l1 & t1 & -> & Hl1 & Ht1);
      [|done].
    apply IH. eauto.
Qed.

(** Property X6.  The tensor [sum_to] returns has no leading axis of extent one. *)
Theorem sum_to_no_leading_one (target : gset Frame) st l st' :
  sum_to target st = (Ok (Some l), st') →
  ∃ t, heap st' !! l = Some t ∧ head (shape t) ≠ Some 1.
Proof.
  unfold sum_to, mbind, py_bind, get_self.
  by apply sum_to_items_no_leading_one.
Qed.

Lemma reduce_frames_target_ext (T T' : gset Frame) fs value st :
  Forall (λ f, f ∈ T ↔ f ∈ T') fs →
  reduce_frames T value fs st = reduce_frames T' value fs st.
Proof.
  intros Hfs. revert value st. induction Hfs as [|f fs Hf _ IH]; intros value st;
    [done|].
  rewrite !reduce_frames_cons.
  assert (reduce_frame T value f st = reduce_frame T' value f st) as ->.
  { unfold reduce_frame. destruct (decide (f ∈ T)) as [Hin|Hin].
    - by rewrite decide_True by (by apply Hf).
    - by rewrite decide_False by (by rewrite <- Hf). }
  destruct (reduce_frame T' value f st) as [[v1|e] st1]; [apply IH|done].
Qed.

(** Property X7.  [sum_to] looks at the target only through the frames of the keys: two
    targets that agree on every frame of every key give the same result and
    the same final state. *)
Theorem sum_to_target_ext (T T' : gset Frame) st :
  (∀ frames l f, (frames, l) ∈ mft st → f ∈ frames → f ∈ T ↔ f ∈ T') →
  sum_to T st = sum_to T' st.
Proof.
  intros Hext. unfold sum_to, mbind, py_bind, get_self.
  generalize (@None loc). generalize st at 2 4.
  induction (mft st) as [|[frames l] items IH]; intros st0 total; [done|].
  rewrite !sum_to_items_cons.
  assert (sum_to_item T total (frames, l) st0 =
          sum_to_item T' total (frames, l) st0) as ->.
  { rewrite !sum_to_item_eq. rewrite (reduce_frames_target_ext T T'); [done|].
    apply Forall_forall. intros f Hf%elem_of_elements.
    apply (Hext frames l); [apply list_elem_of_here|done]. }
  destruct (sum_to_item T' total (frames, l) st0) as [[total1|e] st1]; [|done].
  apply IH. intros frames' l' f Hin. apply (Hext frames' l').
  by apply list_elem_of_further.
Qed.

End with_scalar.

Import Examples.

Lemma add_item_stack_ext_witness :
  add_item ([frame_a; frame_n; frame_a], 0) (State [row] []) =
  add_item ([frame_a], 0) (State [row] []).
Proof.
  apply (add_item_stack_ext [frame_a; frame_n; frame_a] [frame_a] 0
           (State [row] [])).
  intros f Hvec. rewrite !elem_of_cons, elem_of_nil.
  split; [|tauto]. intros [->|[->|[->|[]]]]; [by left|discriminate Hvec|by left].
Defined.

Lemma add_item_lookup_witness :
  ∃ l v,
    [row; row] !! 1 = Some v ∧
    dict_get (mft (add double_items (State [row; row] [])).2) {[frame_a]} = Some l ∧
    l = 2.
Proof.
  destruct (add_item_lookup [frame_a] 1 (State [row; row] [({[frame_a]}, 0)])
              (add double_items (State [row; row] [])).2)
    as (l & v & Hv & Hl & Hold & _).
  - vm_compute. reflexivity.
  - exists l, v. split; [exact Hv|]. split; [exact Hl|].
    destruct Hold as (o & r & _ & _ & -> & _). reflexivity.
Defined.

Lemma add_frame_witness :
  (∃ k, heap (add late_items (State clash_heap [])).2 = clash_heap ++ k) ∧
  NoDup (mft (add late_items (State clash_heap [])).2).*1.
Proof.
  destruct (add_frame late_items (State clash_heap [])
              (add late_items (State clash_heap [])).1
              (add late_items (State clash_heap [])).2)
    as (Hheap & _ & Hnd).
  - vm_compute. reflexivity.
  - split; [exact Hheap|]. apply Hnd. apply NoDup_nil_2.
Defined.

Lemma sum_to_frame_witness :
  mft (sum_to ∅ leading_state).2 = mft leading_state ∧
  ∃ t', heap (sum_to ∅ leading_state).2 !! 0 = Some t' ∧ data t' = data row ∧
    (shape t' = shape row ∨ shape t' = strip_leading_ones (shape row)).
Proof.
  destruct (sum_to_frame ∅ leading_state (sum_to ∅ leading_state).1
              (sum_to ∅ leading_state).2) as [Hmft Hheap].
  - vm_compute. reflexivity.
  - split; [exact Hmft|]. apply (Hheap 0 row). vm_compute. reflexivity.
Defined.

Lemma sum_to_no_leading_one_witness :
  ∃ t, heap (sum_to {[frame_a]} distinct_state).2 !! 2 = Some t ∧
       head (shape t) ≠ Some 1.
Proof.
  apply (sum_to_no_leading_one {[frame_a]} distinct_state 2).
  vm_compute. reflexivity.
Defined.

Lemma sum_to_target_ext_witness :
  sum_to {[frame_a]} distinct_state = sum_to {[frame_a; frame_c]} distinct_state.
Proof.
  apply (sum_to_target_ext {[frame_a]} {[frame_a; frame_c]} distinct_state).
  intros frames l f Hin Hf.
  assert (f = frame_a ∨ f = frame_b) as Hcases.
  { change (mft distinct_state) with [({[frame_a]} : gset Frame, 0); ({[frame_b]}, 1)] in Hin.
    apply elem_of_cons in Hin as [[= -> ->]|Hin].
    - left. by apply elem_of_singleton in Hf.
    - apply list_elem_of_singleton in Hin as [= -> ->].
      right. by apply elem_of_singleton in Hf. }
  rewrite elem_of_union, !elem_of_singleton.
  destruct Hcases as [->| ->]; split; try tauto.
  intros [[=]|[=]].
Defined.

End MultiFrameTensorMore.
(** * More about Dice *)

Module DiceMore.
Import Dice DiceFacts.
Section with_scalar.
Context {F : Type} `{Scalar F}.
Implicit Types (st : state F) (d : dice F) (h : list (pyobj F)).

Ltac py_unfold :=
  unfold mbind, py_bind, mret, py_ret, lift, raise, deref, alloc, get_self,
    set_self; cbn.

(** ** The methods only extend the state *)

Lemma extends_refl st : extends st st.
Proof. split; [exists []; by rewrite app_nil_r|done]. Qed.

Lemma extends_trans st1 st2 st3 :
  extends st1 st2 → extends st2 st3 → extends st1 st3.
Proof.
  intros ([k1 Hk1] & Hd1 & Hp1 & Hl1 & Hc1) ([k2 Hk2] & Hd2 & Hp2 & Hl2 & Hc2).
  split; [exists (k1 ++ k2); by rewrite Hk2, Hk1, app_assoc|].
  split; [congruence|]. split; [congruence|]. split; by etrans.
Qed.

Lemma get_log_factors_hit st T l :
  _log_factors_cache (self st) !! T = Some l →
  _get_log_factors T st = (Ok l, st).
Proof. intros Hc. unfold _get_log_factors. py_unfold. by rewrite Hc. Qed.

Lemma in_context_hit st sh o p :
  _prob_cache (self st) !! (strip_leading_ones sh, o) = Some p →
  in_context sh o st = (Ok p, st).
Proof. intros Hc. unfold in_context. py_unfold. by rewrite Hc. Qed.

Lemma get_log_factors_frame T st r st' :
  _get_log_factors T st = (r, st') →
  (∃ l, r = Ok l ∧ _log_factors_cache (self st') !! T = Some l) ∧
  extends st st' ∧
  _prob_cache (self st') = _prob_cache (self st).
Proof.
  destruct (_log_factors_cache (self st) !! T) as [l|] eqn:Hc.
  - rewrite (get_log_factors_hit _ _ _ Hc). intros [= <- <-].
    split; [by exists l|]. split; [apply extends_refl|done].
  - rewrite (get_log_factors_miss _ _ Hc). cbn zeta.
    destruct (is_zero _); intros [= <- <-]; cbn.
    + split; [eexists; split; [done|]; by rewrite lookup_insert_eq|].
      split; [|done]. split; [exists []; by rewrite app_nil_r|].
      split; [done|]. split; [done|]. split; [|done]. by apply insert_subseteq.
    + split; [eexists; split; [done|]; by rewrite lookup_insert_eq|].
      split; [|done]. split; [by eexists|].
      split; [done|]. split; [done|]. split; [|done]. by apply insert_subseteq.
Qed.

Lemma in_context_frame sh o st r st' :
  in_context sh o st = (r, st') →
  extends st st' ∧
  (∀ p, r = Ok p → _prob_cache (self st') !! (strip_leading_ones sh, o) = Some p).
Proof.
  destruct (_prob_cache (self st) !! (strip_leading_ones sh, o)) as [p|] eqn:Hc.
  - rewrite (in_context_hit _ _ _ _ Hc). intros [= <- <-].
    split; [apply extends_refl|]. by intros ? [= <-].
  - rewrite (in_context_miss _ _ _ Hc).
    destruct (_get_log_factors o st) as [[l|e] st1] eqn:Hget;
      pose proof Hget as Hfr;
      apply get_log_factors_frame in Hfr as (_ & Hext & Hpc).
    2:{ by intros [= <- <-]. }
    destruct (exp_all l st1) as [[fs|e] st2] eqn:Hexp;
      apply exp_all_state in Hexp as ->.
    2:{ by intros [= <- <-]. }
    destruct (sumproduct fs _) as [p|e].
    2:{ by intros [= <- <-]. }
    intros [= <- <-]. split.
    + eapply extends_trans; [exact Hext|].
      split; [exists []; by rewrite app_nil_r|]. split; [done|]. split; [done|].
      split; [done|]. cbn. apply insert_subseteq. by rewrite Hpc.
    + intros ? [= <-]. cbn. by rewrite lookup_insert_eq.
Qed.

Lemma fold_py_extends {A B} (body : B → A → py (state F) B) xs acc st r st' :
  (∀ b a s r s', body b a s = (r, s') → extends s s') →
  fold_py body xs acc st = (r, st') → extends st st'.
Proof.
  intros Hbody Hrun.
  apply (fold_py_preserves (extends st) body xs acc st r st'); [|apply extends_refl|done].
  intros b a s r' s' Hs Hb. eapply extends_trans; [exact Hs|]. by eapply Hbody.
Qed.

Lemma compute_expectation_frame costs use_einsum st r st' :
  compute_expectation costs use_einsum st = (r, st') → extends st st'.
Proof.
  destruct use_einsum.
  - rewrite compute_expectation_einsum.
    destruct (fold_py exp_ordinal _ _ st) as [[tables|e] st1] eqn:Hfold;
      intros [= <- <-]; revert Hfold; apply fold_py_extends;
      intros b a s r' s'; rewrite exp_ordinal_eq;
      (destruct (_get_log_factors a s) as [[l|e'] s1] eqn:Hget;
       apply get_log_factors_frame in Hget as (_ & Hext & _);
       [|by intros [= <- <-]];
       intros Hf; eapply extends_trans; [exact Hext|];
       apply (fold_py_preserves (λ s2, s2 = s1) (exp_factor a) l b s1 r' s') in Hf
         as ->; [apply extends_refl| |done];
       intros ????? -> Hx; by apply exp_factor_state in Hx).
  - unfold compute_expectation. apply fold_py_extends.
    intros b [o terms] s r' s'. unfold direct_ordinal. py_unfold.
    destruct (py_sum terms) as [[x|c]|e]; [by intros [= <- <-]; apply extends_refl|
      |by intros [= <- <-]; apply extends_refl].
    destruct (in_context (shape c) o s) as [[p|e] s1] eqn:Hin;
      apply in_context_frame in Hin as [Hext _]; by intros [= <- <-].
Qed.

Lemma call_extends st st' : call st st' → extends st st'.
Proof.
  intros [T s r s' Hrun|sh o s r s' Hrun|costs b s r s' Hrun].
  - by apply get_log_factors_frame in Hrun as (_ & ? & _).
  - by apply in_context_frame in Hrun as [? _].
  - by apply compute_expectation_frame in Hrun.
Qed.

Lemma calls_extends st st' : rtc call st st' → extends st st'.
Proof.
  induction 1 as [|s1 s2 s3 Hc _ IH]; [apply extends_refl|].
  eapply extends_trans; [by apply call_extends|done].
Qed.

(** Property X8.  Between any two points of a Dice object's life its methods have only
    allocated objects and added cache entries: the two dicts built by the
    constructor are unchanged, every object is where it was, and no cache
    entry has been removed or replaced. *)
Theorem methods_only_extend st st' :
  rtc call st st' →
  log_denom (self st') = log_denom (self st) ∧
  log_probs (self st') = log_probs (self st) ∧
  (∀ l x, heap st !! l = Some x → heap st' !! l = Some x) ∧
  (∀ T l, _log_factors_cache (self st) !! T = Some l →
          _log_factors_cache (self st') !! T = Some l) ∧
  (∀ k p, _prob_cache (self st) !! k = Some p →
          _prob_cache (self st') !! k = Some p).
Proof.
  intros Hc. apply calls_extends in Hc as ([k Hk] & Hd & Hp & Hl & Hpc).
  split; [done|]. split; [done|]. split; [|split].
  - intros l x Hx. rewrite Hk. by apply lookup_app_l_Some.
  - intros T l Hx. by eapply lookup_weaken.
  - intros key p Hx. by eapply lookup_weaken.
Qed.

Lemma strip_leading_ones_replicate n (sh : list nat) :
  strip_leading_ones (replicate n 1 ++ sh) = strip_leading_ones sh.
Proof. induction n as [|n IH]; [done|]. cbn. exact IH. Qed.

(** Property X9.  [_get_log_factors] is memoized for good: once it has returned a list
    for an ordinal, every later call for that ordinal, whatever methods ran
    in between, returns the same list of objects and changes nothing. *)
Theorem get_log_factors_memo T st l st1 st2 :
  _get_log_factors T st = (Ok l, st1) → rtc call st1 st2 →
  _get_log_factors T st2 = (Ok l, st2).
Proof.
  intros Hrun Hcalls.
  apply get_log_factors_frame in Hrun as ((l' & [= <-] & Hc) & _ & _).
  apply calls_extends in Hcalls as (_ & _ & _ & Hl & _).
  apply get_log_factors_hit. by eapply lookup_weaken.
Qed.

(** Property X10.  [in_context] is memoized for good, up to leading axes of extent one:
    once it has returned a weight for a shape and an ordinal, every later
    call for that ordinal and that shape with any number of leading ones added
    returns the same weight and changes nothing. *)
Theorem in_context_memo sh o st p st1 st2 n :
  in_context sh o st = (Ok p, st1) → rtc call st1 st2 →
  in_context (replicate n 1 ++ sh) o st2 = (Ok p, st2).
Proof.
  intros Hrun Hcalls.
  apply in_context_frame in Hrun as [_ Hc]. specialize (Hc p eq_refl).
  apply calls_extends in Hcalls as (_ & _ & _ & _ & Hpc).
  apply in_context_hit. rewrite strip_leading_ones_replicate.
  by eapply lookup_weaken.
Qed.

(** ** What [in_context] returns *)

Lemma mapM_lookup_grow h k (ls : list loc) vs :
  mapM (λ l, h !! l) ls = Some vs → mapM (λ l, (h ++ k) !! l) ls = Some vs.
Proof.
  rewrite !mapM_Some. intros Hf. eapply Forall2_impl; [exact Hf|].
  intros l v. apply lookup_app_l_Some.
Qed.

Lemma terms_live_values h d T :
  terms_live (State h d) → is_Some (mapM (λ l, h !! l) (upstream_terms d T)).
Proof.
  intros Hlive. apply mapM_is_Some, Forall_forall. intros l Hl.
  unfold upstream_terms in Hl. apply list_elem_of_join in Hl as (terms & Hl & Ht).
  apply list_elem_of_fmap in Ht as ([o terms'] & -> & Ht).
  apply list_elem_of_filter in Ht as [_ Ht]. by apply (Hlive o terms' l).
Qed.

Lemma weight_grow h k d d' sh o :
  terms_live (State h d) →
  log_denom d' = log_denom d → log_probs d' = log_probs d →
  weight (h ++ k) d' sh o = weight h d sh o.
Proof.
  intros Hlive Hd Hp. unfold weight, log_factor_values.
  unfold upstream_terms, not_upstream_denominators. rewrite Hd, Hp.
  destruct (terms_live_values h d o Hlive) as [vs Hvs].
  unfold upstream_terms in Hvs. by rewrite Hvs, (mapM_lookup_grow _ _ _ _ Hvs).
Qed.

Lemma weight_strip h d sh o :
  weight h d (strip_leading_ones sh) o = weight h d sh o.
Proof. unfold weight. by rewrite MultiFrameTensorMore.strip_leading_ones_idemp. Qed.

Lemma terms_live_extends st st' :
  extends st st' → terms_live st → terms_live st'.
Proof.
  intros ([k Hk] & _ & Hp & _) Hlive o terms l. rewrite Hp, Hk. intros Ho Hl.
  destruct (Hlive o terms l Ho Hl) as [x Hx]. exists x. by apply lookup_app_l_Some.
Qed.

Lemma weight_extends st st' sh o :
  extends st st' → terms_live st →
  weight (heap st') (self st') sh o = weight (heap st) (self st) sh o.
Proof.
  intros ([k Hk] & Hd & Hp & _) Hlive. rewrite Hk.
  apply weight_grow; [by destruct st|done..].
Qed.

Lemma prob_cache_ok_extends st st' :
  extends st st' → terms_live st →
  _prob_cache (self st') = _prob_cache (self st) →
  prob_cache_ok st → prob_cache_ok st'.
Proof.
  intros Hext Hlive Hpc Hok sh o p. rewrite Hpc, (weight_extends _ _ _ _ Hext Hlive).
  apply Hok.
Qed.

Lemma get_log_factors_inv T st r st' :
  dice_inv st → _get_log_factors T st = (r, st') → dice_inv st'.
Proof.
  intros (Hc & Hl & Hp) Hrun. split; [by eapply get_log_factors_cache_ok|].
  apply get_log_factors_frame in Hrun as (_ & Hext & Hpc).
  split; [by eapply terms_live_extends|by eapply prob_cache_ok_extends].
Qed.

Lemma in_context_run sh o st :
  dice_inv st →
  ∃ st', in_context sh o st = (weight (heap st) (self st) sh o, st') ∧
         dice_inv st'.
Proof.
  intros (Hc & Hl & Hp).
  destruct (_prob_cache (self st) !! (strip_leading_ones sh, o)) as [p|] eqn:Hhit.
  { exists st. rewrite (in_context_hit _ _ _ _ Hhit).
    apply Hp in Hhit. rewrite weight_strip in Hhit. by rewrite Hhit. }
  destruct (get_log_factors_run st o Hc)
    as (l & st1 & Hget & Hspec & Hd1 & Hp1 & Hpc1 & [k Hk] & Hc1).
  pose proof Hget as Hfr. apply get_log_factors_frame in Hfr as (_ & Hext & _).
  pose proof (terms_live_extends _ _ Hext Hl) as Hl1.
  destruct (terms_live_values (heap st) (self st) o) as [vs Hvs]; [by destruct st|].
  set (s := sum_list (not_upstream_denominators (self st) o)) in *.
  set (os := (if is_zero s then [] else [Num (neg s)]) ++ vs).
  assert (log_factor_values (heap st) (self st) o = Some os) as Hos.
  { unfold log_factor_values. by rewrite Hvs. }
  assert (Forall2 (λ l o, heap st1 !! l = Some o) l os) as Hall.
  { destruct Hspec as (leading & -> & Hlead). fold s in Hlead.
    apply Forall2_app.
    - destruct (is_zero s).
      + subst leading. constructor.
      + destruct Hlead as (l0 & -> & Hl0). by repeat constructor.
    - apply mapM_Some in Hvs. eapply Forall2_impl; [exact Hvs|].
      intros l' v Hv. cbn in Hv. rewrite Hk. by apply lookup_app_l_Some. }
  rewrite (in_context_miss _ _ _ Hhit), Hget, (exp_all_run _ _ _ Hall).
  unfold weight. rewrite Hos. cbn.
  destruct (sumproduct (torch_exp <$> os) (strip_leading_ones sh)) as [p|e] eqn:Hsp.
  - assert (extends st (State (heap st1) (cache_prob (self st1)
              (strip_leading_ones sh) o p))) as Hext2.
    { destruct Hext as (? & ? & ? & ? & Hsub). split; [done|]. split; [done|].
      split; [done|]. split; [done|]. cbn. apply insert_subseteq_r; [done|].
      by rewrite Hpc1. }
    eexists. split; [done|]. split; [|split].
    + intros T lf. cbn. apply Hc1.
    + by eapply terms_live_extends.
    + intros sh' o' p'. rewrite (weight_extends _ _ sh' o' Hext2 Hl).
      cbn [heap self _prob_cache cache_prob]. rewrite lookup_insert_Some.
      intros [[[= <- <-] <-]|[_ Hold]].
      * rewrite weight_strip. unfold weight. by rewrite Hos.
      * rewrite Hpc1 in Hold. by apply Hp in Hold.
  - eexists. split; [done|]. split; [done|]. split; [done|].
    eapply prob_cache_ok_extends; [exact Hext|done|done|done].
Qed.

Lemma exp_ordinal_frame tables o st r st' :
  exp_ordinal tables o st = (r, st') → ∃ rl, _get_log_factors o st = (rl, st').
Proof.
  rewrite exp_ordinal_eq.
  destruct (_get_log_factors o st) as [[l|e] st1]; [|intros [= <- <-]; by eexists].
  intros Hf.
  apply (fold_py_preserves (λ s2, s2 = st1) (exp_factor o) l tables st1 r st') in Hf
    as ->; [by eexists| |done].
  intros ????? -> Hx. by apply exp_factor_state in Hx.
Qed.

Lemma compute_expectation_inv costs use_einsum st r st' :
  dice_inv st → compute_expectation costs use_einsum st = (r, st') → dice_inv st'.
Proof.
  intros Hinv. destruct use_einsum.
  - rewrite compute_expectation_einsum.
    destruct (fold_py exp_ordinal _ _ st) as [[tables|e] st1] eqn:Hfold;
      intros [= <- <-]; revert Hfold; apply fold_py_preserves; [|done| |done];
      intros b a s r' s' Hs [rl Hget]%exp_ordinal_frame;
      by eapply get_log_factors_inv.
  - unfold compute_expectation. apply fold_py_preserves; [|done].
    intros b [o terms] s r' s' Hs. unfold direct_ordinal. py_unfold.
    destruct (py_sum terms) as [[x|c]|e]; [by intros [= <- <-]| |by intros [= <- <-]].
    destruct (in_context_run (shape c) o s Hs) as (s1 & -> & Hs1).
    destruct (weight _ _ _ _); by intros [= <- <-].
Qed.

(** ** The constructor *)

Lemma for_each_preserves {S A} (P : S → Prop) (body : A → py S unit) xs s r s' :
  (∀ a s r s', P s → body a s = (r, s') → P s') →
  P s → for_each xs body s = (r, s') → P s'.
Proof.
  intros Hbody. revert s. induction xs as [|x xs IH]; intros s Hs; cbn.
  - by intros [= <- <-].
  - unfold mbind, py_bind. destruct (body x s) as [[[]|e] s1] eqn:Hb.
    + apply IH. by eapply Hbody.
    + intros [= <- <-]. by eapply Hbody.
Qed.

Lemma elem_of_dict_set {K V} `{EqDecision K} (d : list (K * V)) k v x :
  x ∈ dict_set d k v → x = (k, v) ∨ x ∈ d.
Proof.
  induction d as [|[k0 v0] d IH]; cbn.
  - intros ->%list_elem_of_singleton. by left.
  - destruct (decide (k0 = k)) as [->|Hne].
    + intros [->|Hx]%elem_of_cons; [by left|right; by right].
    + intros [->|Hx]%elem_of_cons; [right; by left|].
      destruct (IH Hx) as [->|Hd]; [by left|right; by right].
Qed.

Lemma dict_get_Some_elem {K V} `{EqDecision K} (d : list (K * V)) k v :
  dict_get d k = Some v → (k, v) ∈ d.
Proof.
  induction d as [|[k0 v0] d IH]; cbn; [done|].
  destruct (decide (k0 = k)) as [->|Hne].
  - intros [= ->]. by left.
  - intros Hd. right. by apply IH.
Qed.

(** What one turn of the constructor's loop does to the state. *)
Lemma init_site_cases ordering node st r st' :
  init_site ordering node st = (r, st') →
  st' = st ∨
  ∃ o d' k l,
    st' = State (heap st ++ k) (probs_append d' o l) ∧
    is_Some ((heap st ++ k) !! l) ∧
    (d' = self st ∨ ∃ x, d' = denom_add (self st) o x).
Proof.
  destruct node as [name s].
  destruct (decide (type s = "sample")) as [Hty|Hty].
  2:{ rewrite (init_site_not_sample _ _ _ _ Hty). intros [= <- <-]. by left. }
  destruct (heap st !! score_function s) as [lp|] eqn:Hlp.
  2:{ rewrite (init_site_dangling _ _ _ _ Hty Hlp). intros [= <- <-]. by left. }
  rewrite (init_site_sample _ _ _ _ _ Hty Hlp).
  destruct (is_identically_zero lp); [intros [= <- <-]; by left|].
  destruct (ordering !! name) as [o|]; [|intros [= <- <-]; by left].
  destruct (default false _).
  - destruct (decide _) as [Hseq|Hseq].
    + destruct (infer s !! "_enum_total") as [total|]; [|intros [= <- <-]; by left].
      destruct (math_log total) as [x|e]; [|intros [= <- <-]; by left].
      intros [= <- <-]. right. exists o, (denom_add (self st) o x), [], (score_function s).
      rewrite app_nil_r. split; [done|]. split; [by eexists|]. right. by eexists.
    + intros [= <- <-]. right. exists o, (self st), [], (score_function s).
      rewrite app_nil_r. split; [done|]. split; [by eexists|]. by left.
  - destruct (minus_detached lp) as [t|e]; [|intros [= <- <-]; by left].
    intros [= <- <-]. right. exists o, (self st), [t], (length (heap st)).
    split; [done|]. split; [|by left].
    exists t. by rewrite lookup_app_r, Nat.sub_diag by lia.
Qed.

Lemma log_probs_denom_add d o x : log_probs (denom_add d o x) = log_probs d.
Proof. done. Qed.

Lemma init_site_terms_live ordering node st r st' :
  terms_live st → init_site ordering node st = (r, st') → terms_live st'.
Proof.
  intros Hlive [->|(o & d' & k & l & -> & Hl & Hd')]%init_site_cases; [done|].
  assert (log_probs d' = log_probs (self st)) as Hp.
  { by destruct Hd' as [->|[x ->]]. }
  intros o' terms l'. cbn. rewrite Hp.
  intros [[= -> ->]|Hin]%elem_of_dict_set.
  - intros [Hold| ->%list_elem_of_singleton]%elem_of_app; [|done].
    destruct (dict_get (log_probs (self st)) o) as [old|] eqn:Hget;
      [|by apply elem_of_nil in Hold].
    apply dict_get_Some_elem in Hget. destruct (Hlive _ _ _ Hget Hold) as [x Hx].
    exists x. by apply lookup_app_l_Some.
  - intros Hl'. destruct (Hlive _ _ _ Hin Hl') as [x Hx].
    exists x. by apply lookup_app_l_Some.
Qed.

Lemma init_terms_live trace ordering h r st :
  __init__ trace ordering h = (r, st) → terms_live st.
Proof.
  unfold __init__. apply for_each_preserves.
  - intros a s r' s' Hs Hb. by eapply init_site_terms_live.
  - intros o terms l. cbn. by intros ?%elem_of_nil.
Qed.

Lemma init_dice_inv trace ordering h r st :
  __init__ trace ordering h = (r, st) → dice_inv st.
Proof.
  intros Hrun. split; [by eapply init_cache_ok|]. split; [by eapply init_terms_live|].
  apply init_run_frame in Hrun as (_ & _ & Hpc). intros sh o p. rewrite Hpc. cbn.
  by rewrite lookup_empty.
Qed.

Lemma reachable_dice_inv st : reachable st → dice_inv st.
Proof.
  induction 1 as [trace ordering h st Hrun|T st r st' _ IH Hrun|
                  sh o st r st' _ IH Hrun|costs b st r st' _ IH Hrun].
  - by eapply init_dice_inv.
  - by eapply get_log_factors_inv.
  - destruct (in_context_run sh o st IH) as (st1 & Heq & Hinv).
    rewrite Hrun in Heq. by injection Heq as _ ->.
  - by eapply compute_expectation_inv.
Qed.

(** Property X11.  On every state a Dice object can be in, [in_context shape ordinal]
    returns the weight of the ordinal computed afresh: the sum-product, down
    to the shape without its leading ones, of the exponentials of the negated
    sum of the not-upstream log-denominators (when not zero) and of the
    upstream log-weight terms; it raises exactly when that sum-product
    raises.  The two caches never change what is returned. *)
Theorem in_context_spec sh o st :
  reachable st →
  ∃ st', in_context sh o st = (weight (heap st) (self st) sh o, st').
Proof.
  intros Hinv%reachable_dice_inv.
  destruct (in_context_run sh o st Hinv) as (st' & Hrun & _). by exists st'.
Qed.

(** ** The [else] branch of [compute_expectation] *)

Lemma fold_outcome_ext {A B} (f g : B → A → outcome B) xs acc :
  (∀ b a, f b a = g b a) → fold_outcome f xs acc = fold_outcome g xs acc.
Proof.
  intros Hfg. revert acc. induction xs as [|x xs IH]; intros acc; [done|].
  cbn. rewrite Hfg. destruct (g acc x); cbn; [apply IH|done].
Qed.

Lemma direct_cost_extends st st' acc item :
  extends st st' → terms_live st →
  direct_cost (heap st') (self st') acc item = direct_cost (heap st) (self st) acc item.
Proof.
  intros Hext Hlive. unfold direct_cost.
  destruct (py_sum item.2) as [[x|c]|e]; cbn; [done| |done].
  by rewrite (weight_extends _ _ _ _ Hext Hlive).
Qed.

Lemma direct_ordinal_eq acc o terms st :
  direct_ordinal acc (o, terms) st =
    match py_sum terms with
    | Ok (Num _) => (Raise AttributeError, st)
    | Ok (Tens c) =>
        match in_context (shape c) o st with
        | (Ok p, st1) => (accumulate acc p c, st1)
        | (Raise e, st1) => (Raise e, st1)
        end
    | Raise e => (Raise e, st)
    end.
Proof.
  unfold direct_ordinal. py_unfold. by destruct (py_sum terms) as [[x|c]|e].
Qed.

Lemma direct_cost_eq h d acc o terms :
  direct_cost h d acc (o, terms) =
    match py_sum terms with
    | Ok (Num _) => Raise AttributeError
    | Ok (Tens c) =>
        match weight h d (shape c) o with
        | Ok p => accumulate acc p c
        | Raise e => Raise e
        end
    | Raise e => Raise e
    end.
Proof.
  unfold direct_cost, mbind, outcome_bind. cbn [fst snd].
  destruct (py_sum terms) as [[x|c]|e]; reflexivity.
Qed.

Lemma direct_run costs acc st :
  dice_inv st →
  ∃ st', fold_py direct_ordinal costs acc st =
           (fold_outcome (direct_cost (heap st) (self st)) costs acc, st').
Proof.
  revert acc st. induction costs as [|[o terms] costs IH]; intros acc st Hinv.
  - exists st. by rewrite fold_py_nil.
  - rewrite fold_py_cons, MultiFrameTensorFacts.fold_outcome_cons, direct_ordinal_eq, direct_cost_eq.
    destruct (py_sum terms) as [[x|c]|e]; [by eexists| |by eexists].
    destruct (in_context_run (shape c) o st Hinv) as (st1 & Hrun & Hinv1).
    pose proof Hrun as [Hext _]%in_context_frame. rewrite Hrun.
    destruct (weight (heap st) (self st) (shape c) o) as [p|e]; [|by eexists].
    destruct (accumulate acc p c) as [acc'|e]; [|by eexists].
    destruct (IH acc' st1 Hinv1) as (st2 & ->). exists st2. f_equal.
    apply fold_outcome_ext. intros b a. apply direct_cost_extends; [done|].
    by destruct Hinv as (_ & ? & _).
Qed.

(** Property X12.  On every state a Dice object can be in, [compute_expectation] with
    [use_einsum=False] walks the costs in dict order and, for each ordinal,
    adds the masked sum of weight times the sum of the ordinal's cost terms,
    where the weight is the one computed afresh from the log-factors at the
    shape of that sum; it raises at the first ordinal whose cost list is empty
    (AttributeError), whose terms do not add up, or whose weight does not
    broadcast.  Cached weights never change the result. *)
Theorem compute_expectation_direct_spec costs st :
  reachable st →
  ∃ st', compute_expectation costs false st =
           (direct_expectation (heap st) (self st) costs, st').
Proof.
  intros Hinv%reachable_dice_inv. unfold compute_expectation, direct_expectation.
  apply direct_run, Hinv.
Qed.

(** ** No sequential enumeration, no denominator *)

Lemma not_upstream_denominators_nil d T :
  (∀ o x, (o, x) ∈ log_denom d → o ⊆ T) → not_upstream_denominators d T = [].
Proof.
  intros Hall. unfold not_upstream_denominators.
  induction (log_denom d) as [|[o x] l IH]; [done|].
  rewrite filter_cons. cbn. rewrite decide_False.
  - apply IH. intros o' x' Hin. apply (Hall o' x'). by right.
  - intros Hn. apply Hn, (Hall o x). by left.
Qed.


(** ** The result is a scalar *)

Lemma masked_sum_scalar prob (cost r : tensor F) :
  masked_sum prob cost = Ok r → shape r = [] ∧ length (data r) = 1.
Proof.
  unfold masked_sum, mbind, outcome_bind, fmap, outcome_fmap.
  destruct prob as [x|p]; [by intros [= <-]|].
  destruct (mask_all _).
  - destruct (tmul p cost); [by intros [= <-]|done].
  - destruct (of_option _ _); [|done]. destruct (tmul _ _); [by intros [= <-]|done].
Qed.

Lemma py_add_scalar acc (t : tensor F) r :
  is_scalar acc → shape t = [] → length (data t) = 1 →
  py_add acc (Tens t) = Ok r → is_scalar r.
Proof.
  intros Hacc Hs Hl. destruct acc as [x|a]; cbn.
  - intros [= <-]. cbn. by rewrite length_fmap.
  - destruct Hacc as [Ha _]. unfold tadd, tmap2.
    rewrite Ha, Hs, broadcast_shapes_diag.
    unfold fmap, outcome_fmap, mbind, outcome_bind. cbn [of_option].
    by intros [= <-].
Qed.

Lemma accumulate_scalar acc prob (cost : tensor F) r :
  is_scalar acc → accumulate acc prob cost = Ok r → is_scalar r.
Proof.
  intros Hacc. unfold accumulate, mbind, outcome_bind.
  destruct (masked_sum prob cost) as [t|e] eqn:Ht; [|done].
  apply masked_sum_scalar in Ht as [Hs Hl]. by apply py_add_scalar.
Qed.

Lemma fold_outcome_preserves {A B} (P : B → Prop) (body : B → A → outcome B)
    xs acc r :
  (∀ b a r, P b → body b a = Ok r → P r) →
  P acc → fold_outcome body xs acc = Ok r → P r.
Proof.
  intros Hbody. revert acc. induction xs as [|x xs IH]; intros acc Hacc.
  - by intros [= <-].
  - rewrite MultiFrameTensorFacts.fold_outcome_cons.
    destruct (body acc x) as [acc'|e] eqn:Hb; [|done]. apply IH. by eapply Hbody.
Qed.

Lemma fold_py_result {S A B} (P : B → Prop) (body : B → A → py S B) xs acc s r s' :
  (∀ b a s r s', P b → body b a s = (Ok r, s') → P r) →
  P acc → fold_py body xs acc s = (Ok r, s') → P r.
Proof.
  intros Hbody. revert acc s. induction xs as [|x xs IH]; intros acc s Hacc.
  - rewrite fold_py_nil. by intros [= <- <-].
  - rewrite fold_py_cons. destruct (body acc x s) as [[acc'|e] s1] eqn:Hb; [|done].
    apply IH. by eapply Hbody.
Qed.

(** Property X14.  Whenever [compute_expectation] returns, on either branch, what it
    returns is a scalar: a number, or a tensor of shape () with one entry; so
    [torch_item] of the result returns and never raises. *)
Theorem compute_expectation_scalar costs use_einsum st r st' :
  compute_expectation costs use_einsum st = (Ok r, st') →
  is_scalar r ∧ ∃ x, torch_item r = Ok x.
Proof.
  intros Hrun. assert (is_scalar r) as Hr.
  { destruct use_einsum.
    - rewrite compute_expectation_einsum in Hrun.
      destruct (fold_py exp_ordinal _ _ st) as [[tables|e] st1]; [|done].
      injection Hrun as Hrun _. revert Hrun.
      apply fold_outcome_preserves; [|done].
      intros b [o terms] r' Hb. unfold einsum_ordinal.
      apply fold_outcome_preserves; [|done].
      intros b' c r'' Hb'. unfold einsum_cost, mbind, outcome_bind.
      destruct (sumproduct _ _); [|done]. by apply accumulate_scalar.
    - revert Hrun. unfold compute_expectation. apply fold_py_result; [|done].
      intros b [o terms] s r' s' Hb. rewrite direct_ordinal_eq.
      destruct (py_sum terms) as [[x|c]|e]; [done| |done].
      destruct (in_context (shape c) o s) as [[p|e] s1]; [|done].
      intros [= Hacc _]. by eapply accumulate_scalar. }
  split; [done|]. destruct r as [x|t]; [by exists x|].
  destruct Hr as [_ Hl]. cbn. destruct (data t) as [|e [|??]]; try done. by eexists.
Qed.

(** ** When the constructor raises *)

Lemma for_each_cons {S A} (body : A → py S unit) x xs s :
  for_each (x :: xs) body s =
    match body x s with
    | (Ok _, s') => for_each xs body s'
    | (Raise e, s') => (Raise e, s')
    end.
Proof. reflexivity. Qed.

Lemma minus_detached_ok (t : tensor F) : ∃ r, minus_detached (Tens t) = Ok (Tens r).
Proof.
  cbn. unfold tsub, tmap2. cbn. rewrite broadcast_shapes_diag. cbn. by eexists.
Qed.

Lemma init_site_ok_iff ordering name s h k st :
  heap st = h ++ k →
  (type s = "sample" → is_Some (h !! score_function s)) →
  (∃ st', init_site ordering (name, s) st = (Ok tt, st')) ↔
  site_ok h ordering (name, s) = true.
Proof.
  intros Hh Hlive. unfold site_ok. cbn [fst snd].
  destruct (decide (type s = "sample")) as [Hty|Hty].
  2:{ rewrite (init_site_not_sample _ _ _ _ Hty).
      apply String.eqb_neq in Hty as ->. cbn. split; [done|by eexists]. }
  destruct (Hlive Hty) as [lp Hlp]. rewrite Hlp.
  assert (heap st !! score_function s = Some lp) as Hlp'.
  { rewrite Hh. by apply lookup_app_l_Some. }
  rewrite (init_site_sample _ _ _ _ _ Hty Hlp').
  apply String.eqb_eq in Hty as ->. cbn [negb].
  destruct (is_identically_zero lp) eqn:Hz; [split; [done|by eexists]|].
  destruct (ordering !! name) as [o|].
  2:{ rewrite bool_decide_eq_false_2 by (by intros [??]). cbn.
      split; [by intros [? [=]]|done]. }
  rewrite bool_decide_eq_true_2 by done. cbn [andb].
  destruct (default false _).
  - destruct (decide _) as [Hseq|Hseq]; [|split; [done|by eexists]].
    destruct (infer s !! "_enum_total") as [total|]; [|split; [by intros [? [=]]|done]].
    destruct (math_log total); split; try done; [by eexists|by intros [? [=]]].
  - destruct lp as [x|t].
    + cbn. split; [by intros [? [=]]|done].
    + destruct (minus_detached_ok t) as [r ->]. split; [done|by eexists].
Qed.

Lemma init_run_ok_iff ordering h trace k st :
  heap st = h ++ k →
  (∀ name s, (name, s) ∈ trace → type s = "sample" →
     is_Some (h !! score_function s)) →
  (∃ st', for_each trace (init_site ordering) st = (Ok tt, st')) ↔
  Forall (λ node, site_ok h ordering node = true) trace.
Proof.
  revert k st. induction trace as [|[name s] trace IH]; intros k st Hh Hlive.
  - split; [by constructor|]. intros _. by eexists.
  - rewrite for_each_cons, Forall_cons.
    rewrite <- (init_site_ok_iff ordering name s h k st Hh)
      by (apply (Hlive name); by left).
    destruct (init_site ordering (name, s) st) as [[[]|e] st1] eqn:Hsite.
    + pose proof Hsite as ([k1 Hk1] & _)%init_site_frame.
      rewrite (IH (k ++ k1) st1).
      * split; [by intros ?; split; [eexists|]|by intros [_ ?]].
      * by rewrite Hk1, Hh, app_assoc.
      * intros name' s' Hin. apply (Hlive name'). by right.
    + split; [by intros [? [=]]|by intros [[? [=]] _]].
Qed.

(** Property X15.  Over a heap that holds the score-function term of every sample site,
    the constructor returns an object exactly when no site of the trace, taken
    by itself, makes the loop body raise: every sample site whose term is not
    identically zero has its name in [ordering], has a positive integer (or
    True) under [_enum_total] when its enumerate value is "sequential", and has
    a tensor as its term when its enumerate value is missing or false.  What
    earlier sites did never makes a later site raise or pass. *)
Theorem init_succeeds_iff trace ordering h :
  (∀ name s, (name, s) ∈ trace → type s = "sample" →
     is_Some (h !! score_function s)) →
  (∃ st, __init__ trace ordering h = (Ok tt, st)) ↔
  Forall (λ node, site_ok h ordering node = true) trace.
Proof.
  intros Hlive. unfold __init__.
  apply (init_run_ok_iff ordering h trace []); [by rewrite app_nil_r|done].
Qed.

Lemma init_site_skip ordering node h k st :
  heap st = h ++ k → contributes h node = false →
  init_site ordering node st = (Ok tt, st).
Proof.
  destruct node as [name s]. intros Hh Hc. unfold contributes in Hc.
  cbn [fst snd] in Hc.
  destruct (decide (type s = "sample")) as [Hty|Hty].
  2:{ by apply init_site_not_sample. }
  pose proof Hty as Heq%String.eqb_eq. rewrite Heq in Hc. cbn [andb] in Hc.
  destruct (h !! score_function s) as [lp|] eqn:Hlp; cbn in Hc; [|done].
  apply negb_false_iff in Hc.
  rewrite (init_site_sample _ _ _ _ lp Hty); [by rewrite Hc|].
  rewrite Hh. by apply lookup_app_l_Some.
Qed.

Lemma init_run_skip ordering h trace k st :
  heap st = h ++ k →
  for_each trace (init_site ordering) st =
  for_each (filter (λ node, contributes h node = true) trace) (init_site ordering) st.
Proof.
  revert k st. induction trace as [|node trace IH]; intros k st Hh; [done|].
  rewrite filter_cons. destruct (decide (contributes h node = true)) as [Hc|Hc].
  - rewrite !for_each_cons.
    destruct (init_site ordering node st) as [[[]|e] st1] eqn:Hsite; [|done].
    apply init_site_frame in Hsite as ([k1 Hk1] & _).
    apply (IH (k ++ k1)). by rewrite Hk1, Hh, app_assoc.
  - apply not_true_is_false in Hc.
    rewrite for_each_cons, (init_site_skip _ _ h k st Hh Hc). by apply (IH k).
Qed.

(** Property X16.  The constructor sees only the contributing sites: removing from the
    trace every site that is not a sample site, and every sample site whose
    score-function term is identically zero, changes neither the object built
    nor the exception raised. *)
Theorem init_skips_sites trace ordering h :
  __init__ trace ordering h =
  __init__ (filter (λ node, contributes h node = true) trace) ordering h.
Proof. unfold __init__. apply (init_run_skip ordering h trace []). by rewrite app_nil_r. Qed.

(** ** What the constructor builds *)

Lemma init_site_dicts ordering node st r st' :
  init_site ordering node st = (r, st') →
  ((∀ o, is_Some (dict_get (log_denom (self st)) o) →
         is_Some (dict_get (log_probs (self st)) o)) →
   (∀ o, is_Some (dict_get (log_denom (self st')) o) →
         is_Some (dict_get (log_probs (self st')) o))) ∧
  (NoDup (log_probs (self st)).*1 → NoDup (log_probs (self st')).*1) ∧
  (NoDup (log_denom (self st)).*1 → NoDup (log_denom (self st')).*1) ∧
  ((∀ o terms, (o, terms) ∈ log_probs (self st) → terms ≠ []) →
   (∀ o terms, (o, terms) ∈ log_probs (self st') → terms ≠ [])).
Proof.
  intros [->|(o & d' & k & l & -> & _ & Hd')]%init_site_cases; [done|].
  assert (log_probs d' = log_probs (self st)) as Hp.
  { by destruct Hd' as [->|[x ->]]. }
  cbn [self log_probs log_denom probs_append]. rewrite Hp.
  split; [|split; [|split]].
  - intros Hsub o'. rewrite dict_get_set.
    destruct (decide (o = o')) as [->|Hne]; [by eexists|].
    intros Ho'. apply Hsub. destruct Hd' as [->|[x ->]]; [done|].
    cbn in Ho'. rewrite dict_get_set in Ho'.
    by rewrite decide_False in Ho'.
  - apply MultiFrameTensorMore.dict_set_NoDup.
  - destruct Hd' as [->|[x ->]]; [done|]. apply MultiFrameTensorMore.dict_set_NoDup.
  - intros Hne o' terms [[= -> ->]|Hin]%elem_of_dict_set.
    + by destruct (default [] _).
    + by eapply Hne.
Qed.

(** Property X17.  An object the constructor returns has both caches empty, has left
    every object of the trace in place, and holds well-formed dicts: every
    log-weight term is a live object, no ordinal has an empty list of terms,
    every ordinal with a log-denominator also has terms, and no ordinal is
    listed twice. *)
Theorem init_establishes trace ordering h st :
  __init__ trace ordering h = (Ok tt, st) →
  _log_factors_cache (self st) = ∅ ∧ _prob_cache (self st) = ∅ ∧
  (∃ k, heap st = h ++ k) ∧
  (∀ o terms l, (o, terms) ∈ log_probs (self st) → l ∈ terms →
     is_Some (heap st !! l)) ∧
  (∀ o terms, (o, terms) ∈ log_probs (self st) → terms ≠ []) ∧
  (∀ o, is_Some (dict_get (log_denom (self st)) o) →
        is_Some (dict_get (log_probs (self st)) o)) ∧
  NoDup (log_probs (self st)).*1 ∧ NoDup (log_denom (self st)).*1.
Proof.
  intros Hrun. pose proof Hrun as (Hk & Hl & Hp)%init_run_frame.
  split; [done|]. split; [done|]. split; [done|].
  split; [by eapply init_terms_live|].
  revert Hrun. unfold __init__.
  apply (for_each_preserves (λ s,
    (∀ o terms, (o, terms) ∈ log_probs (self s) → terms ≠ []) ∧
    (∀ o, is_Some (dict_get (log_denom (self s)) o) →
          is_Some (dict_get (log_probs (self s)) o)) ∧
    NoDup (log_probs (self s)).*1 ∧ NoDup (log_denom (self s)).*1)).
  - intros node s r s' (H1 & H2 & H3 & H4) (G2 & G3 & G4 & G1)%init_site_dicts.
    split; [by apply G1|]. split; [by apply G2|]. split; [by apply G3|by apply G4].
  - cbn. split; [by intros ?? ?%elem_of_nil|]. split; [by intros ? [??]|].
    split; constructor.
Qed.

(** ** An empty cost list *)

(** Property X18.  With [use_einsum=False], a cost dict in which some ordinal has an
    empty list of cost terms makes [compute_expectation] raise, whatever the
    state: [sum([])] is the int 0, which has no [shape]. *)
Theorem compute_expectation_direct_empty_raises costs o st :
  (o, []) ∈ costs →
  ∃ e st', compute_expectation costs false st = (Raise e, st').
Proof.
  unfold compute_expectation. generalize (Num zero : pyobj F). revert st.
  induction costs as [|[o' terms] costs IH]; intros st acc Hin.
  - by apply elem_of_nil in Hin.
  - rewrite fold_py_cons.
    apply elem_of_cons in Hin as [[= <- <-]|Hin].
    + rewrite direct_ordinal_eq. cbn. by eexists _, _.
    + destruct (direct_ordinal acc (o', terms) st) as [[acc'|e] st1];
        [by apply IH|by eexists _, _].
Qed.

(** ** Where the two branches agree *)

Lemma exp_factors_fresh o ls os st
    (exp_table : gmap loc (pyobj F)) (factors_table : gmap (gset Frame) (list (pyobj F))) :
  NoDup ls → (∀ l, l ∈ ls → exp_table !! l = None) →
  Forall2 (λ l v, heap st !! l = Some v) ls os →
  ∃ tables,
    fold_py (exp_factor o) ls (exp_table, factors_table) st = (Ok tables, st) ∧
    default [] (tables.2 !! o) =
      default [] (factors_table !! o) ++ (torch_exp <$> os).
Proof.
  intros Hnd Hfresh Hall. revert exp_table factors_table Hnd Hfresh.
  induction Hall as [|l v ls os Hl _ IH]; intros exp_table factors_table Hnd Hfresh.
  - eexists. rewrite fold_py_nil. split; [done|]. cbn. by rewrite app_nil_r.
  - rewrite fold_py_cons, (exp_factor_new _ _ _ _ v); [|apply Hfresh; by left|done].
    apply NoDup_cons in Hnd as [Hnotin Hnd].
    destruct (IH (<[l := torch_exp v]> exp_table)
                 (<[o := default [] (factors_table !! o) ++ [torch_exp v]]> factors_table)
                 Hnd) as (tables & -> & Ht).
    + intros l' Hl'. rewrite lookup_insert_ne by (intros ->; done).
      apply Hfresh. by right.
    + exists tables. split; [done|]. rewrite Ht, lookup_insert_eq. cbn.
      by rewrite <- app_assoc.
Qed.

Lemma tmap_add_zero `{!ScalarAddLaws F} (c : tensor F) :
  tmap (dadd (of_num zero)) c = c.
Proof.
  destruct c as [sh xs]. unfold tmap. cbn. f_equal.
  induction xs as [|[v t] xs IH]; [done|]. cbn. rewrite IH. f_equal.
  unfold dadd. cbn. by rewrite !add_zero_l.
Qed.

(** Property X19.  For a single ordinal that has not been asked for yet, with a single
    cost term whose shape has no leading axis of extent one, and log-weight
    terms that are pairwise distinct objects, the two branches of
    [compute_expectation] return the same result or raise the same exception
    (with 0 + x = x on scalars, for the [sum] of the one cost term). *)
Theorem compute_expectation_single_agree `{!ScalarAddLaws F} o (c : tensor F) st :
  reachable st →
  _log_factors_cache (self st) !! o = None →
  NoDup (upstream_terms (self st) o) →
  head (shape c) ≠ Some 1 →
  (compute_expectation [(o, [c])] true st).1 =
  (compute_expectation [(o, [c])] false st).1.
Proof.
  intros Hinv%reachable_dice_inv Hmiss Hnd Hhead.
  pose proof Hinv as (Hc & Hlive & Hp).
  destruct (direct_run [(o, [c])] (Num zero) st Hinv) as (st' & Hdirect).
  unfold compute_expectation at 2. rewrite Hdirect. cbn [fst].
  rewrite MultiFrameTensorFacts.fold_outcome_cons, direct_cost_eq.
  unfold py_sum. rewrite MultiFrameTensorFacts.fold_outcome_cons.
  cbn [py_add fold_outcome]. rewrite tmap_add_zero.
  destruct (terms_live_values (heap st) (self st) o) as [vs Hvs]; [by destruct st|].
  set (s := sum_list (not_upstream_denominators (self st) o)) in *.
  assert (∃ l st1 os,
    _get_log_factors o st = (Ok l, st1) ∧ NoDup l ∧
    Forall2 (λ l v, heap st1 !! l = Some v) l os ∧
    log_factor_values (heap st) (self st) o = Some os) as (l & st1 & os & Hget & Hndl & Hall & Hos).
  { rewrite (get_log_factors_miss _ _ Hmiss). cbn zeta. fold s.
    unfold log_factor_values. rewrite Hvs. cbn. fold s.
    apply mapM_Some in Hvs. destruct (is_zero s).
    - eexists _, _, _. split; [done|]. split; [done|]. split; [|done]. done.
    - eexists _, _, _. split; [done|]. split; [|split; [|done]].
      + apply NoDup_cons. split; [|done]. intros Hin.
        unfold upstream_terms in Hin.
        apply list_elem_of_join in Hin as (terms & Hl & Ht).
        apply list_elem_of_fmap in Ht as ([o' terms'] & -> & Ht).
        apply list_elem_of_filter in Ht as [_ Ht].
        destruct (Hlive o' terms' _ Ht Hl) as [x Hx].
        apply lookup_lt_Some in Hx. lia.
      + cbn. constructor.
        * by rewrite lookup_app_r, Nat.sub_diag by lia.
        * eapply Forall2_impl; [exact Hvs|]. intros l' v Hv. cbn in Hv.
          by apply lookup_app_l_Some. }
  unfold weight. rewrite Hos. cbn [of_option].
  rewrite (MultiFrameTensorMore.strip_leading_ones_id (shape c))
    by (unfold MultiFrameTensor.no_leading_one; exact Hhead).
  rewrite compute_expectation_einsum. cbn [fmap list_fmap fst].
  rewrite fold_py_cons, exp_ordinal_eq, Hget.
  destruct (exp_factors_fresh o l os st1 ∅ ∅ Hndl) as (tables & -> & Ht); [done|done|].
  rewrite fold_py_nil. cbn [fst].
  rewrite MultiFrameTensorFacts.fold_outcome_cons. unfold einsum_ordinal.
  rewrite Ht, lookup_empty. cbn [default app].
  rewrite MultiFrameTensorFacts.fold_outcome_cons. unfold einsum_cost.
  unfold mbind, outcome_bind. cbn [fold_outcome].
  destruct (sumproduct (torch_exp <$> os) (shape c)) as [p|e]; [|done].
  by destruct (accumulate (Num zero) p c).
Qed.

End with_scalar.

Import Examples.

Lemma parallel_state_reachable : reachable parallel_state.
Proof.
  apply (reachable_init [("z", site_parallel)] ordering_z trace_heap).
  vm_compute. reflexivity.
Qed.

Lemma sequential_state_reachable : reachable sequential_state.
Proof.
  apply (reachable_init [("z", site_sequential)] {[ "z" := ordinal_B ]} trace_heap).
  vm_compute. reflexivity.
Qed.

Lemma methods_only_extend_witness :
  ∃ st',
    rtc call parallel_state st' ∧
    log_denom (self st') = log_denom (self parallel_state) ∧
    log_probs (self st') = log_probs (self parallel_state) ∧
    (∀ l x, heap parallel_state !! l = Some x → heap st' !! l = Some x) ∧
    (∀ T l, _log_factors_cache (self parallel_state) !! T = Some l →
            _log_factors_cache (self st') !! T = Some l) ∧
    (∀ k p, _prob_cache (self parallel_state) !! k = Some p →
            _prob_cache (self st') !! k = Some p).
Proof.
  destruct (compute_expectation costs_AB false parallel_state) as [r st'] eqn:Hrun.
  assert (rtc call parallel_state st') as Hcalls.
  { apply rtc_once.
    exact (call_compute_expectation costs_AB false parallel_state r st' Hrun). }
  exists st'. split; [exact Hcalls|].
  exact (methods_only_extend parallel_state st' Hcalls).
Defined.

Lemma get_log_factors_memo_witness :
  ∃ st1 st2,
    _get_log_factors ordinal_B parallel_state = (Ok [0], st1) ∧
    rtc call st1 st2 ∧
    _get_log_factors ordinal_B st2 = (Ok [0], st2).
Proof.
  assert ((_get_log_factors ordinal_B parallel_state).1 = Ok [0]) as Hres.
  { vm_compute. reflexivity. }
  destruct (_get_log_factors ordinal_B parallel_state) as [r st1] eqn:Hrun.
  cbn [fst] in Hres. subst r.
  destruct (in_context [] ordinal_A st1) as [r st2] eqn:Hctx.
  assert (rtc call st1 st2) as Hcalls.
  { apply rtc_once. exact (call_in_context [] ordinal_A st1 r st2 Hctx). }
  exists st1, st2. split; [reflexivity|]. split; [exact Hcalls|].
  exact (get_log_factors_memo ordinal_B parallel_state [0] st1 st2 Hrun Hcalls).
Defined.

Lemma in_context_memo_witness :
  ∃ st1 st2,
    in_context [] ordinal_A parallel_state =
      (Ok (Tens (Tensor [] [Dual 2 2]%Z)), st1) ∧
    rtc call st1 st2 ∧
    in_context (replicate 2 1 ++ []) ordinal_A st2 =
      (Ok (Tens (Tensor [] [Dual 2 2]%Z)), st2).
Proof.
  assert ((in_context [] ordinal_A parallel_state).1 =
            Ok (Tens (Tensor [] [Dual 2 2]%Z))) as Hres.
  { vm_compute. reflexivity. }
  destruct (in_context [] ordinal_A parallel_state) as [r st1] eqn:Hrun.
  cbn [fst] in Hres. subst r.
  destruct (_get_log_factors ordinal_B st1) as [r st2] eqn:Hget.
  assert (rtc call st1 st2) as Hcalls.
  { apply rtc_once. exact (call_get_log_factors ordinal_B st1 r st2 Hget). }
  exists st1, st2. split; [reflexivity|]. split; [exact Hcalls|].
  exact (in_context_memo [] ordinal_A parallel_state
           (Tens (Tensor [] [Dual 2 2]%Z)) st1 st2 2 Hrun Hcalls).
Defined.

Lemma in_context_spec_witness :
  reachable parallel_state ∧
  ∃ st', in_context [2] ordinal_B parallel_state =
           (weight (heap parallel_state) (self parallel_state) [2] ordinal_B, st').
Proof.
  split; [exact parallel_state_reachable|].
  exact (in_context_spec [2] ordinal_B parallel_state parallel_state_reachable).
Defined.

Lemma compute_expectation_direct_spec_witness :
  reachable parallel_state ∧
  ∃ st', compute_expectation costs_AB false parallel_state =
           (direct_expectation (heap parallel_state) (self parallel_state) costs_AB, st').
Proof.
  split; [exact parallel_state_reachable|].
  exact (compute_expectation_direct_spec costs_AB parallel_state
           parallel_state_reachable).
Defined.


Lemma compute_expectation_scalar_witness :
  ∃ st',
    compute_expectation costs_AB true parallel_state =
      (Ok (Tens (Tensor [] [Dual 11 6]%Z)), st') ∧
    is_scalar (Tens (Tensor [] [Dual 11 6]%Z) : pyobj Z) ∧
    ∃ x, torch_item (Tens (Tensor [] [Dual 11 6]%Z) : pyobj Z) = Ok x.
Proof.
  assert ((compute_expectation costs_AB true parallel_state).1 =
            Ok (Tens (Tensor [] [Dual 11 6]%Z))) as Hres.
  { vm_compute. reflexivity. }
  destruct (compute_expectation costs_AB true parallel_state) as [r st'] eqn:Hrun.
  cbn [fst] in Hres. subst r.
  exists st'. split; [reflexivity|].
  exact (compute_expectation_scalar costs_AB true parallel_state
           (Tens (Tensor [] [Dual 11 6]%Z)) st' Hrun).
Defined.

Lemma init_succeeds_iff_witness :
  (∀ name s, (name, s) ∈ mixed_trace → type s = "sample" →
     is_Some (trace_heap !! score_function s)) ∧
  ((∃ st, __init__ mixed_trace ordering_z trace_heap = (Ok tt, st)) ↔
   Forall (λ node, site_ok trace_heap ordering_z node = true) mixed_trace).
Proof.
  assert (∀ name s, (name, s) ∈ mixed_trace → type s = "sample" →
            is_Some (trace_heap !! score_function s)) as Hlive.
  { intros name s Hin _. apply elem_of_cons in Hin as [Hin|Hin].
    - injection Hin as _ ->. eexists. reflexivity.
    - apply list_elem_of_singleton in Hin. injection Hin as _ ->.
      eexists. reflexivity. }
  split; [exact Hlive|].
  exact (init_succeeds_iff mixed_trace ordering_z trace_heap Hlive).
Defined.

Lemma init_establishes_witness :
  __init__ [("z", site_sequential)] {[ "z" := ordinal_B ]} trace_heap =
    (Ok tt, sequential_state) ∧
  _log_factors_cache (self sequential_state) = ∅ ∧
  _prob_cache (self sequential_state) = ∅ ∧
  (∃ k, heap sequential_state = trace_heap ++ k) ∧
  (∀ o terms l, (o, terms) ∈ log_probs (self sequential_state) → l ∈ terms →
     is_Some (heap sequential_state !! l)) ∧
  (∀ o terms, (o, terms) ∈ log_probs (self sequential_state) → terms ≠ []) ∧
  (∀ o, is_Some (dict_get (log_denom (self sequential_state)) o) →
        is_Some (dict_get (log_probs (self sequential_state)) o)) ∧
  NoDup (log_probs (self sequential_state)).*1 ∧
  NoDup (log_denom (self sequential_state)).*1.
Proof.
  assert (__init__ [("z", site_sequential)] {[ "z" := ordinal_B ]} trace_heap =
            (Ok tt, sequential_state)) as Hrun.
  { vm_compute. reflexivity. }
  split; [exact Hrun|].
  exact (init_establishes [("z", site_sequential)] {[ "z" := ordinal_B ]}
           trace_heap sequential_state Hrun).
Defined.

Lemma compute_expectation_direct_empty_raises_witness :
  (ordinal_B, []) ∈ costs_empty_B ∧
  ∃ e st', compute_expectation costs_empty_B false parallel_state = (Raise e, st').
Proof.
  assert ((ordinal_B, []) ∈ costs_empty_B) as Hin.
  { apply elem_of_cons. right. apply list_elem_of_singleton. reflexivity. }
  split; [exact Hin|].
  exact (compute_expectation_direct_empty_raises costs_empty_B ordinal_B
           parallel_state Hin).
Defined.

Lemma compute_expectation_single_agree_witness :
  reachable parallel_state ∧
  _log_factors_cache (self parallel_state) !! ordinal_B = None ∧
  NoDup (upstream_terms (self parallel_state) ordinal_B) ∧
  head (shape cost_34) ≠ Some 1 ∧
  (compute_expectation [(ordinal_B, [cost_34])] true parallel_state).1 =
  (compute_expectation [(ordinal_B, [cost_34])] false parallel_state).1.
Proof.
  assert (_log_factors_cache (self parallel_state) !! ordinal_B = None) as Hmiss.
  { vm_compute. reflexivity. }
  assert (NoDup (upstream_terms (self parallel_state) ordinal_B)) as Hnd.
  { assert (upstream_terms (self parallel_state) ordinal_B = [0]) as ->
      by (vm_compute; reflexivity).
    apply NoDup_singleton. }
  assert (head (shape cost_34) ≠ Some 1) as Hhead.
  { intros Heq. vm_compute in Heq. discriminate Heq. }
  split; [exact parallel_state_reachable|]. split; [exact Hmiss|].
  split; [exact Hnd|]. split; [exact Hhead|].
  exact (compute_expectation_single_agree ordinal_B cost_34 parallel_state
           parallel_state_reachable Hmiss Hnd Hhead).
Defined.

End DiceMore.
(** * Facts about the module-level helpers *)

Module UtilFacts.
Import Util.
Section with_scalar.
Context {F : Type} `{Scalar F}.
Implicit Types (st : state F).

(** ** [detach_iterable] *)

(** Property X20.  [detach_iterable] keeps the number of tensors, the shape and the
    values of each, and leaves no derivative in any entry; detaching what is
    already detached changes nothing. *)
Theorem detach_iterable_detached (it : iterable F) :
  detach_iterable (detach_iterable it) = detach_iterable it ∧
  Forall2 (λ t t', shape t' = shape t ∧ val <$> data t' = val <$> data t ∧
                   Forall (λ e, tan e = zero) (data t'))
    (tensors_of it) (tensors_of (detach_iterable it)).
Proof.
  assert (∀ t : tensor F, tdetach (tdetach t) = tdetach t) as Hidem.
  { intros t. unfold tdetach, tmap. cbn. f_equal. rewrite <- list_fmap_compose.
    by apply list_fmap_ext. }
  assert (∀ t : tensor F,
    shape (tdetach t) = shape t ∧ val <$> data (tdetach t) = val <$> data t ∧
    Forall (λ e, tan e = zero) (data (tdetach t))) as Hone.
  { intros t. split; [done|]. cbn. split.
    - rewrite <- list_fmap_compose. by apply list_fmap_ext.
    - apply Forall_fmap, Forall_true. done. }
  destruct it as [t|ts]; cbn.
  - split; [by rewrite Hidem|]. constructor; [apply Hone|constructor].
  - split.
    + f_equal. rewrite <- list_fmap_compose. apply list_fmap_ext.
      intros i t _. apply Hidem.
    + induction ts as [|t ts IH]; constructor; [apply Hone|apply IH].
Qed.

(** ** [zero_grads] *)

Lemma zero_grads_cons p tensors st :
  zero_grads (p :: tensors) st =
    match zero_grad p st with
    | (Ok _, st') => zero_grads tensors st'
    | (Raise e, st') => (Raise e, st')
    end.
Proof. reflexivity. Qed.

(** Property X21.  Over parameters that exist, [zero_grads] returns; it writes to no
    tensor that existed before the call (a gradient is replaced, not zeroed in
    place); it leaves a parameter without gradient, and a parameter that is
    not listed, as they were; and each listed parameter with a gradient ends
    up with a new tensor of zeros of the parameter's shape as its gradient. *)
Theorem zero_grads_spec tensors st :
  Forall (λ p, p < length (params st)) tensors →
  ∃ st',
    zero_grads tensors st = (Ok tt, st') ∧
    (∃ k, heap st' = heap st ++ k) ∧
    length (params st') = length (params st) ∧
    ∀ l p, params st !! l = Some p →
      ∃ p', params st' !! l = Some p' ∧ pshape p' = pshape p ∧
        match grad p with
        | None => grad p' = None
        | Some g =>
            if decide (l ∈ tensors) then
              ∃ g', grad p' = Some g' ∧ length (heap st) ≤ g' ∧
                    heap st' !! g' = Some (zeros (pshape p))
            else grad p' = Some g
        end.
Proof.
  revert st. induction tensors as [|t ts IH]; intros st Hbound.
  - exists st. split; [done|]. split; [exists []; by rewrite app_nil_r|].
    split; [done|]. intros l p Hp. exists p. split; [done|]. split; [done|].
    destruct (grad p); [|done]. rewrite decide_False; [done|]. apply not_elem_of_nil.
  - apply Forall_cons in Hbound as [Ht Hbound].
    destruct (lookup_lt_is_Some_2 _ _ Ht) as [x Hx].
    rewrite zero_grads_cons. unfold zero_grad, loc in *. rewrite Hx.
    destruct (grad x) as [g0|] eqn:Hg0.
    + set (st1 := State (heap st ++ [zeros (pshape x)])
                    (<[t := Param (pshape x) (Some (length (heap st)))]> (params st))).
      destruct (IH st1) as (st' & Hrun & [k Hk] & Hlen & Hspec).
      { cbn. by rewrite length_insert. }
      subst st1. cbn [heap params] in *. rewrite length_insert in Hlen.
      exists st'. split; [done|].
      split; [exists ([zeros (pshape x)] ++ k); by rewrite Hk, <- app_assoc|].
      split; [done|].
      intros l p Hp. destruct (decide (l = t)) as [->|Hne].
      * rewrite Hx in Hp. injection Hp as <-. rewrite Hg0.
        destruct (Hspec t (Param (pshape x) (Some (length (heap st)))))
          as (p' & Hp' & Hsh & Hgrad).
        { cbn. by rewrite list_lookup_insert_eq. }
        exists p'. split; [done|]. split; [done|].
        rewrite decide_True by (by left). cbn in Hgrad.
        destruct (decide (t ∈ ts)).
        -- destruct Hgrad as (g' & Hg' & Hle & Hz). exists g'.
           split; [done|]. split; [|done]. cbn in Hle. rewrite length_app in Hle. lia.
        -- exists (length (heap st)). split; [done|]. split; [done|].
           rewrite Hk. cbn. apply lookup_app_l_Some.
           by rewrite lookup_app_r, Nat.sub_diag by lia.
      * destruct (Hspec l p) as (p' & Hp' & Hsh & Hgrad).
        { cbn. by rewrite list_lookup_insert_ne. }
        exists p'. split; [done|]. split; [done|].
        destruct (grad p) as [g|]; [|done].
        destruct (decide (l ∈ ts)) as [Hin|Hin].
        -- rewrite decide_True by (by right).
           destruct Hgrad as (g' & Hg' & Hle & Hz). exists g'.
           split; [done|]. split; [|done]. cbn in Hle. rewrite length_app in Hle. lia.
        -- rewrite decide_False; [done|]. by intros [?|?]%elem_of_cons.
    + destruct (IH st Hbound) as (st' & Hrun & Hk & Hlen & Hspec).
      exists st'. split; [done|]. split; [done|]. split; [done|].
      intros l p Hp. destruct (Hspec l p Hp) as (p' & Hp' & Hsh & Hgrad).
      exists p'. split; [done|]. split; [done|].
      destruct (grad p) as [g|] eqn:Hg; [|done].
      destruct (decide (l ∈ ts)) as [Hin|Hin].
      * by rewrite decide_True by (by right).
      * rewrite decide_False; [done|]. intros [->|?]%elem_of_cons; [|done].
        congruence.
Qed.

(** ** [get_iarange_stacks] *)

Lemma get_iarange_stacks_fold trace (stacks : list (string * list Frame)) name :
  NoDup trace.*1 →
  dict_get
    (foldl (λ stacks '(name, node),
              if String.eqb (type node) "sample" && negb (is_subsample node)
              then dict_set stacks name
                     (filter (λ f, vectorized f = true) (cond_indep_stack node))
              else stacks)
           stacks trace) name =
  match dict_get trace name with
  | Some node =>
      if String.eqb (type node) "sample" && negb (is_subsample node)
      then Some (filter (λ f, vectorized f = true) (cond_indep_stack node))
      else dict_get stacks name
  | None => dict_get stacks name
  end.
Proof.
  revert stacks. induction trace as [|[n0 node0] trace IH]; intros stacks Hnd; [done|].
  rewrite fmap_cons in Hnd. cbn [fst] in Hnd.
  apply NoDup_cons in Hnd as [Hfresh Hnd]. cbn [foldl dict_get].
  rewrite (IH _ Hnd). destruct (decide (n0 = name)) as [->|Hne].
  - apply MultiFrameTensorMore.dict_get_None_keys in Hfresh as ->.
    destruct (_ && _); [|done]. rewrite dict_get_set. by rewrite decide_True.
  - destruct (dict_get trace name) as [node|]; [destruct (String.eqb (type node) _ && _)|].
    + done.
    + destruct (_ && _); [|done]. rewrite dict_get_set. by rewrite decide_False.
    + destruct (_ && _); [|done]. rewrite dict_get_set. by rewrite decide_False.
Qed.

(** Property X22.  For a trace whose site names are distinct, the dict built by
    [get_iarange_stacks] has an entry for a name exactly when the site of
    that name is a sample site that is not a subsample site, and the entry is
    the site's stack restricted to its vectorized frames, in the order of the
    stack. *)
Theorem get_iarange_stacks_lookup trace name :
  NoDup trace.*1 →
  dict_get (get_iarange_stacks trace) name =
    match dict_get trace name with
    | Some node =>
        if String.eqb (type node) "sample" && negb (is_subsample node)
        then Some (filter (λ f, vectorized f = true) (cond_indep_stack node))
        else None
    | None => None
    end.
Proof. intros Hnd. unfold get_iarange_stacks. by rewrite get_iarange_stacks_fold. Qed.

Lemma get_iarange_stacks_origin trace (stacks : list (string * list Frame)) name stack :
  dict_get
    (foldl (λ stacks '(name, node),
              if String.eqb (type node) "sample" && negb (is_subsample node)
              then dict_set stacks name
                     (filter (λ f, vectorized f = true) (cond_indep_stack node))
              else stacks)
           stacks trace) name = Some stack →
  dict_get stacks name = Some stack ∨
  ∃ node, (name, node) ∈ trace ∧ type node = "sample" ∧ is_subsample node = false ∧
          stack = filter (λ f, vectorized f = true) (cond_indep_stack node).
Proof.
  revert stacks. induction trace as [|[n0 node0] trace IH]; intros stacks; [by left|].
  cbn [foldl]. intros [Hget|(node & Hin & ?)]%IH.
  - destruct (String.eqb (type node0) "sample" && negb (is_subsample node0)) eqn:Hkeep;
      [|by left].
    rewrite dict_get_set in Hget. destruct (decide (n0 = name)) as [->|Hne]; [|by left].
    injection Hget as <-. right. exists node0. split; [by left|].
    apply andb_prop in Hkeep as [Hty%String.eqb_eq Hsub%negb_true_iff]. done.
  - right. exists node. split; [by right|done].
Qed.

(** Property X23.  An entry of the dict built by [get_iarange_stacks] comes from a sample
    site of that name that is not a subsample site, holds vectorized frames
    only, and is as good a key for [MultiFrameTensor.add] as the site's whole
    stack: adding a tensor under the entry does what adding it under the
    site's [cond_indep_stack] does. *)
Theorem get_iarange_stacks_key trace name stack :
  dict_get (get_iarange_stacks trace) name = Some stack →
  ∃ node, (name, node) ∈ trace ∧ type node = "sample" ∧ is_subsample node = false ∧
    Forall (λ f, vectorized f = true) stack ∧
    ∀ value (st : MultiFrameTensor.state F),
      MultiFrameTensor.add_item (stack, value) st =
      MultiFrameTensor.add_item (cond_indep_stack node, value) st.
Proof.
  intros [Hget|(node & Hin & Hty & Hsub & ->)]%get_iarange_stacks_origin; [done|].
  exists node. split; [done|]. split; [done|]. split; [done|]. split.
  - apply Forall_forall. by intros f [? _]%list_elem_of_filter.
  - intros value st. unfold MultiFrameTensor.add_item.
    rewrite (MultiFrameTensorMore.frames_of_ext
               (filter (λ f, vectorized f = true) (cond_indep_stack node))
               (cond_indep_stack node)); [done|].
    intros f Hf. rewrite list_elem_of_filter. tauto.
Qed.

End with_scalar.

Import Examples.

Lemma zero_grads_spec_witness :
  Forall (λ p, p < length (params params_state)) [0; 1; 0] ∧
  ∃ st',
    zero_grads [0; 1; 0] params_state = (Ok tt, st') ∧
    (∃ k, heap st' = heap params_state ++ k) ∧
    length (params st') = length (params params_state).
Proof.
  assert (Forall (λ p, p < length (params params_state)) [0; 1; 0]) as Hbound.
  { repeat constructor. }
  split; [exact Hbound|].
  destruct (zero_grads_spec [0; 1; 0] params_state Hbound)
    as (st' & Hrun & Hk & Hlen & _).
  exists st'. split; [exact Hrun|]. split; [exact Hk|exact Hlen].
Defined.

Lemma get_iarange_stacks_lookup_witness :
  NoDup nodes_xyz.*1 ∧
  dict_get (get_iarange_stacks nodes_xyz) "x" = Some [frame_a] ∧
  dict_get (get_iarange_stacks nodes_xyz) "y" = None.
Proof.
  assert (NoDup nodes_xyz.*1) as Hnd.
  { apply (bool_decide_unpack _). vm_compute. exact I. }
  split; [exact Hnd|]. split.
  - etrans; [exact (get_iarange_stacks_lookup nodes_xyz "x" Hnd)|reflexivity].
  - etrans; [exact (get_iarange_stacks_lookup nodes_xyz "y" Hnd)|reflexivity].
Defined.

Lemma get_iarange_stacks_key_witness :
  dict_get (get_iarange_stacks nodes_xyz) "x" = Some [frame_a] ∧
  ∃ node, ("x", node) ∈ nodes_xyz ∧ type node = "sample" ∧
    is_subsample node = false ∧
    Forall (λ f, vectorized f = true) [frame_a] ∧
    ∀ value (st : MultiFrameTensor.state Z),
      MultiFrameTensor.add_item ([frame_a], value) st =
      MultiFrameTensor.add_item (cond_indep_stack node, value) st.
Proof.
  assert (dict_get (get_iarange_stacks nodes_xyz) "x" = Some [frame_a]) as Hget.
  { reflexivity. }
  split; [exact Hget|].
  exact (get_iarange_stacks_key nodes_xyz "x" [frame_a] Hget).
Defined.

End UtilFacts.
(** * Whole runs of the constructor and of [compute_expectation] *)

Module DiceRuns.
Import Dice DiceFacts.
Section with_scalar.
Context {F : Type} `{Scalar F}.
Implicit Types (st : state F) (d : dice F) (h : list (pyobj F)).

(** ** Masking in [compute_expectation] *)

Lemma mask_all_nonpositive (p : tensor F) :
  mask_all (positive_mask p) = negb (has_nonpositive p).
Proof.
  unfold mask_all, positive_mask, has_nonpositive.
  induction (data p) as [|e l IH]; [done|]. cbn.
  rewrite IH. by destruct (is_pos (val e)).
Qed.

Lemma masked_sum_term (prob : pyobj F) (cost : tensor F) :
  masked_sum prob cost = masked_term prob cost.
Proof.
  destruct prob as [x|p]; [done|]. unfold masked_term.
  destruct (has_nonpositive p) eqn:Hnp.
  - assert (mask_all (positive_mask p) = false) as Hmask
      by (by rewrite mask_all_nonpositive, Hnp).
    destruct (broadcast_shapes (shape cost) (shape p)) as [s|] eqn:Hs.
    + rewrite (masked_sum_nonpositive p cost s Hmask Hs). done.
    + unfold masked_sum. by rewrite Hmask, Hs.
  - unfold masked_sum. by rewrite mask_all_nonpositive, Hnp.
Qed.

Lemma accumulate_term acc (prob : pyobj F) (cost : tensor F) :
  accumulate acc prob cost =
    match masked_term prob cost with
    | Ok term => py_add acc (Tens term)
    | Raise e => Raise e
    end.
Proof. unfold accumulate. by rewrite masked_sum_term. Qed.

Lemma direct_cost_claimed h d acc item :
  direct_cost h d acc item = claimed_direct h d acc item.
Proof.
  unfold direct_cost, claimed_direct, mbind, outcome_bind.
  destruct (py_sum item.2) as [[x|c]|e]; [done| |done].
  destruct (weight h d (shape c) item.1) as [p|e]; [|done].
  apply accumulate_term.
Qed.

Lemma einsum_ordinal_claimed factors_table acc (item : ordinal * list (tensor F)) :
  einsum_ordinal factors_table acc item = claimed_einsum factors_table acc item.
Proof.
  destruct item as [o terms]. unfold einsum_ordinal, claimed_einsum. cbn [fst snd].
  apply DiceMore.fold_outcome_ext. intros b c.
  unfold einsum_cost, mbind, outcome_bind.
  destruct (sumproduct _ _) as [p|e]; [|done]. apply accumulate_term.
Qed.

Lemma exp_factors_run o ls tables st :
  Forall (λ l, is_Some (heap st !! l)) ls →
  ∃ tables', fold_py (exp_factor o) ls tables st = (Ok tables', st).
Proof.
  intros Hall. revert tables.
  induction Hall as [|l ls [x Hx] _ IH]; intros [exp_table factors_table].
  - eexists. by rewrite fold_py_nil.
  - rewrite fold_py_cons. destruct (exp_table !! l) as [f|] eqn:Hl.
    + rewrite (exp_factor_seen _ _ _ _ f) by done. apply IH.
    + rewrite (exp_factor_new _ _ _ _ x) by done. apply IH.
Qed.

Lemma exp_tables_run os tables st :
  dice_inv st →
  ∃ tables' st', fold_py exp_ordinal os tables st = (Ok tables', st').
Proof.
  revert tables st. induction os as [|o os IH]; intros tables st Hinv.
  - eexists _, _. by rewrite fold_py_nil.
  - rewrite fold_py_cons, exp_ordinal_eq.
    pose proof Hinv as (Hc & Hlive & _).
    destruct (get_log_factors_run st o Hc)
      as (l & st1 & Hget & Hspec & _ & Hp1 & _ & [k Hk] & _).
    pose proof (DiceMore.get_log_factors_inv _ _ _ _ Hinv Hget) as Hinv1.
    rewrite Hget.
    destruct (exp_factors_run o l tables st1) as [tables1 ->].
    { destruct Hspec as (leading & -> & Hlead). apply Forall_app. split.
      - destruct (is_zero _); [by subst leading|].
        destruct Hlead as (l0 & -> & Hl0). by repeat constructor.
      - apply Forall_forall. intros l' Hl'. unfold upstream_terms in Hl'.
        apply list_elem_of_join in Hl' as (terms & Hl' & Ht).
        apply list_elem_of_fmap in Ht as ([o' terms'] & -> & Ht).
        apply list_elem_of_filter in Ht as [_ Ht].
        destruct (Hlive o' terms' l' Ht Hl') as [x Hx].
        exists x. rewrite Hk. by apply lookup_app_l_Some. }
    by apply IH.
Qed.


(** ** What the constructor builds *)

Lemma sites_at_snoc h ordering pre x (o : ordinal) :
  sites_at h ordering (pre ++ [x]) o =
    sites_at h ordering pre o ++
    (if decide (contributes h x = true ∧ ordering !! x.1 = Some o) then [x] else []).
Proof.
  unfold sites_at. rewrite filter_app. f_equal.
Qed.

Lemma sites_at_skip h ordering pre x (o : ordinal) :
  ¬ (contributes h x = true ∧ ordering !! x.1 = Some o) →
  sites_at h ordering (pre ++ [x]) o = sites_at h ordering pre o.
Proof. intros Hno. by rewrite sites_at_snoc, decide_False, app_nil_r. Qed.

Lemma denominator_logs_snoc (sites : list (string * site)) x :
  denominator_logs (sites ++ [x]) =
    denominator_logs sites ++
    match (if sequential x.2 then enum_total_log x.2 else None) with
    | Some v => [v]
    | None => []
    end.
Proof.
  unfold denominator_logs. rewrite omap_app. f_equal.
Qed.

Lemma bucket_snoc (logs : list F) v :
  bucket (logs ++ [v]) = Some (add (default zero (bucket logs)) v).
Proof.
  destruct logs as [|a logs]; [done|].
  change (bucket ((a :: logs) ++ [v])) with (Some (sum_list ((a :: logs) ++ [v]))).
  cbn [bucket default]. unfold sum_list. by rewrite foldl_app.
Qed.

Lemma listed_snoc (terms : list loc) l :
  listed (terms ++ [l]) = Some (default [] (listed terms) ++ [l]).
Proof. by destruct terms. Qed.

Lemma term_of_grow h heap' k node l :
  term_of h heap' node l → term_of h (heap' ++ k) node l.
Proof.
  unfold term_of. destruct (enumerated node.2); [done|].
  intros (t & Ht & Hle & Hl). exists t. split; [done|]. split; [done|].
  by apply lookup_app_l_Some.
Qed.

Lemma built_skip h ordering pre x st :
  contributes h x = false → built h ordering pre st →
  built h ordering (pre ++ [x]) st.
Proof.
  intros Hc [Hk Hb]. split; [done|]. intros o.
  rewrite sites_at_skip; [apply Hb|]. intros [Hc' _]. congruence.
Qed.

Lemma built_append h ordering pre x (o0 : ordinal) st k d' l :
  contributes h x = true → ordering !! x.1 = Some o0 →
  built h ordering pre st →
  log_probs d' = log_probs (self st) →
  term_of h (heap st ++ k) x l →
  (∀ o, dict_get (log_denom d') o =
        bucket (denominator_logs (sites_at h ordering (pre ++ [x]) o))) →
  built h ordering (pre ++ [x]) (State (heap st ++ k) (probs_append d' o0 l)).
Proof.
  intros Hc Ho0 [[k0 Hk0] Hb] Hp Hterm Hden. split.
  { exists (k0 ++ k). cbn. by rewrite Hk0, app_assoc. }
  intros o. split; [apply Hden|]. cbn [heap self log_probs probs_append].
  destruct (Hb o) as (_ & terms & Hterms & Hget). rewrite Hp.
  rewrite dict_get_set. destruct (decide (o0 = o)) as [<-|Hne].
  - exists (terms ++ [l]). rewrite sites_at_snoc, decide_True by done. split.
    + apply Forall2_app; [|by repeat constructor].
      eapply Forall2_impl; [exact Hterms|]. intros ??. apply term_of_grow.
    + by rewrite Hget, listed_snoc.
  - exists terms. rewrite sites_at_skip by (intros [_ ?]; congruence). split; [|done].
    eapply Forall2_impl; [exact Hterms|]. intros ??. apply term_of_grow.
Qed.

Lemma denom_kept h ordering pre x st :
  sequential x.2 = false → built h ordering pre st →
  ∀ o, dict_get (log_denom (self st)) o =
       bucket (denominator_logs (sites_at h ordering (pre ++ [x]) o)).
Proof.
  intros Hseq [_ Hb] o. destruct (Hb o) as [-> _].
  rewrite sites_at_snoc. destruct (decide _); [|by rewrite app_nil_r].
  by rewrite denominator_logs_snoc, Hseq, app_nil_r.
Qed.

Lemma denom_added h ordering pre x (o0 : ordinal) v st :
  contributes h x = true → ordering !! x.1 = Some o0 →
  sequential x.2 = true → enum_total_log x.2 = Some v →
  built h ordering pre st →
  ∀ o, dict_get (log_denom (denom_add (self st) o0 v)) o =
       bucket (denominator_logs (sites_at h ordering (pre ++ [x]) o)).
Proof.
  intros Hc Ho0 Hseq Hlog [_ Hb] o. cbn [log_denom denom_add].
  rewrite dict_get_set. destruct (decide (o0 = o)) as [<-|Hne].
  - destruct (Hb o0) as [-> _].
    rewrite sites_at_snoc, decide_True by done.
    by rewrite denominator_logs_snoc, Hseq, Hlog, bucket_snoc.
  - destruct (Hb o) as [-> _].
    by rewrite sites_at_skip by (intros [_ ?]; congruence).
Qed.

Lemma minus_detached_surrogate (t : tensor F) :
  (∀ x : F, sub x zero = x) → tensor_wf t →
  minus_detached (Tens t) = Ok (Tens (surrogate t)).
Proof.
  intros Hsub Hwf. cbn. unfold tsub. rewrite tmap2_same_shape; [|done| |done].
  - cbn. do 2 f_equal. unfold surrogate. f_equal.
    rewrite zip_with_fmap_r, zip_with_diag.
    apply list_fmap_ext. intros i [v g] _. unfold dsub. cbn. by rewrite Hsub.
  - unfold tensor_wf, tdetach, tmap. cbn. by rewrite length_fmap.
Qed.

Lemma sequential_enumerated (s : site) : sequential s = true → enumerated s = true.
Proof.
  unfold sequential, enumerated. intros Hs%bool_decide_eq_true. by rewrite Hs.
Qed.

Lemma built_step h ordering pre name s st st1 :
  (∀ x : F, sub x zero = x) →
  (∀ l t, h !! l = Some (Tens t) → tensor_wf t) →
  (type s = "sample" → is_Some (h !! score_function s)) →
  built h ordering pre st →
  init_site ordering (name, s) st = (Ok tt, st1) →
  built h ordering (pre ++ [(name, s)]) st1.
Proof.
  intros Hsub Hwf Hlive Hb.
  destruct (decide (type s = "sample")) as [Hty|Hty].
  2:{ rewrite (init_site_not_sample _ _ _ _ Hty). intros [= <-].
      apply built_skip; [|done]. unfold contributes. cbn [snd].
      by apply String.eqb_neq in Hty as ->. }
  destruct (Hlive Hty) as [lp Hlp]. pose proof Hb as [[k0 Hk0] _].
  assert (heap st !! score_function s = Some lp) as Hlp'.
  { rewrite Hk0. by apply lookup_app_l_Some. }
  rewrite (init_site_sample _ _ _ _ _ Hty Hlp').
  assert (contributes h (name, s) = negb (is_identically_zero lp)) as Hc.
  { unfold contributes. cbn [snd]. rewrite Hlp. cbn.
    by apply String.eqb_eq in Hty as ->. }
  destruct (is_identically_zero lp) eqn:Hz.
  { intros [= <-]. by apply built_skip. }
  cbn in Hc. destruct (ordering !! name) as [o0|] eqn:Ho0; [|done].
  fold (enumerated s). destruct (enumerated s) eqn:Henum.
  - destruct (decide _) as [Hseq|Hseq].
    + destruct (infer s !! "_enum_total") as [total|] eqn:Htot; [|done].
      destruct (math_log total) as [v|e] eqn:Hlog; [|done].
      intros [= <-]. rewrite <- (app_nil_r (heap st)).
      apply built_append; [done|done|done|done| |].
      * unfold term_of. cbn [snd]. by rewrite Henum.
      * apply denom_added; [done|done| | |done].
        -- unfold sequential. cbn [snd]. by apply bool_decide_eq_true.
        -- unfold enum_total_log. cbn [snd]. rewrite Htot. cbn. by rewrite Hlog.
    + intros [= <-]. rewrite <- (app_nil_r (heap st)).
      apply built_append; [done|done|done|done| |].
      * unfold term_of. cbn [snd]. by rewrite Henum.
      * apply denom_kept; [|done]. unfold sequential. cbn [snd].
        by apply bool_decide_eq_false.
  - destruct lp as [x|t]; [done|].
    rewrite (minus_detached_surrogate t Hsub (Hwf _ _ Hlp)).
    intros [= <-]. apply built_append; [done|done|done|done| |].
    + unfold term_of. cbn [snd]. rewrite Henum. exists t. split; [done|].
      split; [rewrite Hk0, length_app; lia|].
      by rewrite lookup_app_r, Nat.sub_diag by lia.
    + apply denom_kept; [|done]. cbn [snd].
      destruct (sequential s) eqn:Hs; [|done].
      apply sequential_enumerated in Hs. congruence.
Qed.

Lemma built_run h ordering pre rest st st' :
  (∀ x : F, sub x zero = x) →
  (∀ l t, h !! l = Some (Tens t) → tensor_wf t) →
  (∀ name s, (name, s) ∈ rest → type s = "sample" →
     is_Some (h !! score_function s)) →
  built h ordering pre st →
  for_each rest (init_site ordering) st = (Ok tt, st') →
  built h ordering (pre ++ rest) st'.
Proof.
  intros Hsub Hwf. revert pre st.
  induction rest as [|[name s] rest IH]; intros pre st Hlive Hb.
  - intros [= <-]. by rewrite app_nil_r.
  - rewrite DiceMore.for_each_cons.
    destruct (init_site ordering (name, s) st) as [[[]|e] st1] eqn:Hsite; [|done].
    intros Hrest. rewrite (cons_middle _ pre rest), app_assoc.
    apply (IH _ st1); [|by eapply built_step; [..|exact Hsite];
                          [done|done|apply (Hlive name); by left|done]|done].
    intros name' s' Hin. apply (Hlive name'). by right.
Qed.


End with_scalar.

Import Examples.

(** The sum-product goes down to a shape with more axes than the product
    has: the axes are aligned at the last one. *)
Example sumproduct_to_longer_shape :
  sumproduct [Tens (const_tensor [3] [1; 2; 3]%Z)] [2; 1] =
    Ok (Tens (const_tensor [1] [6]%Z)) ∧
  sumproduct [Tens (const_tensor [2; 3] [1; 2; 3; 4; 5; 6]%Z)] [5; 1; 3] =
    Ok (Tens (const_tensor [1; 3] [5; 7; 9]%Z)).
Proof. split; vm_compute; reflexivity. Qed.

Lemma branches_state_reachable : reachable branches_state.
Proof.
  apply (reachable_init [("z", site_parallel)] ordering_z branches_heap).
  vm_compute. reflexivity.
Qed.


(** The weight of the ordinal A has the entries 2 and 0, and the derivative
    of the second entry is indeterminate.  On both branches the cost at the
    second position is left out, whatever it is, and the derivative of the
    result is determinate. *)
Example compute_expectation_masks_impossible_branch :
  (in_context [2] ordinal_A branches_state).1 =
    Ok (Tens (Tensor [2] [Dual (Fin 2) (Fin 2); Dual (Fin 0) NaN])) ∧
  (compute_expectation (branches_costs 20) true branches_state).1 =
    Ok (Tens (Tensor [] [Dual (Fin 20) (Fin 20)])) ∧
  (compute_expectation (branches_costs 20) false branches_state).1 =
    Ok (Tens (Tensor [] [Dual (Fin 20) (Fin 20)])) ∧
  (compute_expectation (branches_costs 77) true branches_state).1 =
    Ok (Tens (Tensor [] [Dual (Fin 20) (Fin 20)])) ∧
  (compute_expectation (branches_costs 77) false branches_state).1 =
    Ok (Tens (Tensor [] [Dual (Fin 20) (Fin 20)])).
Proof. repeat split; vm_compute; reflexivity. Qed.


(** On [sampled_trace] the object holds the logarithm of 4 as the
    denominator of A, and as the terms of A the score-function term of the
    enumerated site and a new tensor of value 0 for the sampled one. *)
Example init_builds_sampled_trace :
  ∃ st,
    __init__ sampled_trace ordering_zy trace_heap = (Ok tt, st) ∧
    log_denom (self st) = [(ordinal_A, 2%Z)] ∧
    log_probs (self st) = [(ordinal_A, [0; 3])] ∧
    heap st = trace_heap ++ [Tens (Tensor [] [Dual 0 1]%Z)].
Proof.
  exists (__init__ sampled_trace ordering_zy trace_heap).2.
  repeat split; vm_compute; reflexivity.
Qed.


End DiceRuns.
